(** * Lead Management System: filter compilation, pagination, validation
      and e-mail uniqueness of the leads routes

    The development follows the server code of the repository: the
    routes of [routes/leads.js] ([buildFilterQuery], the list, create and
    update handlers, the [leadValidation] rules) and the Mongoose schema
    of [models/Lead.js].  JavaScript objects used as dictionaries are
    finite maps, strings are sequences of 8-bit characters, exceptions
    are an explicit result type. *)

From Stdlib Require Import ZArith QArith Qround Lia Ascii String.
From Stdlib Require Qcanon.
From stdpp Require Import gmap strings list fin_maps.

#[local] Set Warnings "-register-all,-clear-no-such-hyp".
#[local] Open Scope string_scope.

(** ** JavaScript strings *)

Module JsString.

(** [s.includes(c)] for a one-character needle. *)
Fixpoint includes (s : string) (c : ascii) : bool :=
  match s with
  | EmptyString => false
  | String a s' => if Ascii.eqb a c then true else includes s' c
  end.

(** [s.split(sep)] for a one-character separator: the segments between
    the separators, empty segments kept; never the empty list. *)
Fixpoint split (sep : ascii) (s : string) : list string :=
  match s with
  | EmptyString => [EmptyString]
  | String a s' =>
      if Ascii.eqb a sep then EmptyString :: split sep s'
      else match split sep s' with
           | [] => [String a EmptyString]
           | seg :: rest => String a seg :: rest
           end
  end.

(** [items.join(sep)]. *)
Fixpoint join (sep : string) (items : list string) : string :=
  match items with
  | [] => EmptyString
  | [x] => x
  | x :: rest => x +:+ sep +:+ join sep rest
  end.

(** White space as [String.prototype.trim] and the numeric-literal
    grammar see it, among 8-bit characters: TAB, LF, VT, FF, CR, SP and
    NBSP. *)
Definition is_space (a : ascii) : bool :=
  let n := nat_of_ascii a in
  bool_decide (n ∈ [9; 10; 11; 12; 13; 32; 160]%nat).

Fixpoint trim_start (l : list ascii) : list ascii :=
  match l with
  | a :: l' => if is_space a then trim_start l' else l
  | [] => []
  end.

Definition trim_list (l : list ascii) : list ascii :=
  rev (trim_start (rev (trim_start l))).

Definition trim (s : string) : string :=
  string_of_list_ascii (trim_list (list_ascii_of_string s)).

Definition lower_ascii (a : ascii) : ascii :=
  let n := nat_of_ascii a in
  if (65 <=? n)%nat && (n <=? 90)%nat then ascii_of_nat (n + 32) else a.

(** [s.toLowerCase()] on the ASCII letters. *)
Fixpoint toLowerCase (s : string) : string :=
  match s with
  | EmptyString => EmptyString
  | String a s' => String (lower_ascii a) (toLowerCase s')
  end.

Fixpoint starts_with (p s : string) : bool :=
  match p, s with
  | EmptyString, _ => true
  | String a p', String b s' => Ascii.eqb a b && starts_with p' s'
  | String _ _, EmptyString => false
  end.

(** [s.includes(sub)] for a string needle. *)
Fixpoint contains (sub s : string) : bool :=
  starts_with sub s ||
  match s with
  | EmptyString => false
  | String _ s' => contains sub s'
  end.

End JsString.

(** ** JavaScript numbers

    A number is NaN, an infinity or a finite value.  Finite values are
    kept as exact rationals: the rounding of a literal to binary64, its
    overflow to an infinity and the sign of zero are not represented
    (they play no part below: the operands compared are short decimal
    literals and integer scores). *)

Module JsNumber.

#[local] Open Scope Z_scope.

Inductive jsnum :=
| NaN
| Infinity (negative : bool)
| Finite (q : Q).

Definition is_digit (a : ascii) : bool :=
  let n := nat_of_ascii a in (48 <=? n)%nat && (n <=? 57)%nat.

Definition digit_value (a : ascii) : Z := Z.of_nat (nat_of_ascii a) - 48.

(** Value of a digit in radix 16, 8 or 2 ([None]: not a digit of it). *)
Definition radix_digit (radix : Z) (a : ascii) : option Z :=
  let n := Z.of_nat (nat_of_ascii a) in
  let v := if (48 <=? n) && (n <=? 57) then Some (n - 48)
           else if (97 <=? n) && (n <=? 102) then Some (n - 87)
           else if (65 <=? n) && (n <=? 70) then Some (n - 55)
           else None in
  match v with
  | Some d => if d <? radix then Some d else None
  | None => None
  end.

Fixpoint radix_value (radix : Z) (acc : Z) (l : list ascii) : option Z :=
  match l with
  | [] => Some acc
  | a :: l' =>
      match radix_digit radix a with
      | Some d => radix_value radix (radix * acc + d) l'
      | None => None
      end
  end.

(** The longest prefix of decimal digits, and what follows it. *)
Fixpoint span_digits (l : list ascii) : list ascii * list ascii :=
  match l with
  | a :: l' =>
      if is_digit a then let '(ds, r) := span_digits l' in (a :: ds, r)
      else ([], l)
  | [] => ([], [])
  end.

Definition digits_value (ds : list ascii) : Z :=
  fold_left (fun acc a => 10 * acc + digit_value a) ds 0.

(** An optional sign: whether it is a minus, and what follows. *)
Definition sign (l : list ascii) : bool * list ascii :=
  match l with
  | a :: r =>
      if Ascii.eqb a "-" then (true, r)
      else if Ascii.eqb a "+" then (false, r)
      else (false, l)
  | [] => (false, l)
  end.

(** SignedInteger of an ExponentPart, which must end the literal. *)
Definition exponent (l : list ascii) : option Z :=
  let '(neg, l1) := sign l in
  match span_digits l1 with
  | ((_ :: _) as ds, []) => Some (if neg then - digits_value ds else digits_value ds)
  | _ => None
  end.

(** StrUnsignedDecimalLiteral other than [Infinity]: digits, an optional
    fraction and an optional exponent, with a digit on at least one side
    of the point. *)
Definition unsigned_decimal (l : list ascii) : option Q :=
  let '(ip, r1) := span_digits l in
  let '(fp, r2) :=
    match r1 with
    | "."%char :: r => span_digits r
    | _ => ([], r1)
    end in
  match (ip ++ fp)%list with
  | [] => None
  | ds =>
      let m := inject_Z (digits_value ds) in
      let scale e := Qred (m * Qpower (10 # 1) (e - Z.of_nat (List.length fp)))%Q in
      match r2 with
      | [] => Some (scale 0)
      | a :: r =>
          if Ascii.eqb a "e" || Ascii.eqb a "E" then
            match exponent r with
            | Some e => Some (scale e)
            | None => None
            end
          else None
      end
  end.

Definition unsigned_literal (l : list ascii) : jsnum :=
  if bool_decide (l = list_ascii_of_string "Infinity") then Infinity false
  else match unsigned_decimal l with
       | Some q => Finite q
       | None => NaN
       end.

Definition negate (n : jsnum) : jsnum :=
  match n with
  | NaN => NaN
  | Infinity neg => Infinity (negb neg)
  | Finite q => Finite (Qred (- q)%Q)
  end.

Definition radix_literal (radix : Z) (ds : list ascii) : jsnum :=
  match ds with
  | [] => NaN
  | _ => match radix_value radix 0 ds with
         | Some v => Finite (inject_Z v)
         | None => NaN
         end
  end.

(** The radix and the digits of a literal that starts with [0x], [0o]
    or [0b]. *)
Definition radix_prefix (l : list ascii) : option (Z * list ascii) :=
  match l with
  | a :: x :: ds =>
      if Ascii.eqb a "0" then
        if Ascii.eqb x "x" || Ascii.eqb x "X" then Some (16, ds)
        else if Ascii.eqb x "o" || Ascii.eqb x "O" then Some (8, ds)
        else if Ascii.eqb x "b" || Ascii.eqb x "B" then Some (2, ds)
        else None
      else None
  | _ => None
  end.

(** StringToNumber: the StringNumericLiteral grammar.  White space is
    trimmed; the empty string is 0; [0x], [0o] and [0b] literals carry
    no sign; anything outside the grammar is NaN. *)
Definition StringToNumber (s : string) : jsnum :=
  match JsString.trim_list (list_ascii_of_string s) with
  | [] => Finite 0%Q
  | (a :: r) as l =>
      if Ascii.eqb a "-" then negate (unsigned_literal r)
      else if Ascii.eqb a "+" then unsigned_literal r
      else match radix_prefix l with
           | Some (radix, ds) => radix_literal radix ds
           | None => unsigned_literal l
           end
  end.

Definition Qlt_bool (x y : Q) : bool := negb (Qle_bool y x).

(** [a < b]; false as soon as one side is NaN. *)
Definition lt (a b : jsnum) : bool :=
  match a, b with
  | NaN, _ | _, NaN => false
  | Finite x, Finite y => Qlt_bool x y
  | Finite _, Infinity neg => negb neg
  | Infinity neg, Finite _ => neg
  | Infinity n1, Infinity n2 => n1 && negb n2
  end.

(** [a <= b]; false as soon as one side is NaN. *)
Definition le (a b : jsnum) : bool :=
  match a, b with
  | NaN, _ | _, NaN => false
  | Finite x, Finite y => Qle_bool x y
  | Finite _, Infinity neg => negb neg
  | Infinity neg, Finite _ => neg
  | Infinity n1, Infinity n2 => n1 || negb n2
  end.

End JsNumber.

(** ** The filter compiler: [buildFilterQuery] *)

Module Filter.

Import JsString JsNumber.

(** A value of [req.query] as the query-string parser yields it: a
    string, an array ([a=1&a=2]) or a nested object ([a[b]=1]). *)
Inductive qval :=
| QStr (s : string)
| QArr (items : list qval)
| QObj (members : list (string * qval)).

(** ToString of such a value: an array joins its elements with commas,
    any other object prints as [[object Object]]. *)
Fixpoint ToString (v : qval) : string :=
  match v with
  | QStr s => s
  | QArr items => join "," (List.map ToString items)
  | QObj _ => "[object Object]"
  end.

(** [Number(value)]: an array or object is first converted to a
    string. *)
Definition Number (v : qval) : jsnum := StringToNumber (ToString v).

(** A [Date] object, by the way the compiler builds it.  Its time value
    depends on the host (date parser and local time zone) and is only
    needed when the store evaluates the predicate. *)
Inductive jsdate :=
| NewDate (v : qval)                      (* new Date(value) *)
| SetHours (d : jsdate) (h m s ms : Z).   (* d.setHours(h, m, s, ms) *)

(** The identifier of an owner (an ObjectId). *)
Definition ID := N.

(** What an operator member such as [$gt] holds. *)
Inductive operand :=
| ONum (n : jsnum)
| ODate (d : jsdate)
| OVal (v : qval).

(** What a property of the query object holds: the object it started
    from and the members added to it afterwards by [query[field].$op =
    ...].  [BObject] is a fresh object literal, [BOwner] the owner's
    identifier, [BValue] a request value stored as it came. *)
Inductive base :=
| BObject
| BOwner (id : ID)
| BValue (v : qval).

Record clause := Clause { clause_base : base; clause_members : gmap string operand }.

(** [{}] *)
Definition empty_clause : clause := Clause BObject ∅.

(** JavaScript truthiness of a property value: only the empty string is
    falsy among the values a property can hold here. *)
Definition truthy (c : clause) : bool :=
  match clause_base c with
  | BValue (QStr EmptyString) => false
  | _ => true
  end.

(** The properties every object literal inherits from
    [Object.prototype]; each reads as a truthy value. *)
Definition Object_prototype : list string :=
  [ "constructor"; "hasOwnProperty"; "isPrototypeOf"; "propertyIsEnumerable";
    "toLocaleString"; "toString"; "valueOf"; "__proto__";
    "__defineGetter__"; "__defineSetter__"; "__lookupGetter__";
    "__lookupSetter__" ].

(** What [query[field]] reads. *)
Inductive slot :=
| Own (c : clause)
| Inherited
| Missing.

Definition get (query : gmap string clause) (field : string) : slot :=
  match query !! field with
  | Some c => Own c
  | None => if bool_decide (field ∈ Object_prototype) then Inherited else Missing
  end.

(** The file is an ES module, hence strict code: storing a member on a
    primitive string, or on [undefined], throws a TypeError. *)
Inductive result (A : Type) :=
| Ok (a : A)
| TypeError.
Arguments Ok {A} a.
Arguments TypeError {A}.

Definition bind {A B} (r : result A) (f : A -> result B) : result B :=
  match r with
  | Ok a => f a
  | TypeError => TypeError
  end.

(** [if (!query[field]) query[field] = {};] *)
Definition ensure (query : gmap string clause) (field : string) : gmap string clause :=
  match get query field with
  | Own c => if truthy c then query else <[field := empty_clause]> query
  | Inherited => query
  | Missing => <[field := empty_clause]> query
  end.

(** [query[field].name = o;]  On an inherited built-in the member lands
    on the shared function object and the query keeps its own
    properties. *)
Definition set_member (query : gmap string clause) (field name : string) (o : operand)
  : result (gmap string clause) :=
  match get query field with
  | Own (Clause (BValue (QStr _)) _) => TypeError
  | Own (Clause b members) => Ok (<[field := Clause b (<[name := o]> members)]> query)
  | Inherited => Ok query
  | Missing => TypeError
  end.

Inductive operator :=
| Equals | Contains | In | Gt | Lt | Between | Before | After | On.

(** The [case] labels of the [switch]. *)
Definition operator_of (s : string) : option operator :=
  if decide (s = "equals") then Some Equals
  else if decide (s = "contains") then Some Contains
  else if decide (s = "in") then Some In
  else if decide (s = "gt") then Some Gt
  else if decide (s = "lt") then Some Lt
  else if decide (s = "between") then Some Between
  else if decide (s = "before") then Some Before
  else if decide (s = "after") then Some After
  else if decide (s = "on") then Some On
  else None.

(** The body of the [switch], after [ensure]. *)
Definition apply_operator (query : gmap string clause) (field : string)
    (op : option operator) (value : qval) : result (gmap string clause) :=
  match op with
  | Some Equals => Ok (<[field := Clause (BValue value) ∅]> query)
  | Some Contains =>
      Ok (<[field := Clause BObject
                       (<["$options" := OVal (QStr "i")]> {[ "$regex" := OVal value ]})]> query)
  | Some In =>
      let arr := match value with QArr _ => value | _ => QArr [value] end in
      Ok (<[field := Clause BObject {[ "$in" := OVal arr ]}]> query)
  | Some Gt => set_member query field "$gt" (ONum (Number value))
  | Some Lt => set_member query field "$lt" (ONum (Number value))
  | Some Between =>
      match value with
      | QArr [v0; v1] =>
          bind (set_member query field "$gte" (ONum (Number v0)))
               (fun q => set_member q field "$lte" (ONum (Number v1)))
      | _ => Ok query
      end
  | Some Before => set_member query field "$lt" (ODate (NewDate value))
  | Some After => set_member query field "$gt" (ODate (NewDate value))
  | Some On =>
      let startOfDay := NewDate value in
      let endOfDay := SetHours (NewDate value) 23 59 59 999 in
      Ok (<[field := Clause BObject
                       (<["$lte" := ODate endOfDay]> {[ "$gte" := ODate startOfDay ]})]> query)
  | None => Ok query
  end.

(** The keys that compile to a direct equality. *)
Definition bare_keys : list string := ["status"; "source"; "is_qualified"].

(** [const [field, operator] = key.split('_');]: the first and the
    second segment, whatever follows them. *)
Definition field_of (key : string) : string :=
  default EmptyString (split "_" key !! 0%nat).

(** The [case] the switch takes on the second segment ([None]: no
    case). *)
Definition operator_in (key : string) : option operator :=
  split "_" key !! 1%nat ≫= operator_of.

(** One turn of the [forEach]: the handling of [key] with
    [value = filters[key]]. *)
Definition step (query : gmap string clause) (key : string) (value : qval)
  : result (gmap string clause) :=
  if includes key "_" then
    let field := field_of key in
    apply_operator (ensure query field) field (operator_in key) value
  else if bool_decide (key ∈ bare_keys) then
    Ok (<[key := Clause (BValue value) ∅]> query)
  else Ok query.

(** [const query = { user_id: userId };] *)
Definition owner_query (userId : ID) : gmap string clause :=
  {[ "user_id" := Clause (BOwner userId) ∅ ]}.

Fixpoint forEach (filters : list (string * qval)) (query : gmap string clause)
  : result (gmap string clause) :=
  match filters with
  | [] => Ok query
  | (key, value) :: rest => bind (step query key value) (forEach rest)
  end.

(** [buildFilterQuery(filters, userId)].  [filters] lists the own
    properties of the object in the order [Object.keys] visits them. *)
Definition buildFilterQuery (filters : list (string * qval)) (userId : ID)
  : result (gmap string clause) :=
  forEach filters (owner_query userId).

End Filter.

(** ** The store's evaluation of a predicate *)

Module Store.

Import JsString JsNumber Filter.

(** The value of a document field. *)
Inductive fieldval :=
| FStr (s : string)
| FNum (n : jsnum)
| FBool (b : bool)
| FDate (t : Z)          (* milliseconds since the epoch *)
| FId (id : ID)
| FNull.

(** What the host decides about dates: the parser behind [new Date(s)]
    ([None] for an Invalid Date) and [setHours] in the server's local
    time zone, on time values. *)
Record host := Host {
  Date_parse : string -> option Z;
  setHours : Z -> Z -> Z -> Z -> Z -> Z
}.

Fixpoint time_value (H : host) (d : jsdate) : option Z :=
  match d with
  | NewDate v => Date_parse H (ToString v)
  | SetHours d' h m s ms => (fun t => setHours H t h m s ms) <$> time_value H d'
  end.

Definition and_opt (a b : option bool) : option bool :=
  match a, b with
  | Some x, Some y => Some (x && y)
  | _, _ => None
  end.

(** [field < operand] ([flip = false]) or [operand < field], strictly
    or not, between values of the same kind. *)
Definition compare (H : host) (strict flip : bool) (fv : fieldval) (o : operand)
  : option bool :=
  match fv, o with
  | FNum x, ONum n =>
      let '(a, b) := if flip then (n, x) else (x, n) in
      Some (if strict then lt a b else le a b)
  | FDate t, ODate d =>
      match time_value H d with
      | Some t0 =>
          let '(a, b) := if flip then (t0, t) else (t, t0) in
          Some (if strict then a <? b else a <=? b)%Z
      | None => None
      end
  | _, _ => None
  end.

(** A pattern without regular-expression metacharacters, which is the
    case where a pattern match is a substring match. *)
Definition plain_pattern (p : string) : bool :=
  forallb (fun a => negb (bool_decide (a ∈ list_ascii_of_string "\^$.|?*+()[]{}")))
          (list_ascii_of_string p).

Definition as_string (v : qval) : option string :=
  match v with QStr s => Some s | _ => None end.

Definition eval_member (H : host) (members : gmap string operand) (fv : fieldval)
    (name : string) (o : operand) : option bool :=
  if decide (name = "$gt") then compare H true true fv o
  else if decide (name = "$lt") then compare H true false fv o
  else if decide (name = "$gte") then compare H false true fv o
  else if decide (name = "$lte") then compare H false false fv o
  else if decide (name = "$in") then
    match fv, o with
    | FStr s, OVal (QArr items) =>
        (fun l => bool_decide (s ∈ l)) <$> mapM as_string items
    | _, _ => None
    end
  else if decide (name = "$regex") then
    match fv, o, members !! "$options" with
    | FStr s, OVal (QStr p), Some (OVal (QStr "i")) =>
        if plain_pattern p then Some (contains (toLowerCase p) (toLowerCase s))
        else None
    | _, _, _ => None
    end
  else if decide (name = "$options") then
    if decide (is_Some (members !! "$regex")) then Some true else None
  else None.

(** Modelled from the spec: the store that evaluates a compiled
    predicate (MongoDB behind the Mongoose model) is not among the
    sources; this is the operator table of the spec's FilterCompiler
    section.  A clause without members is an equality test against its
    value; a clause with members holds when every member does: [$gt] /
    [$lt] field > / < value, [$gte] and [$lte] the inclusive bounds,
    [$in] membership, [$regex] with option [i] the case-insensitive
    substring match.  [None] where that table gives no meaning: a path
    the document lacks, a comparison between values of different kinds
    (the store's casting), an empty object, an Invalid Date. *)
Definition eval_clause (H : host) (fv : option fieldval) (c : clause) : option bool :=
  match fv with
  | None => None
  | Some fv =>
      if decide (clause_members c = ∅) then
        match clause_base c, fv with
        | BOwner id, FId id' => Some (bool_decide (id = id'))
        | BValue (QStr s), FStr s' => Some (bool_decide (s = s'))
        | _, _ => None
        end
      else
        match clause_base c with
        | BObject =>
            foldr (fun '(name, o) acc =>
                     and_opt (eval_member H (clause_members c) fv name o) acc)
                  (Some true) (map_to_list (clause_members c))
        | _ => None
        end
  end.

(** Modelled from the spec: whether a stored document, given by its
    fields, satisfies a compiled predicate; the store's evaluation is
    not among the sources, and a predicate holds when each of its
    clauses does, by the operator table above. *)
Definition matches (H : host) (query : gmap string clause) (doc : gmap string fieldval)
  : option bool :=
  foldr (fun '(field, c) acc => and_opt (eval_clause H (doc !! field) c) acc)
        (Some true) (map_to_list query).

End Store.

(** ** Regular expressions

    The patterns of the repository are anchored at both ends ([^...$])
    and built from character classes, sequence, alternative and
    repetition; matching is by derivatives. *)

Module Regex.

Inductive re :=
| Void
| Eps
| Cls (p : ascii -> bool)
| Seq (r1 r2 : re)
| Alt (r1 r2 : re)
| Star (r : re).

Fixpoint nullable (r : re) : bool :=
  match r with
  | Void | Cls _ => false
  | Eps | Star _ => true
  | Seq r1 r2 => nullable r1 && nullable r2
  | Alt r1 r2 => nullable r1 || nullable r2
  end.

Definition seq (r1 r2 : re) : re :=
  match r1, r2 with
  | Void, _ | _, Void => Void
  | Eps, r | r, Eps => r
  | _, _ => Seq r1 r2
  end.

Definition alt (r1 r2 : re) : re :=
  match r1, r2 with
  | Void, r | r, Void => r
  | _, _ => Alt r1 r2
  end.

Fixpoint deriv (a : ascii) (r : re) : re :=
  match r with
  | Void | Eps => Void
  | Cls p => if p a then Eps else Void
  | Seq r1 r2 =>
      if nullable r1 then alt (seq (deriv a r1) r2) (deriv a r2)
      else seq (deriv a r1) r2
  | Alt r1 r2 => alt (deriv a r1) (deriv a r2)
  | Star r' => seq (deriv a r') (Star r')
  end.

(** [/^r$/.test(s)] *)
Fixpoint test (r : re) (s : string) : bool :=
  match s with
  | EmptyString => nullable r
  | String a s' => test (deriv a r) s'
  end.

Definition chr (c : ascii) : re := Cls (Ascii.eqb c).
Definition opt (r : re) : re := Alt Eps r.             (* r? *)
Definition plus (r : re) : re := Seq r (Star r).        (* r+ *)

(** [r{0,n}] *)
Fixpoint upto (n : nat) (r : re) : re :=
  match n with
  | O => Eps
  | S n' => opt (Seq r (upto n' r))
  end.

Definition between (lo hi : nat) (a : ascii) : bool :=
  let n := nat_of_ascii a in (lo <=? n)%nat && (n <=? hi)%nat.

Definition digit : re := Cls (between 48 57).                             (* \d *)
Definition word : re :=                                                    (* \w *)
  Cls (fun a => between 48 57 a || between 65 90 a || between 97 122 a || Ascii.eqb a "_").

End Regex.

(** ** Request validation: the express-validator chains *)

Module Validation.

Import JsString JsNumber Regex.

(** Checks of the validator library whose definitions are long and
    not part of the repository: they are taken as they come.
    [normalizeEmail] is used on addresses [isEmail] accepts. *)
Record validator_js := ValidatorJs {
  isEmail : string -> bool;
  normalizeEmail : string -> string;
  isFloat_min0 : string -> bool;      (* isFloat({ min: 0 }) *)
  isISO8601 : string -> bool
}.

(** [notEmpty()] *)
Definition notEmpty (s : string) : bool := negb (bool_decide (s = EmptyString)).

(** [isLength({ max })] *)
Definition isLength_max (max : nat) (s : string) : bool := (String.length s <=? max)%nat.

(** [isIn(values)] *)
Definition isIn (values : list string) (s : string) : bool := bool_decide (s ∈ values).

(** [isBoolean()] *)
Definition isBoolean (s : string) : bool := bool_decide (s ∈ ["true"; "false"; "1"; "0"]).

(** [isInt({ min, max })]: an optional sign and digits, then the bounds
    on the number the string converts to. *)
Definition isInt (min max : option Z) (s : string) : bool :=
  Regex.test (Seq (opt (Alt (chr "-") (chr "+"))) (plus digit)) s
  && match min with
     | Some lo => le (Finite (inject_Z lo)) (StringToNumber s)
     | None => true
     end
  && match max with
     | Some hi => le (StringToNumber s) (Finite (inject_Z hi))
     | None => true
     end.

(** [/^[\+]?[1-9][\d]{0,15}$/] *)
Definition phone_pattern : re :=
  Seq (opt (chr "+")) (Seq (Cls (between 49 57)) (upto 15 digit)).

Definition sources : list string :=
  ["website"; "facebook_ads"; "google_ads"; "referral"; "events"; "other"].
Definition statuses : list string :=
  ["new"; "contacted"; "qualified"; "lost"; "won"].

(** A link of a chain: a sanitizer, or a validator with the message of
    its [withMessage]. *)
Inductive link :=
| Sanitizer (f : string -> string)
| Validator (check : string -> bool) (message : string).

Record chain := Chain { path : string; optional : bool; links : list link }.

Record error := Error { error_path : string; error_msg : string }.

(** The string a validator or sanitizer sees; a missing field reads
    as the empty string. *)
Definition toString (value : option string) : string := default EmptyString value.

(** Every validator of a chain runs, each failure adds its error; a
    sanitizer replaces the value for the links after it. *)
Fixpoint run_links (p : string) (ls : list link) (value : option string)
  : option string * list error :=
  match ls with
  | [] => (value, [])
  | Sanitizer f :: rest => run_links p rest (Some (f (toString value)))
  | Validator check message :: rest =>
      let '(v, errs) := run_links p rest value in
      (v, if check (toString value) then errs else Error p message :: errs)
  end.

(** A chain on a request body ([optional()] skips an absent field). *)
Definition run_chain (c : chain) (body : gmap string string) : option string * list error :=
  match body !! path c with
  | None => if optional c then (None, []) else run_links (path c) (links c) None
  | Some v => run_links (path c) (links c) (Some v)
  end.

(** [validationResult(req).array()]: the errors of all chains, in
    order. *)
Definition validationResult (chains : list chain) (body : gmap string string) : list error :=
  concat (List.map (fun c => (run_chain c body).2) chains).

(** The body after the chains ran: a sanitized value is written back. *)
Definition sanitized (chains : list chain) (body : gmap string string) : gmap string string :=
  fold_left (fun b c =>
               match (run_chain c body).1 with
               | Some v => <[path c := v]> b
               | None => b
               end) chains body.

Section LeadValidation.

Variable V : validator_js.

Definition required_text (p : string) (required_msg : string) (max : nat) (max_msg : string)
  : chain :=
  Chain p false
    [ Sanitizer trim; Validator notEmpty required_msg;
      Validator (isLength_max max) max_msg ].

(** [leadValidation], the rules of both [router.post('/')] and
    [router.put('/:id')]. *)
Definition leadValidation : list chain :=
  [ required_text "first_name" "First name is required" 50
                  "First name cannot exceed 50 characters";
    required_text "last_name" "Last name is required" 50
                  "Last name cannot exceed 50 characters";
    Chain "email" false
      [ Validator (isEmail V) "Please enter a valid email";
        Sanitizer (normalizeEmail V) ];
    Chain "phone" false
      [ Validator (Regex.test phone_pattern) "Please enter a valid phone number" ];
    required_text "company" "Company name is required" 100
                  "Company name cannot exceed 100 characters";
    required_text "city" "City is required" 50 "City cannot exceed 50 characters";
    required_text "state" "State is required" 50 "State cannot exceed 50 characters";
    Chain "source" false [ Validator (isIn sources) "Invalid source value" ];
    Chain "status" true [ Validator (isIn statuses) "Invalid status value" ];
    Chain "score" true
      [ Validator (isInt (Some 0%Z) (Some 100%Z)) "Score must be between 0 and 100" ];
    Chain "lead_value" true
      [ Validator (isFloat_min0 V) "Lead value cannot be negative" ];
    Chain "is_qualified" true
      [ Validator isBoolean "is_qualified must be a boolean" ];
    Chain "last_activity_at" true
      [ Validator (isISO8601 V) "Invalid date format for last_activity_at" ] ].

End LeadValidation.

(** The chains of [router.get('/')] on [req.query]. *)
Definition listValidation : list chain :=
  [ Chain "page" true
      [ Validator (isInt (Some 1%Z) None) "Page must be a positive integer" ];
    Chain "limit" true
      [ Validator (isInt (Some 1%Z) (Some 100%Z)) "Limit must be between 1 and 100" ] ].

End Validation.

(** ** Pagination: the list handler's arithmetic

    Counts and page numbers are kept as integers, and the one division
    is done on rationals.  These are the numbers of the language as long
    as they stay within [Number.MAX_SAFE_INTEGER]: up to it every
    integer is a number, [parseInt] reads the integer a digit string
    denotes, and sums and products are exact.  Beyond it the language
    rounds to the nearest number it has, which is not modelled: the
    statements about pages keep the page number and the count within a
    hundredth of that bound, 100 being the largest limit, so that
    [(page - 1) * limit] and [Math.ceil(total / limit)] are exact as
    well.  [req.query] is read here as a map to strings: [page] and
    [limit] given once each. *)

Module Pagination.

Import JsString JsNumber.

#[local] Open Scope Z_scope.

(** [Number.MAX_SAFE_INTEGER] *)
Definition MAX_SAFE_INTEGER : Z := 2 ^ 53 - 1.

(** [parseInt(s)]: leading white space, an optional sign, then the
    longest run of digits (hexadecimal after [0x]); [None] is NaN.
    The result is the integer the digits denote, which is the number
    [parseInt] returns when it is within [MAX_SAFE_INTEGER]. *)
Fixpoint int_prefix (radix : Z) (l : list ascii) (acc : option Z) : option Z :=
  match l with
  | a :: l' =>
      match radix_digit radix a with
      | Some d => int_prefix radix l' (Some (radix * default 0 acc + d))
      | None => acc
      end
  | [] => acc
  end.

Definition parseInt (s : string) : option Z :=
  let '(neg, l) := sign (JsString.trim_start (list_ascii_of_string s)) in
  let magnitude :=
    match l with
    | a :: x :: r =>
        if Ascii.eqb a "0" && (Ascii.eqb x "x" || Ascii.eqb x "X")
        then int_prefix 16 r None
        else int_prefix 10 l None
    | _ => int_prefix 10 l None
    end in
  (fun m => if neg then - m else m) <$> magnitude.

(** [parseInt(raw) || fallback]: NaN and 0 are falsy. *)
Definition parse_or (raw : option string) (fallback : Z) : Z :=
  match raw ≫= parseInt with
  | Some n => if n =? 0 then fallback else n
  | None => fallback
  end.

Record pagination := Pagination {
  page : Z;
  limit : Z;
  total : Z;
  totalPages : Z;
  hasNext : bool;
  hasPrev : bool
}.

(** [const page = parseInt(req.query.page) || 1;] *)
Definition page_of (query : gmap string string) : Z := parse_or (query !! "page") 1.

(** [const limit = parseInt(req.query.limit) || 20;] *)
Definition limit_of (query : gmap string string) : Z := parse_or (query !! "limit") 20.

(** [const skip = (page - 1) * limit;], exact while the product is
    within [MAX_SAFE_INTEGER]. *)
Definition skip_of (query : gmap string string) : Z :=
  (page_of query - 1) * limit_of query.

(** [Math.ceil(total / limit)] *)
Definition ceil_div (total limit : Z) : Z :=
  Qceiling (inject_Z total / inject_Z limit).

(** The [pagination] member of the list response, for a request whose
    count is [total]. *)
Definition paginate (query : gmap string string) (total : Z) : pagination :=
  let page := page_of query in
  let limit := limit_of query in
  let totalPages := ceil_div total limit in
  Pagination page limit total totalPages (page <? totalPages) (1 <? page).

End Pagination.

(** ** The Lead model and the create, update and delete handlers *)

Module Leads.

Import JsString JsNumber Regex Filter Store Validation.

(** *** The schema of [models/Lead.js] *)

Inductive schema_type := TString | TNumber | TDate | TBoolean | TObjectId.

Record schema_path := SchemaPath {
  sp_name : string;
  sp_type : schema_type;
  sp_required : bool;
  sp_unique : bool;
  sp_lowercase : bool;
  sp_trim : bool;
  sp_maxlength : option nat;
  sp_match : option re;
  sp_enum : option (list string);
  sp_min : option Z;
  sp_max : option Z;
  sp_default : option fieldval
}.

(** [/^\w+([.-]?\w+)*@\w+([.-]?\w+)*(\.\w{2,3})+$/] *)
Definition email_pattern : re :=
  let dotted := Star (Seq (opt (Alt (chr ".") (chr "-"))) (plus word)) in
  Seq (plus word) (Seq dotted (Seq (chr "@") (Seq (plus word) (Seq dotted
    (plus (Seq (chr ".") (Seq word (Seq word (opt word))))))))).

Definition text (name : string) (maxlength : nat) : schema_path :=
  SchemaPath name TString true false false true (Some maxlength) None None None None None.

(** [email]: required, unique, lower-cased, trimmed, matched against
    the pattern. *)
Definition email_path : schema_path :=
  SchemaPath "email" TString true true true true None (Some email_pattern) None None None None.

Definition leadSchema : list schema_path :=
  [ text "first_name" 50;
    text "last_name" 50;
    email_path;
    SchemaPath "phone" TString true false false true None (Some phone_pattern) None None None None;
    text "company" 100;
    text "city" 50;
    text "state" 50;
    SchemaPath "source" TString true false false false None None (Some sources) None None None;
    SchemaPath "status" TString true false false false None None (Some statuses) None None
               (Some (FStr "new"));
    SchemaPath "score" TNumber false false false false None None None (Some 0%Z) (Some 100%Z)
               (Some (FNum (Finite 0)));
    SchemaPath "lead_value" TNumber false false false false None None None (Some 0%Z) None
               (Some (FNum (Finite 0)));
    SchemaPath "last_activity_at" TDate false false false false None None None None None
               (Some FNull);
    SchemaPath "is_qualified" TBoolean false false false false None None None None None
               (Some (FBool false));
    SchemaPath "user_id" TObjectId true false false false None None None None None None ].

(** *** What the object-document mapper does with the schema *)

(** What the mapper takes from outside: its conversion of a string to
    a Date ([None]: the cast fails). *)
Record mapper := Mapper {
  castDate : string -> option Z
}.

(** A string as an ObjectId, in its form of 24 hexadecimal digits. *)
Definition castObjectId (s : string) : option ID :=
  let l := list_ascii_of_string s in
  if (List.length l =? 24)%nat then Z.to_N <$> radix_value 16 0 l else None.

Definition setters (sp : schema_path) (s : string) : string :=
  let s := if sp_lowercase sp then toLowerCase s else s in
  if sp_trim sp then trim s else s.

(** Casting a value to the type of its path; [None] is a CastError. *)
Definition cast (M : mapper) (sp : schema_path) (v : fieldval) : option fieldval :=
  match sp_type sp, v with
  | _, FNull => Some FNull
  | TString, FStr s => Some (FStr (setters sp s))
  | TNumber, FStr s =>
      if bool_decide (s = EmptyString) then Some FNull
      else match StringToNumber s with
           | NaN => None
           | n => Some (FNum n)
           end
  | TNumber, FNum NaN => None
  | TNumber, FNum n => Some (FNum n)
  | TBoolean, FStr s =>
      if bool_decide (s ∈ ["true"; "1"; "yes"]) then Some (FBool true)
      else if bool_decide (s ∈ ["false"; "0"; "no"]) then Some (FBool false)
      else None
  | TBoolean, FBool b => Some (FBool b)
  | TDate, FStr s =>
      if bool_decide (s = EmptyString) then Some FNull else FDate <$> castDate M s
  | TDate, FDate t => Some (FDate t)
  | TObjectId, FStr s => FId <$> castObjectId s
  | TObjectId, FId id => Some (FId id)
  | _, _ => None
  end.

(** The validators a path declares, on a cast value. *)
Definition valid (sp : schema_path) (v : fieldval) : bool :=
  match v with
  | FNull => negb (sp_required sp)
  | FStr s =>
      negb (sp_required sp && bool_decide (s = EmptyString))
      && match sp_maxlength sp with Some n => (String.length s <=? n)%nat | None => true end
      && match sp_match sp with
         | Some r => bool_decide (s = EmptyString) || Regex.test r s
         | None => true
         end
      && match sp_enum sp with Some vs => bool_decide (s ∈ vs) | None => true end
  | FNum n =>
      match sp_min sp with Some lo => le (Finite (inject_Z lo)) n | None => true end
      && match sp_max sp with Some hi => le n (Finite (inject_Z hi)) | None => true end
  | _ => true
  end.

Inductive failure :=
| CastError
| ValidationError
| DuplicateKey.            (* code 11000 *)

(** A new document from the object given to [new Lead(...)]: every
    declared path is cast, or takes its default; members that are not
    paths of the schema are dropped. *)
Fixpoint build (M : mapper) (paths : list schema_path) (obj : gmap string fieldval)
  : option (gmap string fieldval) :=
  match paths with
  | [] => Some ∅
  | sp :: rest =>
      doc ← build M rest obj;
      match obj !! sp_name sp with
      | Some v => (fun v' => <[sp_name sp := v']> doc) <$> cast M sp v
      | None =>
          Some match sp_default sp with
               | Some d => <[sp_name sp := d]> doc
               | None => doc
               end
      end
  end.

(** Validation of a document before it is saved. *)
Definition validate (paths : list schema_path) (doc : gmap string fieldval) : bool :=
  forallb (fun sp => valid sp (default FNull (doc !! sp_name sp))) paths.

(** The members of an update that are paths of the schema, cast. *)
Fixpoint cast_update (M : mapper) (paths : list schema_path) (upd : gmap string fieldval)
  : option (gmap string fieldval) :=
  match paths with
  | [] => Some ∅
  | sp :: rest =>
      u ← cast_update M rest upd;
      match upd !! sp_name sp with
      | Some v => (fun v' => <[sp_name sp := v']> u) <$> cast M sp v
      | None => Some u
      end
  end.

(** Update validators: the validators of the paths the update sets. *)
Definition validate_update (paths : list schema_path) (u : gmap string fieldval) : bool :=
  forallb (fun sp => match u !! sp_name sp with
                     | Some v => valid sp v
                     | None => true
                     end) paths.

(** The paths the schema declares unique, besides [_id]. *)
Definition unique_paths (paths : list schema_path) : list string :=
  "_id" :: List.map sp_name (List.filter sp_unique paths).

(** Equality of two index keys. *)
Definition same_key (a b : fieldval) : bool :=
  match a, b with
  | FStr s, FStr s' => bool_decide (s = s')
  | FNum (Finite x), FNum (Finite y) => Qeq_bool x y
  | FNum (Infinity n), FNum (Infinity n') => bool_decide (n = n')
  | FNum NaN, FNum NaN => true
  | FBool x, FBool y => bool_decide (x = y)
  | FDate t, FDate t' => bool_decide (t = t')
  | FId i, FId i' => bool_decide (i = i')
  | FNull, FNull => true
  | _, _ => false
  end.

(** Whether [doc] would collide with [other] on a unique index. *)
Definition collides (paths : list schema_path) (doc other : gmap string fieldval) : bool :=
  existsb (fun p => match doc !! p, other !! p with
                    | Some a, Some b => same_key a b
                    | _, _ => false
                    end) (unique_paths paths).

(** *** The collection and the model's operations

    A request body is modelled on the paths the schema declares:
    members named [_id], [created_at] or [updated_at] are left out of
    what the mapper reads, so that the identifier and the two stamps
    of a document are those the store gives it.  A body that names
    them itself is outside the model. *)

Inductive outcome (A : Type) :=
| Done (a : A)
| Failed (f : failure).
Arguments Done {A} a.
Arguments Failed {A} f.

Definition field_is (doc : gmap string fieldval) (name : string) (v : fieldval) : bool :=
  match doc !! name with
  | Some a => same_key a v
  | None => false
  end.

(** The filter [{ email, user_id }], with [_id: { $ne: id }] when
    [excluding] is given.  The address goes through the setters of its
    path, as every value of a filter does. *)
Definition by_email_owner (email : option string) (uid : ID) (excluding : option ID)
    (doc : gmap string fieldval) : bool :=
  match email with
  | None => false
  | Some e =>
      field_is doc "email" (FStr (setters email_path e))
      && field_is doc "user_id" (FId uid)
      && match excluding with
         | Some i => negb (field_is doc "_id" (FId i))
         | None => true
         end
  end.

(** The filter [{ _id, user_id }]. *)
Definition by_id_owner (i uid : ID) (doc : gmap string fieldval) : bool :=
  field_is doc "_id" (FId i) && field_is doc "user_id" (FId uid).

(** The first document a filter selects, with those before and after
    it. *)
Fixpoint select (p : gmap string fieldval -> bool) (coll : list (gmap string fieldval))
  : option (list (gmap string fieldval) * gmap string fieldval * list (gmap string fieldval)) :=
  match coll with
  | [] => None
  | d :: rest =>
      if p d then Some ([], d, rest)
      else (fun '(before, x, after) => (d :: before, x, after)) <$> select p rest
  end.

(** [lead.save()] of [new Lead(obj)]: cast and validate (a failed cast
    is reported as a validation error), stamp, insert under the unique
    indexes. *)
Definition save (M : mapper) (now : Z) (newId : ID) (obj : gmap string fieldval)
    (coll : list (gmap string fieldval))
  : outcome (gmap string fieldval * list (gmap string fieldval)) :=
  match build M leadSchema obj with
  | None => Failed ValidationError
  | Some doc =>
      if validate leadSchema doc then
        let doc := <["updated_at" := FDate now]>
                     (<["created_at" := FDate now]> (<["_id" := FId newId]> doc)) in
        if existsb (collides leadSchema doc) coll then Failed DuplicateKey
        else Done (doc, (coll ++ [doc])%list)
      else Failed ValidationError
  end.

(** [Lead.findOneAndUpdate({ _id: id, user_id }, upd, { new: true,
    runValidators: true })]; [None] when no document is selected. *)
Definition findOneAndUpdate (M : mapper) (now : Z) (id : string) (uid : ID)
    (upd : gmap string fieldval) (coll : list (gmap string fieldval))
  : outcome (option (gmap string fieldval) * list (gmap string fieldval)) :=
  match castObjectId id, cast_update M leadSchema upd with
  | Some i, Some u =>
      if validate_update leadSchema u then
        match select (by_id_owner i uid) coll with
        | None => Done (None, coll)
        | Some (before, doc, after) =>
            let doc' := <["updated_at" := FDate now]> (u ∪ doc) in
            if existsb (collides leadSchema doc') (before ++ after)%list
            then Failed DuplicateKey
            else Done (Some doc', (before ++ doc' :: after)%list)
        end
      else Failed ValidationError
  | _, _ => Failed CastError
  end.

(** *** The handlers *)

Inductive response :=
| Json (status : nat) (success : bool) (message : string) (errors : list error)
       (data : option (gmap string fieldval))
| NoContent (status : nat).

Definition refuse (status : nat) (message : string) : response :=
  Json status false message [] None.

Section Handlers.

Variable V : validator_js.
Variable M : mapper.

(** [router.post('/', leadValidation, ...)] for the user [uid]; [now]
    is the clock and [newId] the identifier the new document gets. *)
Definition post (now : Z) (newId uid : ID) (body : gmap string string)
    (coll : list (gmap string fieldval)) : response * list (gmap string fieldval) :=
  let errors := validationResult (leadValidation V) body in
  if negb (bool_decide (errors = [])) then
    (Json 400 false "Validation failed" errors None, coll)
  else
    let body := sanitized (leadValidation V) body in
    match select (by_email_owner (body !! "email") uid None) coll with
    | Some _ => (refuse 400 "A lead with this email already exists", coll)
    | None =>
        match save M now newId (<["user_id" := FId uid]> (FStr <$> body)) coll with
        | Done (doc, coll') => (Json 201 true "Lead created successfully" [] (Some doc), coll')
        | Failed DuplicateKey => (refuse 400 "A lead with this email already exists", coll)
        | Failed _ => (refuse 500 "Unable to create lead", coll)
        end
    end.

(** The [catch] of the update handler. *)
Definition put_catch (f : failure) : response :=
  match f with
  | CastError => refuse 400 "Invalid lead ID format"
  | DuplicateKey => refuse 400 "A lead with this email already exists"
  | ValidationError => refuse 500 "Unable to update lead"
  end.

(** The pre-check of the update handler: [Some] response when it ends
    the request. *)
Definition put_precheck (uid : ID) (id : string) (body : gmap string string)
    (coll : list (gmap string fieldval)) : option response :=
  match body !! "email" with
  | Some e =>
      if bool_decide (e = EmptyString) then None
      else match castObjectId id with
           | None => Some (put_catch CastError)
           | Some i =>
               match select (by_email_owner (Some e) uid (Some i)) coll with
               | Some _ => Some (refuse 400 "Another lead with this email already exists")
               | None => None
               end
           end
  | None => None
  end.

(** [router.put('/:id', leadValidation, ...)] *)
Definition put (now : Z) (uid : ID) (id : string) (body : gmap string string)
    (coll : list (gmap string fieldval)) : response * list (gmap string fieldval) :=
  let errors := validationResult (leadValidation V) body in
  if negb (bool_decide (errors = [])) then
    (Json 400 false "Validation failed" errors None, coll)
  else
    let body := sanitized (leadValidation V) body in
    match put_precheck uid id body coll with
    | Some r => (r, coll)
    | None =>
        match findOneAndUpdate M now id uid
                (<["updated_at" := FDate now]> (FStr <$> body)) coll with
        | Done (Some doc, coll') => (Json 200 true "Lead updated successfully" [] (Some doc), coll')
        | Done (None, _) => (refuse 404 "Lead not found", coll)
        | Failed f => (put_catch f, coll)
        end
    end.

(** [router.delete('/:id', ...)] *)
Definition delete_lead (uid : ID) (id : string) (coll : list (gmap string fieldval))
  : response * list (gmap string fieldval) :=
  match castObjectId id with
  | None => (refuse 400 "Invalid lead ID format", coll)
  | Some i =>
      match select (by_id_owner i uid) coll with
      | Some (before, _, after) => (NoContent 204, (before ++ after)%list)
      | None => (refuse 404 "Lead not found", coll)
      end
  end.

(** A request to one of the three writing routes, with what the
    server adds to it (clock, new identifier) and the authenticated
    user. *)
Inductive request :=
| Create (now : Z) (newId uid : ID) (body : gmap string string)
| Update (now : Z) (uid : ID) (id : string) (body : gmap string string)
| Delete (uid : ID) (id : string).

Definition handle (r : request) (coll : list (gmap string fieldval))
  : response * list (gmap string fieldval) :=
  match r with
  | Create now newId uid body => post now newId uid body coll
  | Update now uid id body => put now uid id body coll
  | Delete uid id => delete_lead uid id coll
  end.

(** The collection after a sequence of requests. *)
Fixpoint serve (rs : list request) (coll : list (gmap string fieldval))
  : list (gmap string fieldval) :=
  match rs with
  | [] => coll
  | r :: rest => serve rest (handle r coll).2
  end.

End Handlers.

End Leads.

(** ** Sample requests *)

Module Samples.

Import Filter Store Validation Leads.

(** A stand-in for the validator library on the sample requests: they
    carry plain lower-case addresses, which the library accepts and
    leaves as they are, and neither [lead_value] nor
    [last_activity_at]. *)
Definition validator : validator_js :=
  ValidatorJs (Regex.test email_pattern) (fun s => s) (fun _ => true) (fun _ => true).

Definition mapper0 : mapper := Mapper (fun _ => None).

(** A complete lead form with the given address. *)
Definition form (email : string) : gmap string string :=
  list_to_map
    [ ("first_name", "Ann"); ("last_name", "Lee"); ("email", email);
      ("phone", "+15551234567"); ("company", "Corp"); ("city", "Pune");
      ("state", "MH"); ("source", "website") ].

(** Two owners. *)
Definition alice : ID := 7%N.
Definition bob : ID := 8%N.

(** The collection after alice created leads 1 (ann@corp.com) and 3
    (cy@corp.com) and bob created lead 2 (bo@corp.com). *)
Definition three_leads : list (gmap string fieldval) :=
  let c1 := (post validator mapper0 1000 1%N alice (form "ann@corp.com") []).2 in
  let c2 := (post validator mapper0 1001 2%N bob (form "bo@corp.com") c1).2 in
  (post validator mapper0 1002 3%N alice (form "cy@corp.com") c2).2.

Definition id1 : string := "000000000000000000000001".

End Samples.

(** ** Notions the statements use *)

Module Statements.

Import Filter Store Leads.

(** Two results that fail together, or succeed with queries related by
    [R]. *)
Definition alike (R : gmap string clause → gmap string clause → Prop)
    (r1 r2 : result (gmap string clause)) : Prop :=
  match r1, r2 with
  | Ok q1, Ok q2 => R q1 q2
  | TypeError, TypeError => True
  | _, _ => False
  end.

(** Queries that agree on every property but [f], and on [f] once the
    loop has made sure of it. *)
Definition same_but (f : string) (q1 q2 : gmap string clause) : Prop :=
  (∀ k, k ≠ f → q1 !! k = q2 !! k) ∧ ensure q1 f !! f = ensure q2 f !! f.

(** Two documents that do not share the value of the path [p]. *)
Definition apart (p : string) (d1 d2 : gmap string fieldval) : Prop :=
  ∀ a b, d1 !! p = Some a → d2 !! p = Some b → same_key a b = false.

(** No two documents of the collection share the value of [p]. *)
Fixpoint distinct_on (p : string) (coll : list (gmap string fieldval)) : Prop :=
  match coll with
  | [] => True
  | d :: rest => Forall (apart p d) rest ∧ distinct_on p rest
  end.

(** The fields whose chain fails on an absent value whatever the
    validator library says, with the message of the failure. *)
Definition required_messages : list (string * string) :=
  [ ("first_name", "First name is required"); ("last_name", "Last name is required");
    ("phone", "Please enter a valid phone number");
    ("company", "Company name is required"); ("city", "City is required");
    ("state", "State is required"); ("source", "Invalid source value") ].

End Statements.

(** Finds a given member of an explicit list. *)
Ltac pick_member :=
  apply list_elem_of_here + (apply list_elem_of_further; pick_member).

(** ** Integers as decimal strings

    [String(n)], the template literal [`${n}`] and the serialization of
    a request parameter, for an integer [n]: the decimal digits, after a
    minus sign when [n] is negative.  This is what the language prints
    for an integer of magnitude below 10^21; from there on it prints an
    exponent, which is not modelled: the statements that print a number
    keep it within [Number.MAX_SAFE_INTEGER]. *)

Module JsInteger.

#[local] Open Scope Z_scope.

Definition digit_char (d : Z) : ascii := ascii_of_nat (Z.to_nat (48 + d)).

(** The digits of [n], from the most significant, put before [acc];
    [fuel] bounds their number. *)
Fixpoint digits (fuel : nat) (n : Z) (acc : list ascii) : list ascii :=
  match fuel with
  | O => acc
  | S fuel' =>
      let acc' := digit_char (n mod 10) :: acc in
      if n <? 10 then acc' else digits fuel' (n / 10) acc'
  end.

(** A number has no more decimal digits than binary ones. *)
Definition digits_of (n : Z) : list ascii := digits (S (Z.to_nat (Z.log2 n))) n [].

Definition toString (n : Z) : string :=
  string_of_list_ascii
    (if n <? 0 then "-"%char :: digits_of (- n) else digits_of n).

End JsInteger.

(** ** The reading routes: one lead, and the list *)

Module Reads.

Import JsString JsNumber Filter Store Validation Pagination Leads.

(** The answer of a reading route. *)
Inductive reply :=
| One (data : gmap string fieldval)                       (* 200, one lead *)
| Many (data : list (gmap string fieldval)) (pagination : pagination)   (* 200, a page *)
| Refused (status : nat) (message : string) (errors : list error).

(** What the reading routes take from the object-document mapper and
    the store behind it: [populate('user_id', ...)] on a lead; the
    documents a compiled predicate selects, [None] when the store
    rejects the predicate (a value it cannot cast, a pattern it cannot
    compile); and the order [sort({ created_at: -1 })] gives the
    selected documents. *)
Record engine := Engine {
  populate : gmap string fieldval -> gmap string fieldval;
  selects : gmap string clause -> option (gmap string fieldval -> bool);
  sort : list (gmap string fieldval) -> list (gmap string fieldval)
}.

Section Handlers.

Variable E : engine.

(** [router.get('/:id', ...)] for the user [uid]. *)
Definition get_lead (uid : ID) (id : string) (coll : list (gmap string fieldval)) : reply :=
  match castObjectId id with
  | None => Refused 400 "Invalid lead ID format" []
  | Some i =>
      match select (by_id_owner i uid) coll with
      | Some (_, doc, _) => One (populate E doc)
      | None => Refused 404 "Lead not found" []
      end
  end.

(** [Lead.find(q).sort(...).skip(skip).limit(limit)] *)
Definition find (p : gmap string fieldval -> bool) (skip limit : Z)
    (coll : list (gmap string fieldval)) : list (gmap string fieldval) :=
  take (Z.to_nat limit) (drop (Z.to_nat skip) (sort E (List.filter p coll))).

(** [Lead.countDocuments(q)] *)
Definition countDocuments (p : gmap string fieldval -> bool)
    (coll : list (gmap string fieldval)) : Z :=
  Z.of_nat (List.length (List.filter p coll)).

(** [router.get('/', ...)] for the user [uid]: [query] is [req.query]
    as the pagination reads it, [filters] its parameters other than
    [page] and [limit], in the order of [Object.keys]. *)
Definition list_leads (uid : ID) (query : gmap string string)
    (filters : list (string * qval)) (coll : list (gmap string fieldval)) : reply :=
  let errors := validationResult listValidation query in
  if negb (bool_decide (errors = [])) then Refused 400 "Validation failed" errors
  else
    match buildFilterQuery filters uid with
    | TypeError => Refused 500 "Unable to fetch leads" []
    | Ok filterQuery =>
        match selects E filterQuery with
        | None => Refused 500 "Unable to fetch leads" []
        | Some p =>
            Many (populate E <$> find p (skip_of query) (limit_of query) coll)
                 (paginate query (countDocuments p coll))
        end
    end.

End Handlers.

(** The leads of a page; none when the request was refused. *)
Definition rows (r : reply) : list (gmap string fieldval) :=
  match r with
  | Many data _ => data
  | _ => []
  end.

End Reads.

(** ** The strings a pattern denotes *)

Module Language.

Import Regex.

(** [accepts r s]: the whole of [s] is a match of [r]. *)
Inductive accepts : re -> string -> Prop :=
| accepts_eps : accepts Eps EmptyString
| accepts_cls p a : p a = true -> accepts (Cls p) (String a EmptyString)
| accepts_seq r1 r2 s1 s2 :
    accepts r1 s1 -> accepts r2 s2 -> accepts (Seq r1 r2) (s1 +:+ s2)
| accepts_alt_l r1 r2 s : accepts r1 s -> accepts (Alt r1 r2) s
| accepts_alt_r r1 r2 s : accepts r2 s -> accepts (Alt r1 r2) s
| accepts_star_nil r : accepts (Star r) EmptyString
| accepts_star_more r s1 s2 :
    accepts r s1 -> accepts (Star r) s2 -> accepts (Star r) (s1 +:+ s2).

(** Every character of [s] satisfies [p]. *)
Fixpoint all_chars (p : ascii -> bool) (s : string) : bool :=
  match s with
  | EmptyString => true
  | String a s' => p a && all_chars p s'
  end.

(** Every character class of [r] is within [p]. *)
Fixpoint classes_within (p : ascii -> bool) (r : re) : Prop :=
  match r with
  | Void | Eps => True
  | Cls c => forall a, c a = true -> p a = true
  | Seq r1 r2 | Alt r1 r2 => classes_within p r1 /\ classes_within p r2
  | Star r' => classes_within p r'
  end.

End Language.

(** ** The dashboard page: [pages/Dashboard.tsx]

    The pagination state of the page is the [pagination] member of the
    last list response; its controls change the page or the limit and
    the list is asked again with [{ page, limit, ...filters }]. *)

Module Dashboard.

Import JsString JsNumber Filter Pagination JsInteger.

#[local] Open Scope Z_scope.

(** [useState({ page: 1, limit: 25, total: 0, ... })] *)
Definition initial : pagination := Pagination 1 25 0 0 false false.

(** [setPagination(prev => ({ ...prev, page: newPage }))] *)
Definition handlePageChange (newPage : Z) (prev : pagination) : pagination :=
  Pagination newPage (limit prev) (total prev) (totalPages prev) (hasNext prev) (hasPrev prev).

(** [setPagination(prev => ({ ...prev, limit: newLimit, page: 1 }))] *)
Definition handleLimitChange (newLimit : Z) (prev : pagination) : pagination :=
  Pagination 1 newLimit (total prev) (totalPages prev) (hasNext prev) (hasPrev prev).

(** The number on the button of index [i]. *)
Definition pageNum (page totalPages i : Z) : Z :=
  if totalPages <=? 5 then i + 1
  else if page <=? 3 then i + 1
  else if totalPages - 2 <=? page then totalPages - 4 + i
  else page - 2 + i.

(** [Array.from({ length: Math.min(5, totalPages) }, (_, i) => ...)]:
    the numbers on the page buttons, in order. *)
Definition page_buttons (p : pagination) : list Z :=
  pageNum (page p) (totalPages p) <$> seqZ 0 (Z.min 5 (totalPages p)).

(** "Showing [from] to [to] of [total] entries". *)
Definition showing_from (p : pagination) : Z := (page p - 1) * limit p + 1.
Definition showing_to (p : pagination) : Z := Z.min (page p * limit p) (total p).

(** The controls under the grid: Previous, Next, a page button by its
    index, and a choice in the "Show ... entries" list. *)
Inductive control :=
| Previous
| Next
| PageButton (i : nat)
| ShowEntries (n : Z).

(** Whether the control is there and not disabled. *)
Definition enabled (p : pagination) (c : control) : bool :=
  match c with
  | Previous => hasPrev p
  | Next => hasNext p
  | PageButton i => bool_decide (i < List.length (page_buttons p))%nat
  | ShowEntries n => bool_decide (n ∈ [10; 25; 50; 100])
  end.

(** The state after a click. *)
Definition click (c : control) (p : pagination) : pagination :=
  match c with
  | Previous => handlePageChange (page p - 1) p
  | Next => handlePageChange (page p + 1) p
  | PageButton i => handlePageChange (pageNum (page p) (totalPages p) (Z.of_nat i)) p
  | ShowEntries n => handleLimitChange n p
  end.

(** [page] and [limit] of the request [loadLeads] sends, as the query
    string carries them. *)
Definition params (p : pagination) : gmap string string :=
  <["page" := toString (page p)]> {[ "limit" := toString (limit p) ]}.

(** *** The filter panel *)

(** An object with string keys, by its own properties in the order of
    their creation. *)
Section Objects.

Context {A : Type}.

(** [{ ...o, [key]: value }] *)
Fixpoint assign (key : string) (value : A) (o : list (string * A)) : list (string * A) :=
  match o with
  | [] => [(key, value)]
  | (k, v) :: rest =>
      if String.eqb k key then (key, value) :: rest else (k, v) :: assign key value rest
  end.

(** [delete o[key]] on a copy of [o]. *)
Fixpoint remove (key : string) (o : list (string * A)) : list (string * A) :=
  match o with
  | [] => []
  | (k, v) :: rest =>
      if String.eqb k key then remove key rest else (k, v) :: remove key rest
  end.

(** [o[key]] *)
Fixpoint read (key : string) (o : list (string * A)) : option A :=
  match o with
  | [] => None
  | (k, v) :: rest => if String.eqb k key then Some v else read key rest
  end.

End Objects.

(** What a filter of the panel holds. *)
Inductive pval :=
| PStr (s : string)
| PBool (b : bool)
| PUndefined.

(** [handleFilterChange(key, value)] on [localFilters]. *)
Definition handleFilterChange (key : string) (value : pval) (localFilters : list (string * pval))
  : list (string * pval) :=
  match value with
  | PStr EmptyString => remove key localFilters
  | _ => assign key value localFilters
  end.

(** The [onChange] of the four inputs of the panel, on the value of
    the input. *)
Inductive change :=
| Status (value : string)
| Source (value : string)
| Qualified (value : string)
| CompanyContains (value : string).

Definition onChange (c : change) (localFilters : list (string * pval)) : list (string * pval) :=
  match c with
  | Status v => handleFilterChange "status" (PStr v) localFilters
  | Source v => handleFilterChange "source" (PStr v) localFilters
  | Qualified v =>
      handleFilterChange "is_qualified"
        (if bool_decide (v = EmptyString) then PUndefined
         else PBool (bool_decide (v = "true")))
        localFilters
  | CompanyContains v => handleFilterChange "company_contains" (PStr v) localFilters
  end.

(** The filters after a sequence of changes in the panel, from no
    filter. *)
Definition panel (changes : list change) : list (string * pval) :=
  fold_left (fun o c => onChange c o) changes [].

(** The filters as the request carries them and the server reads them
    back: a string as it is, a boolean by its name, and no parameter
    for [undefined]. *)
Definition sent (filters : list (string * pval)) : list (string * qval) :=
  omap (fun '(k, v) =>
          match v with
          | PStr s => Some (k, QStr s)
          | PBool b => Some (k, QStr (if b then "true" else "false"))
          | PUndefined => None
          end) filters.

(** The clause the compiler builds for [<field>_contains]. *)
Definition contains_clause (v : qval) : clause :=
  Clause BObject (<["$options" := OVal (QStr "i")]> {[ "$regex" := OVal v ]}).

End Dashboard.

(** ** The form that creates a lead: [validateForm] and [handleSubmit] *)

Module CreateLead.

Import JsString JsNumber Regex Validation.

Record LeadFormData := FormData {
  first_name : string;
  last_name : string;
  email : string;
  phone : string;
  company : string;
  city : string;
  state : string;
  source : string;
  status : string;
  score : jsnum;
  lead_value : jsnum;
  is_qualified : bool;
  last_activity_at : string
}.

(** [!s] *)
Definition is_empty (s : string) : bool := bool_decide (s = EmptyString).

(** [\S] *)
Definition non_space : re := Cls (fun a => negb (is_space a)).

(** [r.test(s)] for a pattern without anchors: a match anywhere. *)
Definition search (r : re) (s : string) : bool :=
  let any := Star (Cls (fun _ => true)) in
  Regex.test (Seq any (Seq r any)) s.

(** [/\S+@\S+\.\S+/] *)
Definition email_shape : re :=
  Seq (plus non_space) (Seq (chr "@") (Seq (plus non_space) (Seq (chr ".") (plus non_space)))).

(** The blocks of [validateForm], each on the errors found so far. *)

Definition check_first_name (formData : LeadFormData) (newErrors : gmap string string)
  : gmap string string :=
  if is_empty (trim (first_name formData)) then
    <["first_name" := "First name is required"]> newErrors
  else if (50 <? String.length (first_name formData))%nat then
    <["first_name" := "First name cannot exceed 50 characters"]> newErrors
  else newErrors.

Definition check_last_name (formData : LeadFormData) (newErrors : gmap string string)
  : gmap string string :=
  if is_empty (trim (last_name formData)) then
    <["last_name" := "Last name is required"]> newErrors
  else if (50 <? String.length (last_name formData))%nat then
    <["last_name" := "Last name cannot exceed 50 characters"]> newErrors
  else newErrors.

Definition check_email (formData : LeadFormData) (newErrors : gmap string string)
  : gmap string string :=
  if is_empty (email formData) then <["email" := "Email is required"]> newErrors
  else if negb (search email_shape (email formData)) then
    <["email" := "Please enter a valid email"]> newErrors
  else newErrors.

Definition check_phone (formData : LeadFormData) (newErrors : gmap string string)
  : gmap string string :=
  if is_empty (phone formData) then <["phone" := "Phone number is required"]> newErrors
  else if negb (Regex.test phone_pattern (phone formData)) then
    <["phone" := "Please enter a valid phone number"]> newErrors
  else newErrors.

Definition check_company (formData : LeadFormData) (newErrors : gmap string string)
  : gmap string string :=
  if is_empty (trim (company formData)) then
    <["company" := "Company name is required"]> newErrors
  else if (100 <? String.length (company formData))%nat then
    <["company" := "Company name cannot exceed 100 characters"]> newErrors
  else newErrors.

Definition check_city (formData : LeadFormData) (newErrors : gmap string string)
  : gmap string string :=
  if is_empty (trim (city formData)) then <["city" := "City is required"]> newErrors
  else if (50 <? String.length (city formData))%nat then
    <["city" := "City cannot exceed 50 characters"]> newErrors
  else newErrors.

Definition check_state (formData : LeadFormData) (newErrors : gmap string string)
  : gmap string string :=
  if is_empty (trim (state formData)) then <["state" := "State is required"]> newErrors
  else if (50 <? String.length (state formData))%nat then
    <["state" := "State cannot exceed 50 characters"]> newErrors
  else newErrors.

Definition check_score (formData : LeadFormData) (newErrors : gmap string string)
  : gmap string string :=
  if lt (score formData) (Finite 0) || lt (Finite (100 # 1)) (score formData) then
    <["score" := "Score must be between 0 and 100"]> newErrors
  else newErrors.

Definition check_lead_value (formData : LeadFormData) (newErrors : gmap string string)
  : gmap string string :=
  if lt (lead_value formData) (Finite 0) then
    <["lead_value" := "Lead value cannot be negative"]> newErrors
  else newErrors.

(** [newErrors] at the end of [validateForm]. *)
Definition form_errors (formData : LeadFormData) : gmap string string :=
  check_lead_value formData
    (check_score formData
       (check_state formData
          (check_city formData
             (check_company formData
                (check_phone formData
                   (check_email formData
                      (check_last_name formData
                         (check_first_name formData ∅)))))))).

(** [validateForm()]: [Object.keys(newErrors).length === 0]. *)
Definition validateForm (formData : LeadFormData) : bool :=
  bool_decide (form_errors formData = ∅).

(** A member of the JSON payload. *)
Inductive jval :=
| JStr (s : string)
| JNum (n : jsnum)
| JBool (b : bool).

(** [submitData], as it is serialized: [last_activity_at] is
    [undefined], hence left out, when the input is empty. *)
Definition submitData (formData : LeadFormData) : gmap string jval :=
  let members : gmap string jval :=
    list_to_map
      [ ("first_name", JStr (first_name formData)); ("last_name", JStr (last_name formData));
        ("email", JStr (email formData)); ("phone", JStr (phone formData));
        ("company", JStr (company formData)); ("city", JStr (city formData));
        ("state", JStr (state formData)); ("source", JStr (source formData));
        ("status", JStr (status formData)); ("score", JNum (score formData));
        ("lead_value", JNum (lead_value formData));
        ("is_qualified", JBool (is_qualified formData)) ] in
  if is_empty (last_activity_at formData) then members
  else <["last_activity_at" := JStr (last_activity_at formData)]> members.

(** The payload as the validation chains of the server read it, each
    member as a string; [show] is the language's printing of a finite
    number, and a number that is not finite is serialized as [null],
    which reads as the empty string. *)
Definition as_text (show : Q -> string) (v : jval) : string :=
  match v with
  | JStr s => s
  | JNum (Finite q) => show q
  | JNum _ => EmptyString
  | JBool b => if b then "true" else "false"
  end.

Definition received (show : Q -> string) (payload : gmap string jval) : gmap string string :=
  as_text show <$> payload.

End CreateLead.

(** ** The client of the API: the response interceptor of
    [services/api.ts] and the error toasts of the pages *)

Module Api.

Import Leads.

(** How a request ends for the interceptor: with a response, of which
    the status and the [message] member of the body are kept ([None]
    when the body is not an object with such a member), or with no
    response at all. *)
Inductive ending :=
| Answer (status : nat) (message : option string)
| NoAnswer.

(** The ending a response of the leads routes makes. *)
Definition of_response (r : response) : ending :=
  match r with
  | Json status _ message _ _ => Answer status (Some message)
  | NoContent status => Answer status None
  end.

(** What the promise of a call settles to: the data of the response,
    or [new Error(message)]. *)
Inductive settled :=
| Resolved
| Rejected (message : string).

(** [error.response?.data?.message || 'An error occurred'] *)
Definition message_of (o : ending) : string :=
  match o with
  | Answer _ (Some message) =>
      if bool_decide (message = EmptyString) then "An error occurred" else message
  | _ => "An error occurred"
  end.

(** The interceptor; the library takes a status from 200 to 299 as a
    success and any other ending as an error. *)
Definition intercept (o : ending) : settled :=
  match o with
  | Answer status _ =>
      if (200 <=? status)%nat && (status <? 300)%nat then Resolved
      else Rejected (message_of o)
  | NoAnswer => Rejected (message_of o)
  end.

(** [toast.error(error.message || fallback)] in the [catch] of a page;
    [None] when nothing was thrown. *)
Definition toast_error (fallback : string) (s : settled) : option string :=
  match s with
  | Resolved => None
  | Rejected message =>
      Some (if bool_decide (message = EmptyString) then fallback else message)
  end.

(** The messages of the writing routes. *)
Definition failure_messages : list string :=
  [ "Validation failed"; "A lead with this email already exists";
    "Another lead with this email already exists"; "Unable to create lead";
    "Invalid lead ID format"; "Unable to update lead"; "Lead not found" ].

End Api.

(** ** Notions the further statements use *)

Module Ownership.

Import Filter Store Leads.

(** Whether a lead belongs to the user [uid]. *)
Definition owned_by (uid : ID) (doc : gmap string fieldval) : bool :=
  field_is doc "user_id" (FId uid).

(** The authenticated user of a request. *)
Definition requester (r : request) : ID :=
  match r with
  | Create _ _ uid _ => uid
  | Update _ uid _ _ => uid
  | Delete uid _ => uid
  end.

(** Whether an answer carries a lead. *)
Definition carries_data (r : response) : bool :=
  match r with
  | Json _ _ _ _ (Some _) => true
  | _ => false
  end.

(** Whether a key makes the compiler store the value itself under a
    field: a bare key, or a key with the operator [equals]. *)
Definition stores_value (key : string) : bool :=
  if JsString.includes key "_" then
    match operator_in key with
    | Some Equals => true
    | _ => false
    end
  else bool_decide (key ∈ bare_keys).

(** No property of the query holds a non-empty string. *)
Definition no_string (q : gmap string clause) : Prop :=
  ∀ k b m s, q !! k = Some (Clause b m) → b = BValue (QStr s) → s = EmptyString.

(** A field on which a member can be stored. *)
Definition writable (q : gmap string clause) (f : string) : Prop :=
  get q f = Inherited
  ∨ ∃ b m, q !! f = Some (Clause b m) ∧ ∀ s, b ≠ BValue (QStr s).

(** The answers of the update route to a duplicate address. *)
Definition duplicate_answers : list response :=
  [ refuse 400 "Another lead with this email already exists";
    refuse 400 "A lead with this email already exists" ].

End Ownership.

(** ** The rules of the routes against the rules of the schema

    What [leadValidation] lets through is cast and validated once more
    by the schema when the document is built or updated.  Three of its
    checks come from the validator library ([isEmail] with
    [normalizeEmail], [isFloat] and [isISO8601]), and the cast of a
    date from the mapper. *)

Module Agreement.

Import Validation Store Leads.

(** The path of the schema with the given name. *)
Definition path_named (name : string) : option schema_path :=
  List.find (fun sp => String.eqb name (sp_name sp)) leadSchema.

(** The string [s], found under [name], is cast by the mapper and
    passes the validators of the path. *)
Definition schema_accepts (M : mapper) (name : string) (s : string) : Prop :=
  ∃ sp v, path_named name = Some sp ∧ cast M sp (FStr s) = Some v ∧ valid sp v = true.

(** The fields whose chain is a check of the validator library. *)
Definition library_checked : list string := ["email"; "lead_value"; "last_activity_at"].

(** The body has, under [name], a string the schema does not accept. *)
Definition rejected (M : mapper) (body : gmap string string) (name : string) : Prop :=
  ∃ s, body !! name = Some s ∧ ¬ schema_accepts M name s.

(** Every member of the body is named after a path the schema
    declares: the bodies on which the handlers are modelled, with no
    [_id], [created_at] or [updated_at] of their own. *)
Definition on_schema_paths (body : gmap string string) : Prop :=
  map_Forall (fun k _ => k ∈ List.map sp_name leadSchema) body.

(** The status of an answer. *)
Definition status_of (r : response) : nat :=
  match r with
  | Json status _ _ _ _ => status
  | NoContent status => status
  end.

End Agreement.

(** ** Sample store and requests for the reading routes *)

Module MoreSamples.

Import Filter Store Validation Leads Reads Samples.

#[local] Open Scope Z_scope.

Definition created (doc : gmap string fieldval) : Z :=
  match doc !! "created_at" with
  | Some (FDate t) => t
  | _ => 0
  end.

(** A stand-in for the store on the sample collection: it evaluates
    the owner clause of a predicate, sorts by creation time, newest
    first, and leaves [user_id] as it is. *)
Definition owner_only (q : gmap string clause) : option (gmap string fieldval -> bool) :=
  match q !! "user_id" with
  | Some (Clause (BOwner uid) _) => Some (fun doc => field_is doc "user_id" (FId uid))
  | _ => None
  end.

Fixpoint put_in_place (doc : gmap string fieldval) (l : list (gmap string fieldval))
  : list (gmap string fieldval) :=
  match l with
  | [] => [doc]
  | x :: rest =>
      if created x <? created doc then doc :: l else x :: put_in_place doc rest
  end.

Definition newest_first (l : list (gmap string fieldval)) : list (gmap string fieldval) :=
  foldr put_in_place [] l.

Definition engine0 : engine := Engine (fun doc => doc) owner_only newest_first.

(** Page [n] of alice's leads, two by page. *)
Definition page_of_two (n : string) : gmap string string :=
  <["page" := n]> {[ "limit" := "2" ]}.

Definition id3 : string := "000000000000000000000003".
Definition id4 : string := "000000000000000000000004".

(** The sample form with a date of last activity that the sample
    mapper does not read. *)
Definition form_with_week_date : gmap string string :=
  <["last_activity_at" := "2024-W05-2"]> (form "dee@corp.com").

(** The sample form with the owner named in the body. *)
Definition form_for (email owner : string) : gmap string string :=
  <["user_id" := owner]> (form email).

Definition id_of_alice : string := "000000000000000000000007".
Definition id_of_bob : string := "000000000000000000000008".

(** The lead of bob in the sample collection, and its identifier. *)
Definition bobs_lead : gmap string fieldval := default ∅ (three_leads !! 1%nat).
Definition id2 : string := "000000000000000000000002".

(** A form filled in as the sample request is. *)
Definition filled_form : CreateLead.LeadFormData :=
  CreateLead.FormData "Ann" "Lee" "ann@corp.com" "+15551234567" "Corp" "Pune" "MH"
                      "website" "new" (JsNumber.Finite 0) (JsNumber.Finite 0) false "".

(** A stand-in for the validator library that accepts no address. *)
(** A stand-in that takes every string with an [@] for an address. *)
Definition lenient : validator_js :=
  ValidatorJs (fun s => JsString.includes s "@") (fun s => s) (fun _ => true) (fun _ => true).

Definition no_address : validator_js :=
  ValidatorJs (fun _ => false) (fun s => s) (fun _ => true) (fun _ => true).

(** A stand-in for the printing of numbers, for the sample form whose
    numbers are 0. *)
Definition show_zero (q : Q) : string := "0".

End MoreSamples.

(** * Properties *)

Import JsString JsNumber Filter Store Validation Pagination Leads Statements.

(** Sample conversions, as [Number] gives them. *)
Example StringToNumber_samples :
  StringToNumber "50" = Finite (50 # 1)%Q /\
  StringToNumber " 1.5e1 " = Finite (15 # 1)%Q /\
  StringToNumber "-.5" = Finite (-1 # 2)%Q /\
  StringToNumber "0x1F" = Finite (31 # 1)%Q /\
  StringToNumber "" = Finite 0%Q /\
  StringToNumber "-Infinity" = Infinity true /\
  StringToNumber "abc" = NaN /\
  StringToNumber "5e" = NaN /\
  StringToNumber "1,2" = NaN /\
  StringToNumber "-0x10" = NaN.
Proof. repeat split; reflexivity. Qed.

(** ** Splitting a key *)

Section Split.

Variable sep : ascii.

Lemma split_not_nil s : split sep s ≠ [].
Proof.
  destruct s as [|a s]; simpl; [done|].
  destruct (Ascii.eqb a sep); [done|].
  by destruct (split sep s).
Qed.

(** No segment contains the separator. *)
Lemma split_segments s : Forall (λ seg, includes seg sep = false) (split sep s).
Proof.
  induction s as [|a s IH]; simpl.
  - by constructor.
  - destruct (Ascii.eqb a sep) eqn:Ea.
    + by constructor.
    + destruct (split sep s) as [|seg rest]; inversion IH; subst;
        constructor; simpl; try rewrite Ea; done.
Qed.

(** Without a separator the string is its only segment. *)
Lemma split_whole s : includes s sep = false → split sep s = [s].
Proof.
  induction s as [|a s IH]; simpl; [done|].
  destruct (Ascii.eqb a sep); [done|].
  intros H. by rewrite (IH H).
Qed.

Lemma split_app s t :
  includes s sep = false →
  split sep (s +:+ String sep t) = s :: split sep t.
Proof.
  induction s as [|a s IH]; simpl.
  - intros _. by rewrite Ascii.eqb_refl.
  - destruct (Ascii.eqb a sep); [done|].
    intros H. by rewrite (IH H).
Qed.

Lemma includes_app_sep s t : includes (s +:+ String sep t) sep = true.
Proof.
  induction s as [|a s IH]; simpl.
  - by rewrite Ascii.eqb_refl.
  - by destruct (Ascii.eqb a sep).
Qed.

End Split.

Lemma field_of_no_underscore key : includes (field_of key) "_" = false.
Proof.
  unfold field_of.
  pose proof (split_segments "_" key) as HF.
  destruct (split "_" key) as [|seg rest]; simpl; [done|].
  by inversion HF.
Qed.

Lemma field_of_not_owner key : field_of key ≠ "user_id".
Proof.
  intros E. pose proof (field_of_no_underscore key) as H.
  rewrite E in H. discriminate H.
Qed.

(** A key [field_op...] whose field has no underscore splits as written. *)
Lemma field_of_app field rest :
  includes field "_" = false → field_of (field +:+ String "_" rest) = field.
Proof. intros H. unfold field_of. by rewrite split_app. Qed.

Lemma operator_in_app field op :
  includes field "_" = false → includes op "_" = false →
  operator_in (field +:+ String "_" op) = operator_of op.
Proof.
  intros Hf Ho. unfold operator_in. rewrite split_app by done.
  by rewrite (split_whole _ _ Ho).
Qed.

Lemma split_app_sep sep s t :
  split sep (s +:+ String sep t) = (split sep s ++ split sep t)%list.
Proof.
  induction s as [|a s IH]; simpl.
  - by rewrite Ascii.eqb_refl.
  - destruct (Ascii.eqb a sep); rewrite IH; [done|].
    pose proof (split_not_nil sep s). by destruct (split sep s).
Qed.

(** A string with a separator has at least two segments. *)
Lemma split_two sep s :
  includes s sep = true → ∃ s1 s2 rest, split sep s = s1 :: s2 :: rest.
Proof.
  induction s as [|a s IH]; simpl; [done|].
  destruct (Ascii.eqb a sep).
  - intros _. pose proof (split_not_nil sep s).
    destruct (split sep s) as [|s2 rest]; [done|]. by eexists _, _, _.
  - intros H. destruct (IH H) as (s1 & s2 & rest & ->). by eexists _, _, _.
Qed.

(** What follows the second underscore of a key plays no part. *)
Lemma key_suffix_ignored f rest :
  includes f "_" = true →
  field_of (f +:+ String "_" rest) = field_of f ∧
  operator_in (f +:+ String "_" rest) = operator_in f.
Proof.
  intros Hf. unfold field_of, operator_in. rewrite split_app_sep.
  by destruct (split_two _ _ Hf) as (s1 & s2 & tl & ->).
Qed.

(** ** What one turn of the loop may touch *)

Lemma ensure_lookup_ne q field k : k ≠ field → ensure q field !! k = q !! k.
Proof.
  intros Hk. unfold ensure.
  destruct (get q field) as [c| |]; [destruct (truthy c)| |];
    by rewrite ?lookup_insert_ne.
Qed.

Lemma set_member_lookup_ne q field name o q' k :
  set_member q field name o = Ok q' → k ≠ field → q' !! k = q !! k.
Proof.
  unfold set_member. intros H Hk.
  destruct (get q field) as [[b m]| |]; [destruct b as [| |[]]| |];
    try discriminate; injection H as <-; by rewrite ?lookup_insert_ne.
Qed.

Lemma apply_operator_lookup_ne q field op v q' k :
  apply_operator q field op v = Ok q' → k ≠ field → q' !! k = q !! k.
Proof.
  intros H Hk. destruct op as [[]|]; simpl in H;
    try (by eapply set_member_lookup_ne);
    try (injection H as <-; by rewrite ?lookup_insert_ne).
  destruct v as [|[|v0 [|v1 [|]]]|]; try (by injection H as <-).
  destruct (set_member q field "$gte" _) as [q1|] eqn:H1; simpl in H; [|done].
  rewrite (set_member_lookup_ne _ _ _ _ _ _ H Hk).
  by eapply set_member_lookup_ne.
Qed.

(** A turn leaves every property alone but the one its key names: the
    first segment for a key with an underscore, the key itself
    otherwise. *)
Lemma step_lookup_ne q key v q' k :
  step q key v = Ok q' →
  k ≠ (if includes key "_" then field_of key else key) →
  q' !! k = q !! k.
Proof.
  unfold step. destruct (includes key "_").
  - intros H Hk. rewrite (apply_operator_lookup_ne _ _ _ _ _ _ H Hk).
    by apply ensure_lookup_ne.
  - case_bool_decide; intros [= <-] ?; by rewrite ?lookup_insert_ne.
Qed.

(** No turn touches a property whose name contains an underscore. *)
Lemma step_underscore_frame q key v q' k :
  step q key v = Ok q' → includes k "_" = true → q' !! k = q !! k.
Proof.
  intros H Hk. eapply step_lookup_ne; [done|].
  destruct (includes key "_") eqn:Hkey; intros ->.
  - by rewrite field_of_no_underscore in Hk.
  - congruence.
Qed.

Lemma forEach_underscore_frame filters q q' k :
  forEach filters q = Ok q' → includes k "_" = true → q' !! k = q !! k.
Proof.
  revert q. induction filters as [|[key v] rest IH]; simpl; intros q H Hk.
  - by injection H as <-.
  - destruct (step q key v) as [q1|] eqn:H1; simpl in H; [|done].
    rewrite (IH _ H Hk). by eapply step_underscore_frame.
Qed.

(** The owner clause is in every compiled predicate, as it was put. *)
Lemma buildFilterQuery_owner filters uid q :
  buildFilterQuery filters uid = Ok q →
  q !! "user_id" = Some (Clause (BOwner uid) ∅).
Proof.
  intros H. by rewrite (forEach_underscore_frame _ _ _ "user_id" H).
Qed.

Lemma owner_query_Some uid k c :
  owner_query uid !! k = Some c ↔ k = "user_id" ∧ c = Clause (BOwner uid) ∅.
Proof. unfold owner_query. rewrite lookup_singleton_Some. naive_solver. Qed.

Lemma owner_query_ne uid k : k ≠ "user_id" → owner_query uid !! k = None.
Proof. intros Hk. unfold owner_query. by rewrite lookup_singleton_ne. Qed.

(** ** The store's evaluation, clause by clause *)

Lemma and_opt_true a b : and_opt a b = Some true ↔ a = Some true ∧ b = Some true.
Proof. destruct a as [[]|], b as [[]|]; simpl; naive_solver. Qed.

Lemma all_true_foldr {A B} (f : A → B → option bool) (l : list (A * B)) :
  foldr (λ '(k, x) acc, and_opt (f k x) acc) (Some true) l = Some true
  ↔ Forall (λ kx, f kx.1 kx.2 = Some true) l.
Proof.
  induction l as [|[k x] l IH]; simpl.
  - split; [by constructor|done].
  - rewrite and_opt_true, IH, Forall_cons. done.
Qed.

(** A predicate holds of a document exactly when each of its clauses
    does. *)
Lemma matches_true H q doc :
  matches H q doc = Some true
  ↔ ∀ field c, q !! field = Some c → eval_clause H (doc !! field) c = Some true.
Proof.
  unfold matches.
  rewrite (all_true_foldr (λ field c, eval_clause H (doc !! field) c)).
  rewrite Forall_forall. split.
  - intros HF field c Hq. by apply (HF (field, c)), elem_of_map_to_list.
  - intros Hq [field c] Hin. by apply Hq, elem_of_map_to_list.
Qed.

Lemma members_true H m fv :
  foldr (λ '(name, o) acc, and_opt (eval_member H m fv name o) acc)
        (Some true) (map_to_list m) = Some true
  ↔ ∀ name o, m !! name = Some o → eval_member H m fv name o = Some true.
Proof.
  rewrite (all_true_foldr (eval_member H m fv)), Forall_forall. split.
  - intros HF name o Hm. by apply (HF (name, o)), elem_of_map_to_list.
  - intros Hm [name o] Hin. by apply Hm, elem_of_map_to_list.
Qed.

Lemma eval_owner_clause H fv uid :
  eval_clause H fv (Clause (BOwner uid) ∅) = Some true ↔ fv = Some (FId uid).
Proof.
  unfold eval_clause. destruct fv as [fv|]; [|done]. simpl.
  destruct (decide _) as [_|Hne]; [|done].
  destruct fv; try done. case_bool_decide; naive_solver.
Qed.

(** The clause [{ $gt: n }] on a number. *)
Lemma eval_gt_clause H fv n :
  eval_clause H fv (Clause BObject {[ "$gt" := ONum n ]}) = Some true
  ↔ ∃ x, fv = Some (FNum x) ∧ lt n x = true.
Proof.
  unfold eval_clause. destruct fv as [fv|]; [|naive_solver]. simpl.
  destruct (decide _) as [E|_].
  { by apply map_non_empty_singleton in E. }
  rewrite members_true. split.
  - intros Hm. specialize (Hm "$gt" (ONum n) (lookup_singleton_eq _ _)).
    unfold eval_member in Hm. simpl in Hm.
    destruct fv; simpl in Hm; try discriminate. injection Hm as Hm. eauto.
  - intros (x & [= ->] & Hlt) name o Hm.
    apply lookup_singleton_Some in Hm as [<- <-].
    unfold eval_member. simpl. by rewrite Hlt.
Qed.

(** The clause [{ $regex: p, $options: 'i' }] for a pattern without
    metacharacters. *)
Lemma eval_contains_clause H fv p :
  plain_pattern p = true →
  eval_clause H fv
    (Clause BObject (<["$options" := OVal (QStr "i")]> {[ "$regex" := OVal (QStr p) ]}))
    = Some true
  ↔ ∃ s, fv = Some (FStr s) ∧ contains (toLowerCase p) (toLowerCase s) = true.
Proof.
  intros Hp. unfold eval_clause. destruct fv as [fv|]; [|naive_solver]. simpl.
  destruct (decide _) as [E|_].
  { by apply insert_non_empty in E. }
  rewrite members_true. split.
  - intros Hm. specialize (Hm "$regex" (OVal (QStr p)) eq_refl).
    unfold eval_member in Hm. simpl in Hm.
    destruct fv; try discriminate. rewrite Hp in Hm. injection Hm as Hm. eauto.
  - intros (s & [= ->] & Hc) name o Hm.
    apply lookup_insert_Some in Hm as [[<- <-]|[_ Hm]].
    + reflexivity.
    + apply lookup_singleton_Some in Hm as [<- <-].
      unfold eval_member. simpl. by rewrite Hp, Hc.
Qed.

(** A single key [<field>_<op>] on a field without underscore. *)
Lemma compile_single field name v uid :
  includes field "_" = false → includes name "_" = false →
  buildFilterQuery [(field +:+ String "_" name, v)] uid
  = apply_operator (ensure (owner_query uid) field) field
                   (operator_of name) v.
Proof.
  intros Hf Hn. unfold buildFilterQuery. simpl. unfold step.
  rewrite includes_app_sep, field_of_app, operator_in_app by done.
  by destruct (apply_operator _ _ _ _).
Qed.

Lemma ensure_fresh_field uid field :
  includes field "_" = false → field ∉ Object_prototype →
  ensure (owner_query uid) field
  = <[field := empty_clause]> (owner_query uid).
Proof.
  intros Hi Hp. unfold ensure, get.
  rewrite owner_query_ne by (intros ->; discriminate Hi).
  by rewrite bool_decide_eq_false_2.
Qed.

Lemma set_member_fresh (q : gmap string clause) field name o :
  set_member (<[field := empty_clause]> q) field name o
  = Ok (<[field := Clause BObject {[ name := o ]}]> q).
Proof.
  unfold set_member, get. rewrite lookup_insert_eq. simpl.
  by rewrite insert_insert_eq, insert_empty.
Qed.

(** [<field>_gt=v] alone: the bound is [Number(v)]. *)
Lemma compile_gt field v uid :
  includes field "_" = false → field ∉ Object_prototype →
  buildFilterQuery [(field +:+ "_gt", v)] uid
  = Ok (<[field := Clause BObject {[ "$gt" := ONum (Number v) ]}]> (owner_query uid)).
Proof.
  intros Hi Hp. rewrite compile_single by done. simpl.
  rewrite ensure_fresh_field by done. apply set_member_fresh.
Qed.

Lemma score_is_no_builtin : "score" ∉ Object_prototype.
Proof. apply (bool_decide_eq_false_1 ("score" ∈ Object_prototype)). reflexivity. Qed.

(** ** Owner scoping (C2) *)

(** C2. Whatever the filter parameters and the owner, a predicate the
    compiler produces carries the equality clause on that owner's
    identifier, untouched by any key of the caller, so that it only
    matches documents of that owner; and [score_gt=50] compiles to the
    predicate that holds exactly of the owner's documents whose score is
    a number above 50. *)
Theorem owner_clause_always_kept filters uid q :
  buildFilterQuery filters uid = Ok q →
  q !! "user_id" = Some (Clause (BOwner uid) ∅)
  ∧ (∀ H doc, matches H q doc = Some true → doc !! "user_id" = Some (FId uid))
  ∧ (filters = [("score_gt", QStr "50")] →
     q = <["score" := Clause BObject {[ "$gt" := ONum (Finite (50 # 1)) ]}]>
           (owner_query uid)
     ∧ ∀ H doc,
         matches H q doc = Some true
         ↔ doc !! "user_id" = Some (FId uid)
           ∧ ∃ n, doc !! "score" = Some (FNum n) ∧ lt (Finite (50 # 1)) n = true).
Proof.
  intros Hq. pose proof (buildFilterQuery_owner _ _ _ Hq) as Ho.
  split; [done|]. split.
  - intros H doc Hm. rewrite matches_true in Hm.
    by apply (eval_owner_clause H), Hm.
  - intros ->. assert (q = <["score" := Clause BObject {[ "$gt" := ONum (Finite (50 # 1)) ]}]>
                             (owner_query uid)) as ->.
    { assert (buildFilterQuery [("score_gt", QStr "50")] uid
              = Ok (<["score" := Clause BObject {[ "$gt" := ONum (Finite (50 # 1)) ]}]>
                      (owner_query uid))) as E
        by exact (compile_gt "score" (QStr "50") uid eq_refl score_is_no_builtin).
      rewrite E in Hq. by injection Hq as <-. }
    split; [done|]. intros H doc. rewrite matches_true. split.
    + intros Hm. split.
      * by apply (eval_owner_clause H), Hm.
      * by apply (eval_gt_clause H), Hm.
    + intros [Hu Hs] field c Hf.
      apply lookup_insert_Some in Hf as [[<- <-]|[_ Hf]].
      * by apply eval_gt_clause.
      * apply owner_query_Some in Hf as [-> ->]. by apply eval_owner_clause.
Qed.

(** The witness of C2 on [score_gt=50] for owner 7. *)
Lemma owner_clause_always_kept_witness :
  buildFilterQuery [("score_gt", QStr "50")] 7%N
    = Ok (<["score" := Clause BObject {[ "$gt" := ONum (Finite (50 # 1)) ]}]>
            (owner_query 7%N))
  ∧ (<["score" := Clause BObject {[ "$gt" := ONum (Finite (50 # 1)) ]}]>
       (owner_query 7%N))
      !! "user_id" = Some (Clause (BOwner 7%N) ∅).
Proof.
  split; [reflexivity|].
  exact (proj1 (owner_clause_always_kept [("score_gt", QStr "50")] 7%N _ eq_refl)).
Defined.

(** ** Keys are cut at underscores (C10, C4, C5) *)

(** The schema fields whose names contain an underscore, each with the
    name a filter key on it is cut down to. *)
Lemma truncated_fields :
  List.map (λ f, (f, field_of f, operator_in f))
      ["lead_value"; "is_qualified"; "last_activity_at"; "created_at";
       "first_name"; "last_name"]
  = [("lead_value", "lead", None); ("is_qualified", "is", None);
     ("last_activity_at", "last", None); ("created_at", "created", None);
     ("first_name", "first", None); ("last_name", "last", None)].
Proof. reflexivity. Qed.

(** C10. A key with an underscore is read by its first two segments
    only: what follows the second underscore changes neither the field
    nor the operator.  So a compiled predicate has no clause on any name
    that contains an underscore, the owner clause aside; and for each of
    the six schema fields with an underscore in their name, a key
    [<field>_<operator>] does what the first two segments of the field
    say: it finds no operator and touches the truncated name ([lead],
    [is], [last], [created], [first]) only. *)
Theorem underscore_fields_never_filtered filters uid q :
  buildFilterQuery filters uid = Ok q →
  (∀ k, includes k "_" = true → k ≠ "user_id" → q !! k = None)
  ∧ (∀ f rest, includes f "_" = true →
       field_of (f +:+ String "_" rest) = field_of f
       ∧ operator_in (f +:+ String "_" rest) = operator_in f)
  ∧ (∀ f op value query,
       f ∈ ["lead_value"; "is_qualified"; "last_activity_at"; "created_at";
            "first_name"; "last_name"] →
       step query (f +:+ String "_" op) value = Ok (ensure query (field_of f))
       ∧ field_of f ∈ ["lead"; "is"; "last"; "created"; "first"]).
Proof.
  intros Hq. split; [|split].
  - intros k Hk Hne. rewrite (forEach_underscore_frame _ _ _ k Hq Hk).
    by apply owner_query_ne.
  - apply key_suffix_ignored.
  - intros f op value query Hf.
    assert (includes f "_" = true ∧ operator_in f = None
            ∧ field_of f ∈ ["lead"; "is"; "last"; "created"; "first"])
      as (Hi & Ho & Ht).
    { repeat (apply elem_of_cons in Hf as [->|Hf];
              [split; [reflexivity|split; [reflexivity|set_solver]]|]).
      by apply elem_of_nil in Hf. }
    split; [|done]. unfold step. rewrite includes_app_sep.
    destruct (key_suffix_ignored f op Hi) as [-> ->]. by rewrite Ho.
Qed.

(** The witness of C10: keys on [lead_value] and [created_at] leave
    empty clauses on [lead] and [created], and none on [created_at]. *)
Lemma underscore_fields_never_filtered_witness :
  buildFilterQuery [("lead_value_gt", QStr "100"); ("created_at_on", QStr "2024-01-15")] 7%N
    = Ok (<["created" := empty_clause]>
            (<["lead" := empty_clause]> (owner_query 7%N)))
  ∧ (<["created" := empty_clause]>
       (<["lead" := empty_clause]>
          (owner_query 7%N)))
      !! "created_at" = None.
Proof.
  split; [reflexivity|].
  exact (proj1 (underscore_fields_never_filtered
                  [("lead_value_gt", QStr "100"); ("created_at_on", QStr "2024-01-15")]
                  7%N _ eq_refl) "created_at" eq_refl ltac:(discriminate)).
Defined.

(** The strict-mode failure: once [equals] has stored a string under a
    field, a bound on the same field cannot be stored on it. *)
Example bound_after_equals_throws uid :
  buildFilterQuery [("score_equals", QStr "7"); ("score_gt", QStr "5")] uid = TypeError
  ∧ buildFilterQuery [("status", QStr "new"); ("source_in", QStr "events")] uid
    = Ok (<["source" := Clause BObject {[ "$in" := OVal (QArr [QStr "events"]) ]}]>
            (<["status" := Clause (BValue (QStr "new")) ∅]> (owner_query uid))).
Proof. split; reflexivity. Qed.

(** C4. [created_at_on=2024-01-15] does not reach the [on] case: the key
    is cut to the field [created] and the segment [at], which is no
    operator, and the predicate gets an empty clause on [created] and
    none on [created_at]. *)
Theorem created_at_on_compiles_to_empty_clause uid :
  buildFilterQuery [("created_at_on", QStr "2024-01-15")] uid
    = Ok (<["created" := empty_clause]> (owner_query uid))
  ∧ field_of "created_at_on" = "created"
  ∧ operator_in "created_at_on" = None
  ∧ (<["created" := empty_clause]>
       (owner_query uid))
      !! "created_at" = None.
Proof. repeat split; reflexivity. Qed.

(** What the [on] case builds when it is reached, here on a field
    without underscore: the bounds are [new Date(value)] and the same
    date after [setHours(23, 59, 59, 999)]. *)
Example on_operator_bounds uid :
  buildFilterQuery [("created_on", QStr "2024-01-15")] uid
  = Ok (<["created" :=
            Clause BObject
              (<["$lte" := ODate (SetHours (NewDate (QStr "2024-01-15")) 23 59 59 999)]>
                 {[ "$gte" := ODate (NewDate (QStr "2024-01-15")) ]})]>
          (owner_query uid)).
Proof. reflexivity. Qed.

(** C5. The bare key [is_qualified] contains an underscore, so it never
    reaches the branch of the bare keys: it is cut to the field [is] and
    the segment [qualified], and the predicate has no clause on
    [is_qualified].  [email_contains=corp] does compile to the
    case-insensitive match: the predicate holds exactly of the owner's
    documents whose e-mail contains [corp] whatever the case. *)
Theorem is_qualified_key_is_cut uid :
  buildFilterQuery [("is_qualified", QStr "true")] uid
    = Ok (<["is" := empty_clause]> (owner_query uid))
  ∧ "is_qualified" ∈ bare_keys
  ∧ (<["is" := empty_clause]>
       (owner_query uid))
      !! "is_qualified" = None
  ∧ buildFilterQuery [("email_contains", QStr "corp")] uid
    = Ok (<["email" := Clause BObject
                         (<["$options" := OVal (QStr "i")]> {[ "$regex" := OVal (QStr "corp") ]})]>
            (owner_query uid))
  ∧ ∀ H doc,
      matches H (<["email" := Clause BObject
                         (<["$options" := OVal (QStr "i")]> {[ "$regex" := OVal (QStr "corp") ]})]>
            (owner_query uid)) doc = Some true
      ↔ doc !! "user_id" = Some (FId uid)
        ∧ ∃ s, doc !! "email" = Some (FStr s) ∧ contains "corp" (toLowerCase s) = true.
Proof.
  split; [reflexivity|]. split; [set_solver|]. split; [reflexivity|].
  split; [reflexivity|]. intros H doc. rewrite matches_true. split.
  - intros Hm. split.
    + by apply (eval_owner_clause H), Hm.
    + by apply (eval_contains_clause H _ "corp" eq_refl), Hm.
  - intros [Hu Hs] field c Hf.
    apply lookup_insert_Some in Hf as [[<- <-]|[_ Hf]].
    + by apply (eval_contains_clause H _ "corp" eq_refl).
    + apply owner_query_Some in Hf as [-> ->]. by apply eval_owner_clause.
Qed.

(** ** Keys the compiler does not know (C3) *)

Lemma forEach_app pre post q :
  forEach (pre ++ post) q = bind (forEach pre q) (forEach post).
Proof.
  revert q. induction pre as [|[key v] pre IH]; simpl; intros q; [done|].
  destruct (step q key v); simpl; [apply IH|done].
Qed.

Lemma get_ext q1 q2 f : q1 !! f = q2 !! f → get q1 f = get q2 f.
Proof. unfold get. by intros ->. Qed.

Lemma ensure_lookup_ext q1 q2 f :
  q1 !! f = q2 !! f → ensure q1 f !! f = ensure q2 f !! f.
Proof.
  intros E. unfold ensure. rewrite (get_ext _ _ _ E).
  destruct (get q2 f) as [c| |]; [destruct (truthy c)| |];
    by rewrite ?lookup_insert_eq.
Qed.

Lemma ensure_idemp q f : ensure (ensure q f) f = ensure q f.
Proof.
  assert (∀ q', q' !! f = Some empty_clause → ensure q' f = q') as Hfresh.
  { intros q' Hq'. unfold ensure, get. by rewrite Hq'. }
  assert (ensure q f = q ∧ ensure q f = ensure q f
          ∨ ensure q f = <[f := empty_clause]> q) as [[E _]|E].
  { unfold ensure. destruct (get q f) as [c| |]; [destruct (truthy c)| |]; auto. }
  - by rewrite E.
  - rewrite E. apply Hfresh, lookup_insert_eq.
Qed.

Lemma insert_ensure q f c : <[f := c]> (ensure q f) = <[f := c]> q.
Proof.
  unfold ensure. destruct (get q f) as [c'| |]; [destruct (truthy c')| |];
    by rewrite ?insert_insert_eq.
Qed.

Lemma same_but_ensure f q1 q2 : same_but f q1 q2 → ensure q1 f = ensure q2 f.
Proof.
  intros [Hne Hf]. apply map_eq. intros k. destruct (decide (k = f)) as [->|Hk]; [done|].
  rewrite !ensure_lookup_ne by done. by apply Hne.
Qed.

Lemma set_member_ext q1 q2 f name o :
  q1 !! f = q2 !! f →
  alike (λ a b, a !! f = b !! f) (set_member q1 f name o) (set_member q2 f name o).
Proof.
  intros E. unfold set_member. rewrite (get_ext _ _ _ E).
  destruct (get q2 f) as [[b m]| |]; [destruct b as [| |[]]| |]; simpl;
    by rewrite ?lookup_insert_eq.
Qed.

Lemma apply_operator_ext q1 q2 f op v :
  q1 !! f = q2 !! f →
  alike (λ a b, a !! f = b !! f) (apply_operator q1 f op v) (apply_operator q2 f op v).
Proof.
  intros E. destruct op as [[]|]; simpl; rewrite ?lookup_insert_eq; try done;
    try (by apply set_member_ext).
  destruct v as [|[|v0 [|v1 [|]]]|]; try done.
  pose proof (set_member_ext q1 q2 f "$gte" (ONum (Number v0)) E) as H1.
  destruct (set_member q1 f "$gte" _) as [a|], (set_member q2 f "$gte" _) as [b|];
    simpl in *; try done.
  by apply set_member_ext.
Qed.

(** A turn reads the query at the property it writes, and nowhere
    else. *)
Lemma step_ext q1 q2 key v :
  let t := if includes key "_" then field_of key else key in
  q1 !! t = q2 !! t →
  alike (λ a b, a !! t = b !! t) (step q1 key v) (step q2 key v).
Proof.
  unfold step. destruct (includes key "_"); simpl; intros E.
  - apply apply_operator_ext. by apply ensure_lookup_ext.
  - case_bool_decide; simpl; by rewrite ?lookup_insert_eq.
Qed.

Lemma step_same_but f q1 q2 key v :
  same_but f q1 q2 → alike (same_but f) (step q1 key v) (step q2 key v).
Proof.
  intros HR. pose proof HR as [Hne Hf].
  destruct (decide ((if includes key "_" then field_of key else key) = f)) as [Et|Et].
  - (* the turn writes [f] itself *)
    unfold step in *. destruct (includes key "_").
    + rewrite Et, (same_but_ensure _ _ _ HR).
      destruct (apply_operator _ _ _ _); simpl; [|done]. by split.
    + subst f. case_bool_decide; simpl; [|done]. split.
      * intros k Hk. rewrite !lookup_insert_ne by done. by apply Hne.
      * apply ensure_lookup_ext. by rewrite !lookup_insert_eq.
  - pose proof (step_ext q1 q2 key v (Hne _ Et)) as Hs.
    destruct (step q1 key v) as [a|] eqn:H1, (step q2 key v) as [b|] eqn:H2;
      simpl in *; try done.
    assert (f ≠ if includes key "_" then field_of key else key) as Et' by done.
    split.
    + intros k Hk. destruct (decide (k = if includes key "_" then field_of key else key))
        as [->|Hkt]; [done|].
      rewrite (step_lookup_ne _ _ _ _ _ H1 Hkt), (step_lookup_ne _ _ _ _ _ H2 Hkt).
      by apply Hne.
    + pose proof (step_lookup_ne _ _ _ _ _ H1 Et') as Ea.
      pose proof (step_lookup_ne _ _ _ _ _ H2 Et') as Eb.
      by rewrite (ensure_lookup_ext _ _ _ Ea), (ensure_lookup_ext _ _ _ Eb).
Qed.

Lemma forEach_same_but f filters q1 q2 :
  same_but f q1 q2 → alike (same_but f) (forEach filters q1) (forEach filters q2).
Proof.
  revert q1 q2. induction filters as [|[key v] rest IH]; simpl; intros q1 q2 HR; [done|].
  pose proof (step_same_but f q1 q2 key v HR) as Hs.
  destruct (step q1 key v) as [a|], (step q2 key v) as [b|]; simpl in *; try done.
  by apply IH.
Qed.

Lemma ensure_unfold q f :
  ensure q f = match get q f with
               | Own c => if truthy c then q else <[f := empty_clause]> q
               | Inherited => q
               | Missing => <[f := empty_clause]> q
               end.
Proof. reflexivity. Qed.

(** Making sure of one field and storing under another commute. *)
Lemma ensure_insert_ne q f f' c :
  f' ≠ f → <[f' := c]> (ensure q f) = ensure (<[f' := c]> q) f.
Proof.
  intros Hne. unfold ensure, get. rewrite lookup_insert_ne by done.
  destruct (q !! f) as [c0|]; [destruct (truthy c0); [done|by apply insert_insert_ne]|].
  case_bool_decide; [done|by apply insert_insert_ne].
Qed.

Lemma ensure_comm q f f' : ensure (ensure q f) f' = ensure (ensure q f') f.
Proof.
  destruct (decide (f' = f)) as [->|Hne]; [done|].
  assert (get (ensure q f) f' = get q f') as Hg by (by apply get_ext, ensure_lookup_ne).
  rewrite (ensure_unfold (ensure q f) f'), Hg, (ensure_unfold q f').
  destruct (get q f') as [c| |]; [destruct (truthy c)| |]; by rewrite ?ensure_insert_ne.
Qed.

Lemma set_member_made_sure q f f' name o :
  f' ≠ f →
  alike (λ a b, a = ensure b f) (set_member (ensure q f) f' name o) (set_member q f' name o).
Proof.
  intros Hne. unfold set_member.
  rewrite (get_ext (ensure q f) q f') by (by apply ensure_lookup_ne).
  destruct (get q f') as [[b m]| |]; [destruct b as [| |[]]| |]; simpl;
    by rewrite ?ensure_insert_ne.
Qed.

Lemma apply_operator_made_sure q f f' op v :
  f' ≠ f →
  alike (λ a b, a = ensure b f)
        (apply_operator (ensure q f) f' op v) (apply_operator q f' op v).
Proof.
  intros Hne. destruct op as [[]|]; simpl; try (by apply ensure_insert_ne);
    try (by apply set_member_made_sure); try done.
  destruct v as [|[|v0 [|v1 [|]]]|]; try done.
  pose proof (set_member_made_sure q f f' "$gte" (ONum (Number v0)) Hne) as H1.
  destruct (set_member (ensure q f) f' "$gte" _) as [a|], (set_member q f' "$gte" _) as [b|];
    simpl in *; try done.
  subst a. by apply set_member_made_sure.
Qed.

(** A turn on a query whose field [f] was made sure of ends as the turn
    on the query itself does, up to making sure of [f]. *)
Lemma step_made_sure f q key v :
  alike (λ a b, a = b ∨ a = ensure b f) (step (ensure q f) key v) (step q key v).
Proof.
  unfold step. destruct (includes key "_").
  - destruct (decide (field_of key = f)) as [E|Hne].
    + rewrite E, ensure_idemp. destruct (apply_operator _ _ _ _); simpl; [by left|done].
    + rewrite ensure_comm.
      pose proof (apply_operator_made_sure (ensure q (field_of key)) f (field_of key)
                    (operator_in key) v Hne) as H.
      destruct (apply_operator (ensure (ensure q (field_of key)) f) _ _ _) as [a|],
               (apply_operator (ensure q (field_of key)) _ _ _) as [b|];
        simpl in *; try done.
      by right.
  - case_bool_decide; simpl; [|by right].
    destruct (decide (key = f)) as [->|Hne]; [left; apply insert_ensure|].
    right. by apply ensure_insert_ne.
Qed.

Lemma forEach_made_sure f filters q :
  alike (λ a b, a = b ∨ a = ensure b f) (forEach filters (ensure q f)) (forEach filters q).
Proof.
  revert q. induction filters as [|[key v] rest IH]; simpl; intros q; [by right|].
  pose proof (step_made_sure f q key v) as Hs.
  destruct (step (ensure q f) key v) as [a|], (step q key v) as [b|]; simpl in *; try done.
  destruct Hs as [->| ->]; [|apply IH].
  destruct (forEach rest b); simpl; [by left|done].
Qed.

(** What making sure of a field changes: nothing, or the empty clause
    where the field had no clause or held the empty string. *)
Lemma ensure_cases q f :
  ensure q f = q
  ∨ ensure q f = <[f := empty_clause]> q
    ∧ (q !! f = None ∨ ∃ m, q !! f = Some (Clause (BValue (QStr EmptyString)) m)).
Proof.
  unfold ensure, get. destruct (q !! f) as [[b m]|] eqn:Hq.
  - destruct b as [| |[[|a s]| |]]; try (by left). right. split; [done|]. right. by exists m.
  - case_bool_decide; [by left|]. right. split; [done|by left].
Qed.

(** A bare key outside the list does nothing. *)
Lemma step_unknown_bare q key v :
  includes key "_" = false → key ∉ bare_keys → step q key v = Ok q.
Proof.
  intros Hi Hb. unfold step. rewrite Hi. by rewrite bool_decide_eq_false_2.
Qed.

(** A key whose second segment is no operator only makes sure of its
    field. *)
Lemma step_unknown_operator q key v :
  includes key "_" = true → operator_in key = None →
  step q key v = Ok (ensure q (field_of key)).
Proof. intros Hi Ho. unfold step. by rewrite Hi, Ho. Qed.

(** C3, as the code has it. A bare key other than [status] and [source]
    is dropped: the predicate is the one compiled without it, and no
    error comes of it.  A key with an underscore whose second segment is
    not an operator never raises: compilation fails or succeeds as it
    does without that key, the clauses on all other fields are the
    same, and on the key's own field (its first segment) the predicate
    is the one compiled without the key, or has the empty clause [{}]
    where that one has no clause or the empty string.  Field names are
    not checked against the schema: on any name without underscore,
    [<name>_equals], [<name>_contains] and [<name>_in] compile to a
    clause on that name. *)
Theorem unknown_keys_handling pre post key v uid :
  (includes key "_" = false → key ≠ "status" → key ≠ "source" →
   buildFilterQuery (pre ++ (key, v) :: post) uid = buildFilterQuery (pre ++ post) uid)
  ∧ (includes key "_" = true → operator_in key = None →
     alike (λ q1 q2,
              (∀ k, k ≠ field_of key → q1 !! k = q2 !! k)
              ∧ (q1 = q2
                 ∨ q1 = <[field_of key := empty_clause]> q2
                   ∧ (q2 !! field_of key = None
                      ∨ ∃ m, q2 !! field_of key
                             = Some (Clause (BValue (QStr EmptyString)) m))))
           (buildFilterQuery (pre ++ (key, v) :: post) uid)
           (buildFilterQuery (pre ++ post) uid))
  ∧ (includes key "_" = false →
     buildFilterQuery [(key +:+ "_equals", v)] uid
       = Ok (<[key := Clause (BValue v) ∅]> (owner_query uid))
     ∧ buildFilterQuery [(key +:+ "_contains", v)] uid
       = Ok (<[key := Clause BObject
                        (<["$options" := OVal (QStr "i")]> {[ "$regex" := OVal v ]})]>
               (owner_query uid))
     ∧ buildFilterQuery [(key +:+ "_in", QArr [v])] uid
       = Ok (<[key := Clause BObject {[ "$in" := OVal (QArr [v]) ]}]> (owner_query uid))).
Proof.
  split; [|split].
  - intros Hi H1 H2. unfold buildFilterQuery. rewrite !forEach_app.
    destruct (forEach pre _) as [q|]; simpl; [|done].
    rewrite step_unknown_bare; [done|done|].
    unfold bare_keys. intros Hin. rewrite !elem_of_cons in Hin.
    destruct Hin as [->|[->|[->|Hin]]]; try done. by apply elem_of_nil in Hin.
  - intros Hi Ho. unfold buildFilterQuery. rewrite !forEach_app.
    destruct (forEach pre _) as [q|]; simpl; [|done].
    rewrite step_unknown_operator by done. simpl.
    assert (same_but (field_of key) (ensure q (field_of key)) q) as HR.
    { split; [intros k Hk; by apply ensure_lookup_ne|]. by rewrite ensure_idemp. }
    pose proof (forEach_same_but _ post _ _ HR) as Hs.
    pose proof (forEach_made_sure (field_of key) post q) as Hm.
    destruct (forEach post (ensure q _)) as [a|], (forEach post q) as [b|];
      simpl in *; try done.
    split; [apply Hs|]. destruct Hm as [->| ->]; [by left|].
    destruct (ensure_cases b (field_of key)) as [->|[-> Hb]]; [by left|by right].
  - intros Hi. repeat split.
    + rewrite (compile_single key "equals" v uid Hi eq_refl). simpl.
      by rewrite insert_ensure.
    + rewrite (compile_single key "contains" v uid Hi eq_refl). simpl.
      by rewrite insert_ensure.
    + rewrite (compile_single key "in" (QArr [v]) uid Hi eq_refl). simpl.
      by rewrite insert_ensure.
Qed.

(** The counterexample of C3 as it was stated: a key with an unknown
    field and an unknown operator leaves an empty clause behind. *)
Lemma unknown_key_leaves_clause :
  buildFilterQuery [("foo_bar", QStr "1")] 7%N
    = Ok (<["foo" := empty_clause]> (owner_query 7%N))
  ∧ buildFilterQuery [("foo_bar", QStr "1")] 7%N ≠ buildFilterQuery [] 7%N.
Proof.
  assert (buildFilterQuery [("foo_bar", QStr "1")] 7%N
          = Ok (<["foo" := empty_clause]> (owner_query 7%N))) as E1 by reflexivity.
  split; [exact E1|]. rewrite E1.
  change (buildFilterQuery [] 7%N) with (Ok (owner_query 7%N)). intros E.
  apply (f_equal (λ r, match r with Ok q => q !! "foo" | TypeError => None end)) in E.
  rewrite lookup_insert_eq, owner_query_ne in E by done. discriminate E.
Qed.

(** The witness of C3: an unknown bare key among known ones, an unknown
    operator before a known one on the same field, and an operator on a
    field the schema does not have. *)
Lemma unknown_keys_handling_witness :
  buildFilterQuery ([("score_gt", QStr "5")] ++ ("color", QStr "red") :: [("status", QStr "new")]) 7%N
    = buildFilterQuery ([("score_gt", QStr "5")] ++ [("status", QStr "new")]) 7%N
  ∧ alike (λ q1 q2,
             (∀ k, k ≠ field_of "foo_bar" → q1 !! k = q2 !! k)
             ∧ (q1 = q2
                ∨ q1 = <[field_of "foo_bar" := empty_clause]> q2
                  ∧ (q2 !! field_of "foo_bar" = None
                     ∨ ∃ m, q2 !! field_of "foo_bar"
                            = Some (Clause (BValue (QStr EmptyString)) m))))
          (buildFilterQuery ([] ++ ("foo_bar", QStr "1") :: [("foo_gt", QStr "2")]) 7%N)
          (buildFilterQuery ([] ++ [("foo_gt", QStr "2")]) 7%N)
  ∧ buildFilterQuery [("color_equals", QStr "red")] 7%N
    = Ok (<["color" := Clause (BValue (QStr "red")) ∅]> (owner_query 7%N)).
Proof.
  split; [|split].
  - exact (proj1 (unknown_keys_handling [("score_gt", QStr "5")] [("status", QStr "new")]
                    "color" (QStr "red") 7%N) eq_refl ltac:(discriminate) ltac:(discriminate)).
  - exact (proj1 (proj2 (unknown_keys_handling [] [("foo_gt", QStr "2")]
                    "foo_bar" (QStr "1") 7%N)) eq_refl eq_refl).
  - exact (proj1 (proj2 (proj2 (unknown_keys_handling [] [] "color" (QStr "red") 7%N))
                    eq_refl)).
Defined.

(** ** Values that do not parse (C6) *)

(** Whether a turn on a comparison or date operator fails does not
    depend on the value it is given. *)
Lemma step_failure_value q key a b :
  operator_in key ∈ [Some Gt; Some Lt; Some Before; Some After; Some On] →
  step q key a = TypeError ↔ step q key b = TypeError.
Proof.
  intros Hop. unfold step. destruct (includes key "_"); [|by case_bool_decide].
  assert (∀ name o o',
            set_member (ensure q (field_of key)) (field_of key) name o = TypeError
            ↔ set_member (ensure q (field_of key)) (field_of key) name o' = TypeError) as Hs.
  { intros name o o'. unfold set_member.
    by destruct (get _ _) as [[[| |[]] m]| |]. }
  rewrite !elem_of_cons in Hop.
  destruct Hop as [->|[->|[->|[->|[->|Hop]]]]]; simpl; try apply Hs; [done|].
  by apply elem_of_nil in Hop.
Qed.

(** C6, as the code has it. The compiler has no failure for a value that
    does not parse.  For [gt] and [lt] it stores [Number(value)], for
    [between] on a two-element array the [Number] of each element, and
    for [before], [after] and [on] the Date built from the value,
    whatever the value is: a value that is no number is stored as NaN, a
    value that is no date as the Invalid Date the host's parser makes of
    it.  The values are those of a key [<field>_<op>] alone, on a field
    name without underscore that is no property of [Object.prototype];
    among other keys, whether such a key makes the compilation fail does
    not depend on its value. *)
Theorem unparsed_values_are_stored field v v0 v1 uid :
  includes field "_" = false → field ∉ Object_prototype →
  buildFilterQuery [(field +:+ "_gt", v)] uid
    = Ok (<[field := Clause BObject {[ "$gt" := ONum (Number v) ]}]> (owner_query uid))
  ∧ buildFilterQuery [(field +:+ "_lt", v)] uid
    = Ok (<[field := Clause BObject {[ "$lt" := ONum (Number v) ]}]> (owner_query uid))
  ∧ buildFilterQuery [(field +:+ "_between", QArr [v0; v1])] uid
    = Ok (<[field := Clause BObject
                       (<["$lte" := ONum (Number v1)]> {[ "$gte" := ONum (Number v0) ]})]> (owner_query uid))
  ∧ buildFilterQuery [(field +:+ "_before", v)] uid
    = Ok (<[field := Clause BObject {[ "$lt" := ODate (NewDate v) ]}]> (owner_query uid))
  ∧ buildFilterQuery [(field +:+ "_after", v)] uid
    = Ok (<[field := Clause BObject {[ "$gt" := ODate (NewDate v) ]}]> (owner_query uid))
  ∧ buildFilterQuery [(field +:+ "_on", v)] uid
    = Ok (<[field := Clause BObject
                       (<["$lte" := ODate (SetHours (NewDate v) 23 59 59 999)]>
                          {[ "$gte" := ODate (NewDate v) ]})]> (owner_query uid))
  ∧ (StringToNumber (ToString v) = NaN → Number v = NaN)
  ∧ (∀ H, Date_parse H (ToString v) = None →
          time_value H (NewDate v) = None
          ∧ time_value H (SetHours (NewDate v) 23 59 59 999) = None)
  ∧ (∀ q key a b, operator_in key ∈ [Some Gt; Some Lt; Some Before; Some After; Some On] →
       (step q key a = TypeError ↔ step q key b = TypeError)).
Proof.
  intros Hi Hp.
  assert (∀ name o,
            set_member (ensure (owner_query uid) field) field name o
            = Ok (<[field := Clause BObject {[ name := o ]}]> (owner_query uid))) as Hset.
  { intros name o. rewrite ensure_fresh_field by done. apply set_member_fresh. }
  split; [by apply compile_gt|].
  split; [rewrite (compile_single field "lt") by done; apply Hset|].
  split.
  { rewrite (compile_single field "between") by done. simpl. rewrite Hset. simpl.
    unfold set_member, get. rewrite lookup_insert_eq. simpl.
    by rewrite insert_insert_eq. }
  split; [rewrite (compile_single field "before") by done; apply Hset|].
  split; [rewrite (compile_single field "after") by done; apply Hset|].
  split.
  { rewrite (compile_single field "on") by done. simpl. by rewrite insert_ensure. }
  split; [done|]. split; [|apply step_failure_value].
  intros H HNone. simpl. by rewrite HNone.
Qed.

(** The counterexample of C6 as it was stated: [score_gt=abc] compiles,
    with NaN as the bound. *)
Lemma unparsed_number_is_accepted :
  buildFilterQuery [("score_gt", QStr "abc")] 7%N
  = Ok (<["score" := Clause BObject {[ "$gt" := ONum NaN ]}]>
          (owner_query 7%N)).
Proof. reflexivity. Qed.

(** The witness of C6: [score_gt=abc]. *)
Lemma unparsed_values_are_stored_witness :
  includes "score" "_" = false ∧ ("score" ∉ Object_prototype)
  ∧ buildFilterQuery [("score_gt", QStr "abc")] 7%N
    = Ok (<["score" := Clause BObject {[ "$gt" := ONum (Number (QStr "abc")) ]}]>
            (owner_query 7%N))
  ∧ Number (QStr "abc") = NaN.
Proof.
  assert (includes "score" "_" = false) as Hi by reflexivity.
  pose proof score_is_no_builtin as Hp.
  pose proof (unparsed_values_are_stored "score" (QStr "abc") (QStr "a") (QStr "b") 7%N Hi Hp)
    as (Hgt & _ & _ & _ & _ & _ & Hnan & _ & _).
  split; [exact Hi|]. split; [exact Hp|]. split; [exact Hgt|exact (Hnan eq_refl)].
Defined.

(** ** Pagination (C9) *)

Section PaginationFacts.

#[local] Open Scope Z_scope.

(** [Math.ceil(total / limit)] on integers. *)
Lemma ceil_div_opp total limit : 0 < limit → ceil_div total limit = - ((- total) / limit).
Proof.
  intros Hl. destruct limit as [|p|p]; try lia.
  unfold ceil_div, Qceiling, Qfloor, Qdiv, Qinv, Qmult, Qopp, inject_Z. simpl.
  by rewrite Z.mul_1_r.
Qed.

Lemma ceil_div_bounds total limit :
  0 < limit →
  (ceil_div total limit - 1) * limit < total ≤ ceil_div total limit * limit.
Proof.
  intros Hl. rewrite ceil_div_opp by done.
  pose proof (Z.div_mod (- total) limit ltac:(lia)) as Hdm.
  pose proof (Z.mod_pos_bound (- total) limit Hl) as Hm.
  nia.
Qed.

Lemma ceil_div_zero limit : 0 < limit → ceil_div 0 limit = 0.
Proof. intros Hl. rewrite ceil_div_opp by done. simpl. by rewrite Z.div_0_l by lia. Qed.

End PaginationFacts.

(** *** What [isInt] accepts, and how [Number] and [parseInt] read it *)

#[local] Arguments Ascii.eqb : simpl never.
#[local] Arguments is_digit : simpl never.
#[local] Arguments Regex.between : simpl never.

Lemma test_Void s : Regex.test Regex.Void s = false.
Proof. induction s; simpl; done. Qed.

Lemma test_star_digit s :
  Regex.test (Regex.Star Regex.digit) s = forallb is_digit (list_ascii_of_string s).
Proof.
  induction s as [|a s IH]; simpl; [done|].
  change (Regex.between 48 57 a) with (is_digit a).
  destruct (is_digit a); simpl; [done|apply test_Void].
Qed.

Lemma test_plus_digit s :
  Regex.test (Regex.plus Regex.digit) s
  = match list_ascii_of_string s with
    | [] => false
    | a :: r => is_digit a && forallb is_digit r
    end.
Proof.
  destruct s as [|a s]; simpl; [done|].
  change (Regex.between 48 57 a) with (is_digit a).
  destruct (is_digit a); simpl; [apply test_star_digit|apply test_Void].
Qed.

Lemma digit_not_sign a : is_digit a = true → Ascii.eqb a "-" = false ∧ Ascii.eqb a "+" = false.
Proof.
  intros Hd. split.
  - destruct (Ascii.eqb_spec a "-") as [->|]; [discriminate Hd|done].
  - destruct (Ascii.eqb_spec a "+") as [->|]; [discriminate Hd|done].
Qed.

(** The strings [/^[-+]?[0-9]+$/] accepts: digits, after one sign at
    most. *)
Lemma int_pattern_shape s :
  Regex.test (Regex.Seq (Regex.opt (Regex.Alt (Regex.chr "-") (Regex.chr "+")))
                        (Regex.plus Regex.digit)) s = true →
  ∃ neg ds, ds ≠ [] ∧ forallb is_digit ds = true
            ∧ sign (list_ascii_of_string s) = (neg, ds)
            ∧ (neg = true → ∃ r, list_ascii_of_string s = "-"%char :: r).
Proof.
  destruct s as [|a s]; simpl; [done|].
  change (Regex.between 48 57 a) with (is_digit a).
  rewrite (Ascii.eqb_sym "-" a), (Ascii.eqb_sym "+" a).
  destruct (Ascii.eqb_spec a "-") as [->|Hm]; simpl.
  - rewrite test_plus_digit. intros Ht. exists true, (list_ascii_of_string s).
    destruct (list_ascii_of_string s) as [|b r]; [done|]. repeat split; eauto.
  - destruct (Ascii.eqb_spec a "+") as [->|Hp]; simpl.
    + rewrite test_plus_digit. intros Ht. exists false, (list_ascii_of_string s).
      destruct (list_ascii_of_string s) as [|b r]; [done|]. repeat split; eauto. done.
    + destruct (is_digit a) eqn:Hd; simpl; [|by rewrite test_Void].
      rewrite test_star_digit. intros Ht.
      exists false, (a :: list_ascii_of_string s). simpl. rewrite Hd, Ht.
      repeat split; try done.
Qed.

Lemma is_digit_bounds a : is_digit a = true ↔ (48 ≤ nat_of_ascii a ≤ 57)%nat.
Proof.
  unfold is_digit. rewrite andb_true_iff, !Nat.leb_le. done.
Qed.

Lemma digit_not_space a : is_digit a = true → is_space a = false.
Proof.
  rewrite is_digit_bounds. intros Hb. unfold is_space.
  apply bool_decide_eq_false. set_unfold. lia.
Qed.

Lemma trim_start_head a l : is_space a = false → trim_start (a :: l) = a :: l.
Proof. intros H. simpl. by rewrite H. Qed.

(** Trimming leaves alone a string that starts and ends with something
    else than white space. *)
Lemma trim_list_id a l b :
  is_space a = false → is_space b = false →
  last (a :: l) = Some b → trim_list (a :: l) = a :: l.
Proof.
  intros Ha Hb Hl. unfold trim_list. rewrite trim_start_head by done.
  assert (∃ r, rev (a :: l) = b :: r) as [r Hr].
  { rewrite <- (rev_involutive (a :: l)) in Hl.
    destruct (rev (a :: l)) as [|x r] eqn:E.
    - apply (f_equal (@List.length _)) in E. rewrite length_rev in E. done.
    - exists r. simpl in Hl. rewrite last_snoc in Hl. by injection Hl as ->. }
  rewrite Hr, trim_start_head by done. rewrite <- Hr. apply rev_involutive.
Qed.

Lemma span_all_digits ds : forallb is_digit ds = true → span_digits ds = (ds, []).
Proof.
  induction ds as [|a ds IH]; simpl; [done|].
  intros [Ha Hds]%andb_true_iff. by rewrite Ha, (IH Hds).
Qed.

Lemma last_digit ds :
  ds ≠ [] → forallb is_digit ds = true → ∃ b, last ds = Some b ∧ is_digit b = true.
Proof.
  intros Hne Hall. destruct (last ds) as [b|] eqn:Hl.
  - exists b. split; [done|]. apply last_Some in Hl as [l' ->].
    rewrite forallb_app in Hall. apply andb_true_iff in Hall as [_ Hb].
    simpl in Hb. by rewrite andb_true_r in Hb.
  - by apply last_None in Hl.
Qed.

Section IntegerStrings.

#[local] Open Scope Z_scope.

Lemma digit_value_bounds a : is_digit a = true → 0 ≤ digit_value a ≤ 9.
Proof. rewrite is_digit_bounds. unfold digit_value. lia. Qed.

Lemma fold_digits_nonneg ds acc :
  0 ≤ acc → forallb is_digit ds = true →
  0 ≤ fold_left (λ acc a, 10 * acc + digit_value a) ds acc.
Proof.
  revert acc. induction ds as [|a ds IH]; simpl; intros acc Hacc; [done|].
  intros [Ha Hds]%andb_true_iff. apply IH; [|done].
  pose proof (digit_value_bounds a Ha). lia.
Qed.

Lemma digits_value_nonneg ds : forallb is_digit ds = true → 0 ≤ digits_value ds.
Proof. apply fold_digits_nonneg. done. Qed.

Lemma radix_digit_decimal a : is_digit a = true → radix_digit 10 a = Some (digit_value a).
Proof.
  intros Ha. pose proof (digit_value_bounds a Ha) as Hb.
  apply is_digit_bounds in Ha. unfold radix_digit, digit_value in *.
  replace (48 <=? Z.of_nat (nat_of_ascii a)) with true by (symmetry; apply Z.leb_le; lia).
  replace (Z.of_nat (nat_of_ascii a) <=? 57) with true by (symmetry; apply Z.leb_le; lia).
  simpl.
  by replace (Z.of_nat (nat_of_ascii a) - 48 <? 10) with true
    by (symmetry; apply Z.ltb_lt; lia).
Qed.

Lemma int_prefix_digits ds acc :
  forallb is_digit ds = true →
  int_prefix 10 ds (Some acc)
  = Some (fold_left (λ acc a, 10 * acc + digit_value a) ds acc).
Proof.
  revert acc. induction ds as [|a ds IH]; simpl; intros acc; [done|].
  intros [Ha Hds]%andb_true_iff. rewrite radix_digit_decimal by done. simpl.
  by apply IH.
Qed.

(** [parseInt] of digits is their value. *)
Lemma int_prefix_value ds :
  ds ≠ [] → forallb is_digit ds = true →
  int_prefix 10 ds None = Some (digits_value ds).
Proof.
  destruct ds as [|a ds]; [done|]. simpl. intros _ [Ha Hds]%andb_true_iff.
  rewrite radix_digit_decimal by done. simpl. by rewrite int_prefix_digits.
Qed.

(** [Number] of digits is their value. *)
Lemma unsigned_literal_digits ds :
  ds ≠ [] → forallb is_digit ds = true →
  unsigned_literal ds = Finite (inject_Z (digits_value ds)).
Proof.
  intros Hne Hall. unfold unsigned_literal.
  rewrite bool_decide_eq_false_2.
  2:{ intros ->. discriminate Hall. }
  unfold unsigned_decimal. rewrite span_all_digits by done.
  rewrite app_nil_r. destruct ds as [|a ds]; [done|].
  f_equal. unfold Qmult, inject_Z. simpl Qnum. simpl Qden.
  rewrite Z.mul_1_r. apply Qcanon.Qred_identity. simpl. apply Z.gcd_1_r.
Qed.

End IntegerStrings.

Lemma digit_not_letter a c :
  is_digit a = true → is_digit c = false → Ascii.eqb a c = false.
Proof.
  intros Ha Hc. destruct (Ascii.eqb_spec a c) as [->|]; [congruence|done].
Qed.

Lemma radix_prefix_digits ds : forallb is_digit ds = true → radix_prefix ds = None.
Proof.
  destruct ds as [|a [|x ds]]; simpl; try done.
  intros [_ [Hx _]%andb_true_iff]%andb_true_iff.
  destruct (Ascii.eqb a "0"); [|done].
  by rewrite !(digit_not_letter x) by (done || reflexivity).
Qed.

Section ReadingIntegers.

#[local] Open Scope Z_scope.

(** A string of digits after at most one sign, as [sign] splits it. *)
Lemma signed_digits_cases l neg ds :
  ds ≠ [] → forallb is_digit ds = true → sign l = (neg, ds) →
  ∃ a r, l = a :: r ∧ is_space a = false ∧ trim_list l = l
         ∧ ((Ascii.eqb a "-" = true ∧ neg = true ∧ r = ds)
            ∨ (Ascii.eqb a "-" = false ∧ Ascii.eqb a "+" = true ∧ neg = false ∧ r = ds)
            ∨ (Ascii.eqb a "-" = false ∧ Ascii.eqb a "+" = false ∧ neg = false ∧ l = ds)).
Proof.
  intros Hne Hall Hs. destruct l as [|a r]; [by injection Hs as _ <-|].
  destruct (last_digit ds Hne Hall) as (b & Hb & Hbd).
  exists a, r. simpl in Hs.
  destruct (Ascii.eqb_spec a "-") as [->|Hm].
  { injection Hs as <- <-. repeat split; [|left; done].
    apply (trim_list_id _ _ b); [done|by apply digit_not_space|].
    destruct r; [done|]. done. }
  destruct (Ascii.eqb_spec a "+") as [->|Hp].
  { injection Hs as <- <-. repeat split; [|right; left; done].
    apply (trim_list_id _ _ b); [done|by apply digit_not_space|].
    destruct r; [done|]. done. }
  injection Hs as <- <-. simpl in Hall. apply andb_true_iff in Hall as [Ha Hr].
  repeat split; [by apply digit_not_space| |right; right; done].
  apply (trim_list_id _ _ b); [by apply digit_not_space|by apply digit_not_space|done].
Qed.

(** On such a string [Number] and [parseInt] agree: both give the
    value of the digits, with the sign. *)
Lemma signed_digits_read s neg ds :
  ds ≠ [] → forallb is_digit ds = true →
  sign (list_ascii_of_string s) = (neg, ds) →
  let n := if neg then - digits_value ds else digits_value ds in
  StringToNumber s = Finite (inject_Z n) ∧ parseInt s = Some n.
Proof.
  intros Hne Hall Hs n.
  destruct (signed_digits_cases _ _ _ Hne Hall Hs)
    as (a & r & Hl & Hsp & Htrim & Hcase).
  split.
  - unfold StringToNumber. rewrite Htrim, Hl.
    destruct Hcase as [(-> & -> & ->)|[(-> & -> & -> & ->)|(-> & -> & -> & <-)]].
    + rewrite unsigned_literal_digits by done. simpl. f_equal.
      apply Qcanon.Qred_identity. simpl. apply Z.gcd_1_r.
    + by rewrite unsigned_literal_digits.
    + rewrite <- Hl, radix_prefix_digits by done. by rewrite unsigned_literal_digits.
  - unfold parseInt. rewrite Hl, trim_start_head, <- Hl, Hs by done.
    assert (int_prefix 10 ds None = Some (digits_value ds)) as Hv
      by by apply int_prefix_value.
    destruct ds as [|d [|x ds']]; [done| |].
    + by rewrite Hv.
    + simpl in Hall. apply andb_true_iff in Hall as [_ [Hx _]%andb_true_iff].
      rewrite !(digit_not_letter x) by (done || reflexivity).
      rewrite andb_false_r. by rewrite Hv.
Qed.

(** What [isInt({ min, max })] accepts is read by [parseInt] as an
    integer within the bounds. *)
Lemma isInt_parseInt lo hi s :
  isInt lo hi s = true →
  ∃ n, parseInt s = Some n
       ∧ (∀ m, lo = Some m → m ≤ n) ∧ (∀ m, hi = Some m → n ≤ m).
Proof.
  unfold isInt. intros [[Hre Hlo]%andb_true_iff Hhi]%andb_true_iff.
  destruct (int_pattern_shape s Hre) as (neg & ds & Hne & Hall & Hs & _).
  destruct (signed_digits_read s neg ds Hne Hall Hs) as [Hnum Hpi].
  eexists. split; [exact Hpi|]. rewrite Hnum in Hlo, Hhi. split.
  - intros m ->. simpl in Hlo. apply Qle_bool_iff in Hlo.
    unfold Qle in Hlo. simpl in Hlo. lia.
  - intros m ->. simpl in Hhi. apply Qle_bool_iff in Hhi.
    unfold Qle in Hhi. simpl in Hhi. lia.
Qed.

End ReadingIntegers.

Lemma listValidation_accepts query :
  validationResult listValidation query = [] →
  (∀ s, query !! "page" = Some s → isInt (Some 1%Z) None s = true)
  ∧ (∀ s, query !! "limit" = Some s → isInt (Some 1%Z) (Some 100%Z) s = true).
Proof.
  unfold validationResult, listValidation, run_chain. simpl.
  destruct (query !! "page") as [p|], (query !! "limit") as [l|]; simpl;
    repeat match goal with
           | |- context [isInt ?a ?b ?s] => destruct (isInt a b s) eqn:?
           end; simpl; try done; intros _; split; intros ? [= <-]; done.
Qed.

Section PaginationTheorem.

#[local] Open Scope Z_scope.

Lemma parse_or_accepted lo hi raw fallback :
  (∀ s, raw = Some s → isInt (Some lo) hi s = true) → 1 ≤ lo →
  lo ≤ fallback → (∀ m, hi = Some m → fallback ≤ m) →
  lo ≤ parse_or raw fallback
  ∧ (∀ m, hi = Some m → parse_or raw fallback ≤ m)
  ∧ (raw = None → parse_or raw fallback = fallback)
  ∧ (∀ s, raw = Some s → parseInt s = Some (parse_or raw fallback)).
Proof.
  intros Hok Hlo Hf Hfh. unfold parse_or. destruct raw as [s|]; simpl.
  - destruct (isInt_parseInt _ _ _ (Hok s eq_refl)) as (n & Hn & Hnlo & Hnhi).
    specialize (Hnlo lo eq_refl). rewrite Hn.
    replace (n =? 0) with false by (symmetry; apply Z.eqb_neq; lia).
    repeat split; try done. by intros s' [= <-].
  - repeat split; done.
Qed.


End PaginationTheorem.


(** ** Required fields on create and update (C7) *)

Lemma validationResult_chain chains body c e :
  c ∈ chains → e ∈ (run_chain c body).2 → e ∈ validationResult chains body.
Proof.
  intros Hc He. unfold validationResult.
  apply list_elem_of_In, in_concat. exists (run_chain c body).2.
  split; [|by apply list_elem_of_In].
  apply in_map_iff. exists c. split; [done|by apply list_elem_of_In].
Qed.

(** Both handlers answer a request with validation errors in the same
    way, before they look at the collection. *)
Lemma handlers_reject_invalid V M now newId uid id body coll :
  validationResult (leadValidation V) body ≠ [] →
  post V M now newId uid body coll
    = (Json 400 false "Validation failed" (validationResult (leadValidation V) body) None, coll)
  ∧ put V M now uid id body coll
    = (Json 400 false "Validation failed" (validationResult (leadValidation V) body) None, coll).
Proof.
  intros Hne. unfold post, put. by rewrite bool_decide_eq_false_2.
Qed.

Lemma missing_field_error V body f msg :
  (f, msg) ∈ required_messages → body !! f = None →
  Error f msg ∈ validationResult (leadValidation V) body.
Proof.
  intros Hf Hb. unfold required_messages in Hf.
  repeat (apply elem_of_cons in Hf as [[= -> ->]|Hf];
          [ eapply validationResult_chain;
            [unfold leadValidation; pick_member|];
            unfold run_chain; simpl; rewrite Hb; simpl; set_solver |]).
  by apply elem_of_nil in Hf.
Qed.

(** C7, as the code has it. The update route runs the same
    [leadValidation] rules as the create route, required-ness included:
    when one of [first_name], [last_name], [phone], [company], [city],
    [state] or [source] is absent from the payload, both POST and PUT
    answer 400 "Validation failed" with the error of that field, and the
    collection is left as it was. *)
Theorem required_fields_on_create_and_update V M now newId uid id body coll f msg :
  (f, msg) ∈ required_messages → body !! f = None →
  ∃ errors,
    Error f msg ∈ errors
    ∧ post V M now newId uid body coll = (Json 400 false "Validation failed" errors None, coll)
    ∧ put V M now uid id body coll = (Json 400 false "Validation failed" errors None, coll).
Proof.
  intros Hf Hb. exists (validationResult (leadValidation V) body).
  pose proof (missing_field_error V body f msg Hf Hb) as He.
  split; [done|]. apply handlers_reject_invalid.
  intros E. rewrite E in He. by apply elem_of_nil in He.
Qed.

(** The counterexample of C7 as it was stated: an update of lead 1 by
    its owner with a complete form but for [first_name] does not pass
    validation. *)
Lemma update_without_first_name_rejected :
  put Samples.validator Samples.mapper0 2000 Samples.alice Samples.id1
      (delete "first_name" (Samples.form "ann@corp.com")) Samples.three_leads
  = (Json 400 false "Validation failed" [Error "first_name" "First name is required"] None,
     Samples.three_leads).
Proof.
  assert (validationResult (leadValidation Samples.validator)
            (delete "first_name" (Samples.form "ann@corp.com"))
          = [Error "first_name" "First name is required"]) as Hv
    by (vm_compute; reflexivity).
  destruct (handlers_reject_invalid Samples.validator Samples.mapper0 2000 4%N
              Samples.alice Samples.id1
              (delete "first_name" (Samples.form "ann@corp.com")) Samples.three_leads)
    as [_ ->]; by rewrite Hv.
Qed.

(** The witness of C7: the same form without [first_name], created and
    updated. *)
Lemma required_fields_on_create_and_update_witness :
  ("first_name", "First name is required") ∈ required_messages
  ∧ delete "first_name" (Samples.form "ann@corp.com") !! "first_name" = None
  ∧ ∃ errors,
      Error "first_name" "First name is required" ∈ errors
      ∧ post Samples.validator Samples.mapper0 2000 4%N Samples.alice
             (delete "first_name" (Samples.form "ann@corp.com")) Samples.three_leads
        = (Json 400 false "Validation failed" errors None, Samples.three_leads)
      ∧ put Samples.validator Samples.mapper0 2000 Samples.alice Samples.id1
            (delete "first_name" (Samples.form "ann@corp.com")) Samples.three_leads
        = (Json 400 false "Validation failed" errors None, Samples.three_leads).
Proof.
  assert (("first_name", "First name is required") ∈ required_messages) as Hf
    by apply list_elem_of_here.
  assert (delete "first_name" (Samples.form "ann@corp.com") !! "first_name" = None) as Hb
    by reflexivity.
  split; [exact Hf|]. split; [exact Hb|].
  exact (required_fields_on_create_and_update Samples.validator Samples.mapper0 2000 4%N
           Samples.alice Samples.id1 _ Samples.three_leads _ _ Hf Hb).
Defined.

(** ** E-mail uniqueness (C1, C8) *)

Lemma select_found p (coll : list (gmap string fieldval)) d :
  d ∈ coll → p d = true → is_Some (select p coll).
Proof.
  induction coll as [|x coll IH]; intros Hd Hp; [by apply elem_of_nil in Hd|].
  simpl. destruct (p x) eqn:Hx; [done|].
  apply elem_of_cons in Hd as [->|Hd]; [congruence|].
  destruct (IH Hd Hp) as [[[b y] a] ->]. done.
Qed.

Lemma select_split p (coll : list (gmap string fieldval)) before d after :
  select p coll = Some (before, d, after) →
  coll = (before ++ d :: after)%list ∧ p d = true.
Proof.
  revert before. induction coll as [|x coll IH]; simpl; intros before; [done|].
  destruct (p x) eqn:Hx.
  - by intros [= <- <- <-].
  - destruct (select p coll) as [[[b y] a]|]; simpl; [|done].
    intros [= <- <- <-]. destruct (IH b eq_refl) as [-> Hp]. done.
Qed.

Lemma leadSchema_names_NoDup : NoDup (List.map sp_name leadSchema).
Proof. apply (bool_decide_unpack _). vm_compute. reflexivity. Qed.

(** A path of the object given to [new Lead(...)] is in the document by
    its cast value. *)
Lemma build_lookup M paths obj doc sp v :
  build M paths obj = Some doc → NoDup (List.map sp_name paths) →
  sp ∈ paths → obj !! sp_name sp = Some v →
  ∃ v', cast M sp v = Some v' ∧ doc !! sp_name sp = Some v'.
Proof.
  revert doc. induction paths as [|sp0 rest IH]; intros doc Hb Hnd Hsp Hv.
  { by apply elem_of_nil in Hsp. }
  simpl in Hb. destruct (build M rest obj) as [doc0|] eqn:Hrest; simpl in Hb; [|done].
  simpl in Hnd. apply NoDup_cons in Hnd as [Hnotin Hnd].
  apply elem_of_cons in Hsp as [->|Hsp].
  - rewrite Hv in Hb. destruct (cast M sp0 v) as [v'|]; simpl in Hb; [|done].
    injection Hb as <-. exists v'. by rewrite lookup_insert_eq.
  - destruct (IH doc0 eq_refl Hnd Hsp Hv) as (v' & Hc & Hl).
    exists v'. split; [done|].
    assert (sp_name sp0 ≠ sp_name sp) as Hne.
    { intros E. apply Hnotin. rewrite E. apply list_elem_of_In, in_map.
      by apply list_elem_of_In. }
    destruct (obj !! sp_name sp0) as [v0|].
    + destruct (cast M sp0 v0); simpl in Hb; [|done]. injection Hb as <-.
      by rewrite lookup_insert_ne.
    + injection Hb as <-. destruct (sp_default sp0); by rewrite ?lookup_insert_ne.
Qed.

Lemma same_key_refl_string s : same_key (FStr s) (FStr s) = true.
Proof. simpl. by apply bool_decide_eq_true_2. Qed.

(** Two documents with the same address collide on the unique index of
    [email], whoever owns them. *)
Lemma collides_same_email doc other s :
  doc !! "email" = Some (FStr s) → other !! "email" = Some (FStr s) →
  collides leadSchema doc other = true.
Proof.
  intros Hd Ho. unfold collides.
  change (unique_paths leadSchema) with ["_id"; "email"].
  simpl. rewrite Hd, Ho, same_key_refl_string. by rewrite orb_true_r.
Qed.

(** The address of a document that [save] accepts is the address of the
    object, lower-cased and trimmed. *)
Lemma save_email_collision M now newId obj coll e other :
  obj !! "email" = Some (FStr e) →
  other ∈ coll → other !! "email" = Some (FStr (trim (toLowerCase e))) →
  save M now newId obj coll = Failed DuplicateKey
  ∨ save M now newId obj coll = Failed ValidationError.
Proof.
  intros He Ho Hoe. unfold save.
  destruct (build M leadSchema obj) as [doc|] eqn:Hb; [|by right].
  destruct (validate leadSchema doc); [|by right]. left.
  destruct (build_lookup M leadSchema obj doc email_path (FStr e) Hb
              leadSchema_names_NoDup ltac:(unfold leadSchema; pick_member) He)
    as (v' & Hc & Hl).
  injection Hc as <-.
  rewrite (proj2 (existsb_exists _ _)); [done|].
  exists other. split; [by apply list_elem_of_In|].
  apply (collides_same_email _ _ (trim (toLowerCase e))); [|done].
  by rewrite !lookup_insert_ne.
Qed.

(** The branches of the handlers, once validation has passed. *)
Lemma post_precheck_hit V M now newId uid body coll x :
  validationResult (leadValidation V) body = [] →
  select (by_email_owner (sanitized (leadValidation V) body !! "email") uid None) coll
    = Some x →
  post V M now newId uid body coll
  = (refuse 400 "A lead with this email already exists", coll).
Proof.
  intros Hv Hs. unfold post. rewrite Hv, Hs.
  by rewrite bool_decide_eq_true_2.
Qed.

Lemma post_save_failed V M now newId uid body coll f :
  validationResult (leadValidation V) body = [] →
  select (by_email_owner (sanitized (leadValidation V) body !! "email") uid None) coll
    = None →
  save M now newId (<["user_id" := FId uid]> (FStr <$> sanitized (leadValidation V) body)) coll
    = Failed f →
  post V M now newId uid body coll
  = (match f with
     | DuplicateKey => refuse 400 "A lead with this email already exists"
     | _ => refuse 500 "Unable to create lead"
     end, coll).
Proof.
  intros Hv Hs Hf. unfold post. rewrite Hv, Hs, Hf.
  rewrite bool_decide_eq_true_2 by done. by destruct f.
Qed.

Lemma put_precheck_hit V M now uid id body coll r :
  validationResult (leadValidation V) body = [] →
  put_precheck uid id (sanitized (leadValidation V) body) coll = Some r →
  put V M now uid id body coll = (r, coll).
Proof.
  intros Hv Hp. unfold put. rewrite Hv, Hp. by rewrite bool_decide_eq_true_2.
Qed.

Lemma put_update_failed V M now uid id body coll f :
  validationResult (leadValidation V) body = [] →
  put_precheck uid id (sanitized (leadValidation V) body) coll = None →
  findOneAndUpdate M now id uid
    (<["updated_at" := FDate now]> (FStr <$> sanitized (leadValidation V) body)) coll
    = Failed f →
  put V M now uid id body coll = (put_catch f, coll).
Proof.
  intros Hv Hp Hf. unfold put. rewrite Hv, Hp, Hf. by rewrite bool_decide_eq_true_2.
Qed.

Lemma head_default_elem {A} (l : list A) d : l ≠ [] → default d (head l) ∈ l.
Proof. destruct l; [done|]. intros _. apply list_elem_of_here. Qed.

(** C1. A create request that passes validation is refused as soon as a
    stored lead has the same normalized address, whoever owns that lead:
    for a lead of the same owner the pre-check answers 400 "A lead with
    this email already exists"; for a lead of another owner the
    pre-check passes and the unique index on [email] alone refuses the
    insertion, with the same answer (or the document fails the schema and
    the answer is 500).  The collection is left as it was. *)
Theorem create_refused_when_address_taken V M now newId uid body coll e other :
  validationResult (leadValidation V) body = [] →
  sanitized (leadValidation V) body !! "email" = Some e →
  other ∈ coll → other !! "email" = Some (FStr (trim (toLowerCase e))) →
  (∃ r, post V M now newId uid body coll = (r, coll)
        ∧ (r = refuse 400 "A lead with this email already exists"
           ∨ r = refuse 500 "Unable to create lead"))
  ∧ (other !! "user_id" = Some (FId uid) →
     post V M now newId uid body coll
     = (refuse 400 "A lead with this email already exists", coll)).
Proof.
  intros Hv He Ho Hoe. unfold post. rewrite Hv, He.
  rewrite bool_decide_eq_true_2 by done. cbn [negb].
  assert (field_is other "email" (FStr (setters email_path e)) = true) as Hfe.
  { unfold field_is. rewrite Hoe. apply same_key_refl_string. }
  split.
  - destruct (select _ coll) as [[[b x] a]|]; [eauto|].
    destruct (save_email_collision M now newId
                (<["user_id" := FId uid]> (FStr <$> sanitized (leadValidation V) body))
                coll e other) as [-> | ->]; eauto.
    rewrite lookup_insert_ne by done. by rewrite lookup_fmap, He.
  - intros Hu.
    destruct (select_found (by_email_owner (Some e) uid None) coll other Ho)
      as [[[b x] a] ->]; [|done].
    unfold by_email_owner. rewrite Hfe. unfold field_is. rewrite Hu. simpl.
    by rewrite bool_decide_eq_true_2.
Qed.

(** The witness of C1, which is the failing input: bob creates a lead
    with the address of a lead of alice. *)
Lemma create_refused_when_address_taken_witness :
  post Samples.validator Samples.mapper0 3000 4%N Samples.bob
       (Samples.form "ann@corp.com") Samples.three_leads
  = (refuse 400 "A lead with this email already exists", Samples.three_leads).
Proof.
  assert (validationResult (leadValidation Samples.validator) (Samples.form "ann@corp.com")
          = []) as Hv by (vm_compute; reflexivity).
  assert (sanitized (leadValidation Samples.validator) (Samples.form "ann@corp.com")
            !! "email" = Some "ann@corp.com") as He by (vm_compute; reflexivity).
  assert (default ∅ (head Samples.three_leads) ∈ Samples.three_leads) as Ho.
  { apply head_default_elem. intros E. apply (f_equal (@List.length _)) in E.
    vm_compute in E. discriminate E. }
  assert (default ∅ (head Samples.three_leads) !! "email"
          = Some (FStr (trim (toLowerCase "ann@corp.com")))) as Hoe
    by (vm_compute; reflexivity).
  destruct (proj1 (create_refused_when_address_taken Samples.validator Samples.mapper0
                     3000 4%N Samples.bob _ _ _ _ Hv He Ho Hoe)) as (r & Hr & _).
  assert ((post Samples.validator Samples.mapper0 3000 4%N Samples.bob
                (Samples.form "ann@corp.com") Samples.three_leads).1
          = refuse 400 "A lead with this email already exists") as Hresp
    by (vm_compute; reflexivity).
  rewrite Hr in Hresp. simpl in Hresp. by rewrite Hr, Hresp.
Defined.

(** C8. On the update route the two detections of a duplicate address
    answer with different messages.  The pre-check, which finds another
    lead of the same owner, says "Another lead with this email already
    exists" and never anything else about duplicates; the unique index,
    which here refuses the address of a lead of another owner, is
    reported as "A lead with this email already exists".  On the create
    route both detections give the latter message. *)
Theorem update_duplicate_messages_differ :
  (∀ uid id body coll, put_precheck uid id body coll ≠ Some (put_catch DuplicateKey))
  ∧ put Samples.validator Samples.mapper0 2000 Samples.alice Samples.id1
        (Samples.form "cy@corp.com") Samples.three_leads
    = (refuse 400 "Another lead with this email already exists", Samples.three_leads)
  ∧ put Samples.validator Samples.mapper0 2000 Samples.alice Samples.id1
        (Samples.form "bo@corp.com") Samples.three_leads
    = (refuse 400 "A lead with this email already exists", Samples.three_leads)
  ∧ post Samples.validator Samples.mapper0 2000 4%N Samples.alice
         (Samples.form "cy@corp.com") Samples.three_leads
    = (refuse 400 "A lead with this email already exists", Samples.three_leads)
  ∧ post Samples.validator Samples.mapper0 2000 4%N Samples.alice
         (Samples.form "bo@corp.com") Samples.three_leads
    = (refuse 400 "A lead with this email already exists", Samples.three_leads).
Proof.
  split; [|split; [|split; [|split]]].
  - intros uid id body coll. unfold put_precheck.
    destruct (body !! "email") as [e|]; [|done].
    case_bool_decide; [done|].
    destruct (castObjectId id); [|done].
    by destruct (select _ coll).
  - apply put_precheck_hit; vm_compute; reflexivity.
  - apply (put_update_failed _ _ _ _ _ _ _ DuplicateKey); vm_compute; reflexivity.
  - assert (is_Some (select (by_email_owner
                (sanitized (leadValidation Samples.validator) (Samples.form "cy@corp.com")
                   !! "email") Samples.alice None) Samples.three_leads)) as [x Hx].
    { apply (bool_decide_unpack _). vm_compute. reflexivity. }
    eapply post_precheck_hit; [vm_compute; reflexivity|exact Hx].
  - apply (post_save_failed _ _ _ _ _ _ _ DuplicateKey); vm_compute; reflexivity.
Qed.

(** ** The addresses of a collection stay distinct *)

Lemma same_key_sym a b : same_key a b = same_key b a.
Proof.
  destruct a as [s|[| |x]|x|t|i|], b as [s'|[| |y]|y|t'|i'|]; simpl; try done;
    try (apply bool_decide_ext; naive_solver).
  unfold Qeq_bool. apply Z.eqb_sym.
Qed.

Lemma apart_sym p d1 d2 : apart p d1 d2 → apart p d2 d1.
Proof. intros H a b Ha Hb. rewrite same_key_sym. by apply H. Qed.

Lemma distinct_on_app p l1 l2 :
  distinct_on p (l1 ++ l2)
  ↔ distinct_on p l1 ∧ distinct_on p l2 ∧ Forall (λ d1, Forall (apart p d1) l2) l1.
Proof.
  induction l1 as [|d l1 IH]; simpl.
  - split; [intros H; repeat split; auto|tauto].
  - rewrite Forall_app, IH, Forall_cons. tauto.
Qed.

(** A document that collides with none of a list is apart from each on
    every unique path. *)
Lemma no_collision_apart doc (others : list (gmap string fieldval)) p :
  existsb (collides leadSchema doc) others = false →
  p ∈ unique_paths leadSchema →
  Forall (apart p doc) others.
Proof.
  intros Hno Hp. apply Forall_forall. intros d Hd a b Ha Hb.
  destruct (same_key a b) eqn:Hk; [|done].
  assert (existsb (collides leadSchema doc) others = true) as Hyes; [|congruence].
  apply existsb_exists. exists d. split; [by apply list_elem_of_In|].
  unfold collides. apply existsb_exists. exists p.
  split; [by apply list_elem_of_In|]. by rewrite Ha, Hb.
Qed.

Lemma distinct_on_insert_last p coll doc :
  distinct_on p coll → Forall (apart p doc) coll → distinct_on p (coll ++ [doc]).
Proof.
  intros Hc Hd. apply distinct_on_app. repeat split; [done|by constructor|].
  eapply Forall_impl; [exact Hd|]. intros d H. constructor; [|done]. by apply apart_sym.
Qed.

Lemma distinct_on_replace p before doc doc' after :
  distinct_on p (before ++ doc :: after) →
  Forall (apart p doc') (before ++ after) →
  distinct_on p (before ++ doc' :: after).
Proof.
  rewrite !distinct_on_app. simpl. rewrite Forall_app.
  intros (Hb & [_ Ha] & Hba) [Hdb Hda]. repeat split; try done.
  apply Forall_forall. intros d Hd. constructor.
  - apply apart_sym. by eapply Forall_forall in Hdb.
  - eapply Forall_forall in Hba; [|exact Hd]. by inversion Hba.
Qed.

Lemma distinct_on_remove p before doc after :
  distinct_on p (before ++ doc :: after) → distinct_on p (before ++ after).
Proof.
  rewrite !distinct_on_app. simpl. intros (Hb & [_ Ha] & Hba). repeat split; try done.
  eapply Forall_impl; [exact Hba|]. intros d H. by inversion H.
Qed.

Section Invariant.

Variable V : validator_js.
Variable M : mapper.
Variable p : string.
Hypothesis p_unique : p ∈ unique_paths leadSchema.

Lemma save_distinct now newId obj coll doc coll' :
  save M now newId obj coll = Done (doc, coll') →
  distinct_on p coll → distinct_on p coll'.
Proof.
  unfold save. destruct (build M leadSchema obj) as [d|]; [|done].
  destruct (validate leadSchema d); [|done].
  destruct (existsb _ coll) eqn:Hno; [done|].
  intros [= <- <-] Hc. apply distinct_on_insert_last; [done|].
  by apply no_collision_apart.
Qed.

Lemma post_distinct now newId uid body coll :
  distinct_on p coll → distinct_on p (post V M now newId uid body coll).2.
Proof.
  intros Hc. unfold post. destruct (negb _); [exact Hc|].
  destruct (select _ coll); [exact Hc|].
  destruct (save M now newId _ coll) as [[doc coll']|[]] eqn:Hs; try exact Hc.
  exact (save_distinct _ _ _ _ _ _ Hs Hc).
Qed.

Lemma findOneAndUpdate_distinct now id uid upd coll r coll' :
  findOneAndUpdate M now id uid upd coll = Done (r, coll') →
  distinct_on p coll → distinct_on p coll'.
Proof.
  unfold findOneAndUpdate.
  destruct (castObjectId id) as [i|]; [|done].
  destruct (cast_update M leadSchema upd) as [u|]; [|done].
  destruct (validate_update leadSchema u); [|done].
  destruct (select _ coll) as [[[before doc] after]|] eqn:Hsel.
  - destruct (existsb _ (before ++ after)) eqn:Hno; [done|].
    intros [= <- <-] Hc. apply select_split in Hsel as [-> _].
    eapply distinct_on_replace; [exact Hc|]. by apply no_collision_apart.
  - by intros [= <- <-].
Qed.

Lemma put_distinct now uid id body coll :
  distinct_on p coll → distinct_on p (put V M now uid id body coll).2.
Proof.
  intros Hc. unfold put. destruct (negb _); [exact Hc|].
  destruct (put_precheck _ _ _ coll); [exact Hc|].
  destruct (findOneAndUpdate M now id uid _ coll) as [[[doc|] coll']|f] eqn:Hu;
    try exact Hc.
  exact (findOneAndUpdate_distinct _ _ _ _ _ _ _ Hu Hc).
Qed.

Lemma delete_distinct uid id coll :
  distinct_on p coll → distinct_on p (delete_lead uid id coll).2.
Proof.
  intros Hc. unfold delete_lead. destruct (castObjectId id) as [i|]; [|exact Hc].
  destruct (select _ coll) as [[[before doc] after]|] eqn:Hsel; [|exact Hc].
  apply select_split in Hsel as [-> _]. exact (distinct_on_remove _ _ _ _ Hc).
Qed.

Lemma serve_distinct rs coll :
  distinct_on p coll → distinct_on p (serve V M rs coll).
Proof.
  revert coll. induction rs as [|r rs IH]; simpl; intros coll Hc; [done|].
  apply IH. destruct r.
  - by apply post_distinct.
  - by apply put_distinct.
  - by apply delete_distinct.
Qed.

End Invariant.

(** X1. Whatever requests are served from an empty collection, no two
    stored leads have the same address, and none the same identifier:
    the address is unique over all owners, not per owner. *)
Theorem addresses_unique_over_all_owners V M rs :
  distinct_on "email" (serve V M rs []) ∧ distinct_on "_id" (serve V M rs []).
Proof.
  change (unique_paths leadSchema) with ["_id"; "email"] in *.
  split; apply serve_distinct; try exact I;
    change (unique_paths leadSchema) with ["_id"; "email"]; set_solver.
Qed.

(** * Further properties *)

Import JsInteger Reads.

(** ** Integers printed and read back *)

Section PrintedIntegers.

#[local] Open Scope Z_scope.

Lemma digit_char_digit d : 0 ≤ d ≤ 9 → is_digit (digit_char d) = true ∧ digit_value (digit_char d) = d.
Proof.
  intros Hd. unfold is_digit, digit_value, digit_char.
  rewrite nat_ascii_embedding by lia. split; [|lia].
  apply andb_true_iff. rewrite !Nat.leb_le. lia.
Qed.

Lemma digits_spec fuel n acc :
  0 ≤ n < 10 ^ Z.of_nat fuel → (0 < fuel)%nat →
  forallb is_digit acc = true →
  forallb is_digit (digits fuel n acc) = true
  ∧ digits fuel n acc ≠ []
  ∧ fold_left (λ acc a, 10 * acc + digit_value a) (digits fuel n acc) 0
    = fold_left (λ acc a, 10 * acc + digit_value a) acc n.
Proof.
  revert n acc. induction fuel as [|fuel IH]; intros n acc Hn Hf Hacc; [lia|].
  simpl digits.
  assert (0 ≤ n mod 10 ≤ 9) as Hm by (pose proof (Z.mod_pos_bound n 10); lia).
  destruct (digit_char_digit _ Hm) as [Hd Hv].
  destruct (Z.ltb_spec n 10) as [Hlt|Hge].
  - rewrite Z.mod_small in * by lia. simpl. rewrite Hd, Hacc, Hv. done.
  - destruct fuel as [|fuel'].
    { simpl in Hn. lia. }
    destruct (IH (n / 10) (digit_char (n mod 10) :: acc)) as (H1 & H2 & H3).
    + split; [apply Z.div_pos; lia|].
      apply Z.div_lt_upper_bound; [lia|].
      rewrite Nat2Z.inj_succ, Z.pow_succ_r in Hn by lia. lia.
    + lia.
    + simpl. by rewrite Hd, Hacc.
    + split; [done|]. split; [done|]. rewrite H3. simpl. rewrite Hv.
      f_equal. pose proof (Z.div_mod n 10). lia.
Qed.

Lemma digits_of_spec n :
  0 ≤ n →
  forallb is_digit (digits_of n) = true ∧ digits_of n ≠ []
  ∧ digits_value (digits_of n) = n.
Proof.
  intros Hn. unfold digits_of, digits_value.
  apply (digits_spec _ n []); [|lia|done].
  split; [done|]. rewrite Nat2Z.inj_succ, Z2Nat.id by apply Z.log2_nonneg.
  destruct (Z.eq_dec n 0) as [->|Hne]; [done|].
  pose proof (Z.log2_spec n ltac:(lia)) as [_ Hlt].
  eapply Z.lt_le_trans; [exact Hlt|].
  apply Z.pow_le_mono_l. lia.
Qed.

Lemma sign_toString n :
  sign (list_ascii_of_string (toString n))
  = (n <? 0, digits_of (Z.abs n)).
Proof.
  unfold toString. rewrite list_ascii_of_string_of_list_ascii.
  destruct (Z.ltb_spec n 0) as [Hneg|Hpos].
  - simpl. by rewrite Z.abs_neq by lia.
  - rewrite Z.abs_eq by lia.
    destruct (digits_of_spec n Hpos) as (Hd & Hne & _).
    destruct (digits_of n) as [|a r]; [done|]. simpl in *.
    apply andb_true_iff in Hd as [Ha _].
    destruct (digit_not_sign a Ha) as [-> ->]. done.
Qed.

(** An integer printed in decimal is read back by [Number] and by
    [parseInt] as itself. *)
Lemma toString_read n :
  StringToNumber (toString n) = Finite (inject_Z n) ∧ parseInt (toString n) = Some n.
Proof.
  destruct (digits_of_spec (Z.abs n) (Z.abs_nonneg n)) as (Hd & Hne & Hv).
  pose proof (signed_digits_read (toString n) _ _ Hne Hd (sign_toString n)) as H.
  simpl in H. rewrite Hv in H.
  replace (if n <? 0 then - Z.abs n else Z.abs n) with n in H; [done|].
  destruct (Z.ltb_spec n 0); lia.
Qed.

Lemma toString_isInt lo hi n :
  (∀ m, lo = Some m → m ≤ n) → (∀ m, hi = Some m → n ≤ m) →
  isInt lo hi (toString n) = true.
Proof.
  intros Hlo Hhi. unfold isInt. rewrite (proj1 (toString_read n)).
  apply andb_true_iff. split; [apply andb_true_iff; split|].
  - unfold toString.
    destruct (digits_of_spec (Z.abs n) (Z.abs_nonneg n)) as (Hd & Hne & _).
    destruct (Z.ltb_spec n 0) as [Hneg|Hpos].
    + rewrite Z.abs_neq in Hd, Hne by lia. simpl.
      rewrite test_plus_digit, list_ascii_of_string_of_list_ascii.
      destruct (digits_of (- n)) as [|a r]; done.
    + rewrite Z.abs_eq in Hd, Hne by lia.
      destruct (digits_of n) as [|a r] eqn:E; [done|]. simpl in Hd.
      apply andb_true_iff in Hd as [Ha Hr].
      simpl. change (Regex.between 48 57 a) with (is_digit a).
      rewrite (Ascii.eqb_sym "-" a), (Ascii.eqb_sym "+" a).
      destruct (digit_not_sign a Ha) as [-> ->]. simpl. rewrite Ha. simpl.
      rewrite test_star_digit. by rewrite list_ascii_of_string_of_list_ascii.
  - destruct lo as [m|]; [|done]. simpl. apply Qle_bool_iff.
    unfold Qle. simpl. specialize (Hlo m eq_refl). lia.
  - destruct hi as [m|]; [|done]. simpl. apply Qle_bool_iff.
    unfold Qle. simpl. specialize (Hhi m eq_refl). lia.
Qed.

End PrintedIntegers.

(** ** The list route *)

Section Listing.

#[local] Open Scope Z_scope.

Variable E : engine.

Lemma list_request_bounds query :
  validationResult listValidation query = [] →
  1 ≤ page_of query ∧ 1 ≤ limit_of query ≤ 100.
Proof.
  intros [Hp Hl]%listValidation_accepts.
  destruct (parse_or_accepted 1 None (query !! "page") 1 Hp) as (Hp1 & _);
    [lia|lia|done|].
  destruct (parse_or_accepted 1 (Some 100) (query !! "limit") 20 Hl)
    as (Hl1 & Hl2 & _); [lia|lia|by intros m [= <-]|].
  specialize (Hl2 100 eq_refl). done.
Qed.

(** The branches of the list handler. *)
Lemma list_leads_many uid query filters coll data pg :
  list_leads E uid query filters coll = Many data pg →
  validationResult listValidation query = []
  ∧ ∃ q p, buildFilterQuery filters uid = Ok q ∧ selects E q = Some p
           ∧ data = populate E <$> find E p (skip_of query) (limit_of query) coll
           ∧ pg = paginate query (countDocuments p coll).
Proof.
  unfold list_leads. case_bool_decide as Hv; [|done]. cbn [negb].
  destruct (buildFilterQuery filters uid) as [q|] eqn:Hq; [|done].
  destruct (selects E q) as [p|] eqn:Hp; [|done].
  intros [= <- <-]. split; [done|]. exists q, p. by rewrite Hp.
Qed.

Lemma list_leads_selected uid query filters coll q p :
  validationResult listValidation query = [] →
  buildFilterQuery filters uid = Ok q → selects E q = Some p →
  list_leads E uid query filters coll
  = Many (populate E <$> find E p (skip_of query) (limit_of query) coll)
         (paginate query (countDocuments p coll)).
Proof.
  intros Hv Hq Hp. unfold list_leads. rewrite Hv, Hq, Hp.
  by rewrite bool_decide_eq_true_2.
Qed.

Lemma list_leads_throws uid query filters coll :
  validationResult listValidation query = [] →
  buildFilterQuery filters uid = TypeError →
  list_leads E uid query filters coll = Refused 500 "Unable to fetch leads" [].
Proof.
  intros Hv Hq. unfold list_leads. rewrite Hv, Hq. by rewrite bool_decide_eq_true_2.
Qed.

Lemma find_length p skip limit coll :
  (∀ l, length (sort E l) = length l) → 0 ≤ skip → 0 ≤ limit →
  Z.of_nat (length (find E p skip limit coll))
  = Z.max 0 (Z.min limit (countDocuments p coll - skip)).
Proof.
  intros Hs Hk Hl. unfold find, countDocuments.
  rewrite length_take, length_drop, Hs. lia.
Qed.

(** X2. A page of the list holds the leads of its window of the
    sorted result: [limit] of them on every page before the last one,
    those that are left on the last one, and none on a page beyond
    [totalPages], which is answered like any other page; never more
    than 100. *)
Theorem listed_page_size uid query filters coll data pg :
  (∀ l, length (sort E l) = length l) →
  list_leads E uid query filters coll = Many data pg →
  Z.of_nat (length data) = Z.max 0 (Z.min (limit pg) (total pg - (page pg - 1) * limit pg))
  ∧ Z.of_nat (length data) ≤ limit pg ≤ 100
  ∧ (page pg < totalPages pg → Z.of_nat (length data) = limit pg)
  ∧ (page pg = totalPages pg → 1 ≤ Z.of_nat (length data))
  ∧ (totalPages pg < page pg → data = []).
Proof.
  intros Hs (Hv & q & p & Hq & Hp & -> & ->)%list_leads_many.
  destruct (list_request_bounds query Hv) as [Hpage Hlimit].
  pose proof (find_length p (skip_of query) (limit_of query) coll Hs) as Hlen.
  unfold skip_of in *. rewrite length_fmap. simpl.
  fold (page_of query) (limit_of query).
  specialize (Hlen ltac:(nia) ltac:(lia)).
  assert (0 ≤ countDocuments p coll) as Hc by (unfold countDocuments; lia).
  pose proof (ceil_div_bounds (countDocuments p coll) (limit_of query) ltac:(lia)) as Hb.
  split; [done|]. split; [lia|]. split; [|split].
  - intros Hlt. nia.
  - intros Heq. nia.
  - intros Hgt. apply length_zero_iff_nil. rewrite length_fmap.
    apply Nat2Z.inj. rewrite Hlen. nia.
Qed.

Lemma concat_windows {A} (l : list A) (L n : nat) :
  concat ((λ i, take L (drop (i * L) l)) <$> seq 0 n) = take (n * L) l.
Proof.
  induction n as [|n IH]; [done|].
  rewrite seq_S, fmap_app, concat_app, IH. simpl. rewrite app_nil_r.
  rewrite take_take_drop. f_equal. lia.
Qed.

Lemma concat_fmap {A B} (f : A → B) (ls : list (list A)) :
  concat (fmap (M:=list) f <$> ls) = f <$> concat ls.
Proof. induction ls as [|l ls IH]; [done|]. cbn. rewrite IH. by rewrite fmap_app. Qed.


End Listing.

Import Ownership.

(** ** Selecting a document *)

Lemma select_None p (coll : list (gmap string fieldval)) :
  select p coll = None ↔ Forall (λ d, p d = false) coll.
Proof.
  induction coll as [|d coll IH]; simpl; [split; [by constructor|done]|].
  destruct (p d) eqn:Hd.
  - split; [done|]. intros H. inversion H; congruence.
  - destruct (select p coll) as [[[b x] a]|]; simpl.
    + split; [done|]. intros H. inversion H as [|? ? _ Hr]; subst.
      by apply IH in Hr.
    + split; [|done]. intros _. constructor; [done|]. by apply IH.
Qed.

Lemma select_first p (coll : list (gmap string fieldval)) before d after :
  Forall (λ d, p d = false) before → p d = true →
  select p (before ++ d :: after) = Some (before, d, after).
Proof.
  induction before as [|x before IH]; simpl; intros Hb Hd.
  - by rewrite Hd.
  - inversion Hb as [|? ? Hx Hr]; subst. rewrite Hx. by rewrite (IH Hr Hd).
Qed.

Lemma select_before p (coll : list (gmap string fieldval)) before d after :
  select p coll = Some (before, d, after) → Forall (λ d, p d = false) before.
Proof.
  revert before. induction coll as [|x coll IH]; simpl; intros before; [done|].
  destruct (p x) eqn:Hx.
  - intros [= <- <- <-]. constructor.
  - destruct (select p coll) as [[[b y] a]|]; simpl; [|done].
    intros [= <- <- <-]. constructor; [done|]. by apply IH.
Qed.

(** A filter that keeps what [p] selects does not change what [p]
    selects first. *)
Lemma select_filter p o (coll : list (gmap string fieldval)) :
  (∀ d, p d = true → o d = true) →
  (λ '(_, x, _), x) <$> select p (List.filter o coll)
  = (λ '(_, x, _), x) <$> select p coll.
Proof.
  intros Hpo. induction coll as [|d coll IH]; simpl; [done|].
  destruct (p d) eqn:Hd.
  - rewrite (Hpo d Hd). simpl. by rewrite Hd.
  - destruct (o d); simpl; rewrite ?Hd.
    + destruct (select p (List.filter o coll)) as [[[b x] a]|],
               (select p coll) as [[[b' x'] a']|]; simpl in *.
      all: congruence.
    + rewrite IH. by destruct (select p coll) as [[[b' x'] a']|].
Qed.

Lemma by_id_owner_owned i uid d : by_id_owner i uid d = true → owned_by uid d = true.
Proof. unfold by_id_owner, owned_by. by intros [_ H]%andb_true_iff. Qed.

Lemma same_key_id a i : same_key a (FId i) = true ↔ a = FId i.
Proof.
  destruct a as [s|[| |x]|x|t|j|]; simpl; try (split; [done|discriminate]).
  rewrite bool_decide_eq_true. split; congruence.
Qed.

Lemma field_is_id d name i : field_is d name (FId i) = true ↔ d !! name = Some (FId i).
Proof.
  unfold field_is. destruct (d !! name) as [a|]; [|split; done].
  rewrite same_key_id. split; congruence.
Qed.

Lemma same_key_str a s : same_key a (FStr s) = true ↔ a = FStr s.
Proof.
  destruct a as [s'|[| |x]|x|t|j|]; simpl; try (split; [done|discriminate]).
  rewrite bool_decide_eq_true. split; congruence.
Qed.

Lemma field_is_str d name s : field_is d name (FStr s) = true ↔ d !! name = Some (FStr s).
Proof.
  unfold field_is. destruct (d !! name) as [a|]; [|split; done].
  rewrite same_key_str. split; congruence.
Qed.

(** ** Reading one lead, deleting one lead *)

Section Isolation.

Variable E : engine.
Variable V : validator_js.
Variable M : mapper.

(** X5. The answer to a request for one lead, and to a request to
    delete one, is the answer the requester would get if the leads of
    the other users were not in the collection: a lead of somebody
    else is answered like a lead that does not exist. *)
Theorem foreign_leads_read_as_missing uid id coll :
  get_lead E uid id coll = get_lead E uid id (List.filter (owned_by uid) coll)
  ∧ (delete_lead uid id coll).1 = (delete_lead uid id (List.filter (owned_by uid) coll)).1
  ∧ ((∀ d, d ∈ coll → owned_by uid d = false) →
     get_lead E uid id coll ∈ [ Refused 400 "Invalid lead ID format" [];
                                 Refused 404 "Lead not found" [] ]).
Proof.
  unfold get_lead, delete_lead. destruct (castObjectId id) as [i|].
  2:{ repeat split; try done. intros _. set_solver. }
  pose proof (select_filter (by_id_owner i uid) (owned_by uid) coll
                (by_id_owner_owned i uid)) as Hsel.
  split; [|split].
  - destruct (select _ (List.filter _ coll)) as [[[b x] a]|],
             (select _ coll) as [[[b' x'] a']|]; simpl in Hsel; congruence.
  - destruct (select _ (List.filter _ coll)) as [[[b x] a]|],
             (select _ coll) as [[[b' x'] a']|]; simpl in *; congruence.
  - intros Hnone. destruct (select _ coll) as [[[b x] a]|] eqn:Hs; [|set_solver].
    apply select_split in Hs as [-> Hx]. apply by_id_owner_owned in Hx.
    rewrite Hnone in Hx; [done|]. set_solver.
Qed.

End Isolation.

(** ** The request body after the chains *)

Section Sanitized.

Variable body : gmap string string.

Let write (b : gmap string string) (c : chain) : gmap string string :=
  match (run_chain c body).1 with
  | Some v => <[path c := v]> b
  | None => b
  end.

Lemma sanitized_frame chains b k :
  (∀ c, c ∈ chains → path c = k → (run_chain c body).1 = None) →
  fold_left write chains b !! k = b !! k.
Proof.
  revert b. induction chains as [|c chains IH]; intros b Hk; [done|].
  simpl. rewrite IH by (intros c' Hc'; apply Hk; by right).
  unfold write. destruct (decide (path c = k)) as [Heq|Hne].
  - by rewrite (Hk c ltac:(left) Heq).
  - destruct (run_chain c body).1; by rewrite ?lookup_insert_ne.
Qed.

Lemma sanitized_written chains b c :
  NoDup (path <$> chains) → c ∈ chains →
  fold_left write chains b !! path c
  = match (run_chain c body).1 with
    | Some v => Some v
    | None => b !! path c
    end.
Proof.
  revert b. induction chains as [|c0 chains IH]; intros b Hnd Hc.
  { by apply elem_of_nil in Hc. }
  rewrite fmap_cons in Hnd. apply NoDup_cons in Hnd as [Hnotin Hnd]. simpl.
  apply elem_of_cons in Hc as [->|Hc].
  - rewrite sanitized_frame.
    + unfold write. destruct (run_chain c0 body).1; by rewrite ?lookup_insert_eq.
    + intros c' Hc' Heq. exfalso. apply Hnotin. rewrite <- Heq.
      by apply list_elem_of_fmap_2.
  - rewrite (IH _ Hnd Hc). destruct (run_chain c body).1; [done|].
    unfold write. destruct (run_chain c0 body).1; [|done].
    rewrite lookup_insert_ne; [done|]. intros Heq. apply Hnotin. rewrite Heq.
    by apply list_elem_of_fmap_2.
Qed.

End Sanitized.

Lemma leadValidation_paths V :
  path <$> leadValidation V
  = [ "first_name"; "last_name"; "email"; "phone"; "company"; "city"; "state"; "source";
      "status"; "score"; "lead_value"; "is_qualified"; "last_activity_at" ].
Proof. reflexivity. Qed.

Lemma leadValidation_NoDup V : NoDup (path <$> leadValidation V).
Proof. rewrite leadValidation_paths. apply (bool_decide_unpack _). vm_compute. reflexivity. Qed.

(** A member that no chain names reaches the handler as it came. *)
Lemma sanitized_other V body k :
  k ∉ path <$> leadValidation V → sanitized (leadValidation V) body !! k = body !! k.
Proof.
  intros Hk. unfold sanitized. apply sanitized_frame.
  intros c Hc Heq. exfalso. apply Hk. rewrite <- Heq. by apply list_elem_of_fmap_2.
Qed.

(** An optional member that the request lacks is still lacking. *)
Lemma sanitized_optional_absent V body c :
  c ∈ leadValidation V → optional c = true → body !! path c = None →
  sanitized (leadValidation V) body !! path c = None.
Proof.
  intros Hc Ho Hb. unfold sanitized.
  rewrite (sanitized_written body _ _ c (leadValidation_NoDup V) Hc).
  unfold run_chain. by rewrite Hb, Ho.
Qed.

Lemma sanitized_email V body :
  sanitized (leadValidation V) body !! "email"
  = Some (normalizeEmail V (Validation.toString (body !! "email"))).
Proof.
  unfold sanitized.
  rewrite (sanitized_written body _ _
             (Chain "email" false [ Validator (isEmail V) "Please enter a valid email";
                                    Sanitizer (normalizeEmail V) ])
             (leadValidation_NoDup V) ltac:(unfold leadValidation; pick_member)).
  unfold run_chain. simpl. by destruct (body !! "email").
Qed.

(** ** What the writing handlers did, from their answers *)

Lemma build_default M paths obj doc sp :
  build M paths obj = Some doc → NoDup (List.map sp_name paths) →
  sp ∈ paths → obj !! sp_name sp = None →
  doc !! sp_name sp = sp_default sp.
Proof.
  revert doc. induction paths as [|sp0 rest IH]; intros doc Hb Hnd Hsp Hv.
  { by apply elem_of_nil in Hsp. }
  simpl in Hb. destruct (build M rest obj) as [doc0|] eqn:Hrest; simpl in Hb; [|done].
  simpl in Hnd. apply NoDup_cons in Hnd as [Hnotin Hnd].
  assert (∀ k, k ∉ List.map sp_name rest → doc0 !! k = None) as Hout.
  { clear -Hrest. revert doc0 Hrest. induction rest as [|s rest IH]; simpl; intros doc0 Hb k Hk.
    - by injection Hb as <-.
    - destruct (build M rest obj) as [d|]; simpl in Hb; [|done].
      apply not_elem_of_cons in Hk as [Hne Hk]. specialize (IH d eq_refl k Hk).
      destruct (obj !! sp_name s) as [v|].
      + destruct (cast M s v); simpl in Hb; [|done]. injection Hb as <-.
        by rewrite lookup_insert_ne.
      + injection Hb as <-. destruct (sp_default s); by rewrite ?lookup_insert_ne. }
  apply elem_of_cons in Hsp as [->|Hsp].
  - rewrite Hv in Hb. injection Hb as <-.
    destruct (sp_default sp0); [by rewrite lookup_insert_eq|]. by apply Hout.
  - assert (sp_name sp0 ≠ sp_name sp) as Hne.
    { intros Heq. apply Hnotin. rewrite Heq. apply list_elem_of_In, in_map.
      by apply list_elem_of_In. }
    rewrite <- (IH doc0 eq_refl Hnd Hsp Hv).
    destruct (obj !! sp_name sp0) as [v0|].
    + destruct (cast M sp0 v0); simpl in Hb; [|done]. injection Hb as <-.
      by rewrite lookup_insert_ne.
    + injection Hb as <-. destruct (sp_default sp0); by rewrite ?lookup_insert_ne.
Qed.

Lemma save_done M now newId obj coll doc coll' :
  save M now newId obj coll = Done (doc, coll') →
  ∃ doc0, build M leadSchema obj = Some doc0 ∧ validate leadSchema doc0 = true
          ∧ doc = <["updated_at" := FDate now]>
                    (<["created_at" := FDate now]> (<["_id" := FId newId]> doc0))
          ∧ existsb (collides leadSchema doc) coll = false
          ∧ coll' = (coll ++ [doc])%list.
Proof.
  unfold save. destruct (build M leadSchema obj) as [doc0|]; [|done].
  destruct (validate leadSchema doc0) eqn:Hv; [|done].
  destruct (existsb _ coll) eqn:Hno; [done|].
  intros [= <- <-]. by exists doc0.
Qed.

Lemma post_created V M now newId uid body coll st ok msg errs doc coll' :
  post V M now newId uid body coll = (Json st ok msg errs (Some doc), coll') →
  validationResult (leadValidation V) body = []
  ∧ select (by_email_owner (sanitized (leadValidation V) body !! "email") uid None) coll = None
  ∧ save M now newId (<["user_id" := FId uid]> (FStr <$> sanitized (leadValidation V) body)) coll
    = Done (doc, coll')
  ∧ st = 201%nat ∧ ok = true ∧ msg = "Lead created successfully" ∧ errs = [].
Proof.
  unfold post. case_bool_decide as Hv; [|discriminate]. cbn [negb].
  destruct (select _ coll) eqn:Hs; [discriminate|].
  destruct (save M now newId _ coll) as [[d c]|[]] eqn:Hsave; try discriminate.
  by intros [= <- <- <- <- <- <-].
Qed.

Lemma findOneAndUpdate_done M now id uid upd coll doc' coll' :
  findOneAndUpdate M now id uid upd coll = Done (Some doc', coll') →
  ∃ i u before doc after,
    castObjectId id = Some i ∧ cast_update M leadSchema upd = Some u
    ∧ validate_update leadSchema u = true
    ∧ select (by_id_owner i uid) coll = Some (before, doc, after)
    ∧ doc' = <["updated_at" := FDate now]> (u ∪ doc)
    ∧ existsb (collides leadSchema doc') (before ++ after) = false
    ∧ coll' = (before ++ doc' :: after)%list.
Proof.
  unfold findOneAndUpdate.
  destruct (castObjectId id) as [i|]; [|done].
  destruct (cast_update M leadSchema upd) as [u|]; [|done].
  destruct (validate_update leadSchema u) eqn:Hv; [|done].
  destruct (select _ coll) as [[[before doc] after]|] eqn:Hsel; [|done].
  destruct (existsb _ (before ++ after)) eqn:Hno; [done|].
  intros [= <- <-]. by exists i, u, before, doc, after.
Qed.

Lemma put_updated V M now uid id body coll st ok msg errs doc' coll' :
  put V M now uid id body coll = (Json st ok msg errs (Some doc'), coll') →
  validationResult (leadValidation V) body = []
  ∧ put_precheck uid id (sanitized (leadValidation V) body) coll = None
  ∧ findOneAndUpdate M now id uid
      (<["updated_at" := FDate now]> (FStr <$> sanitized (leadValidation V) body)) coll
    = Done (Some doc', coll')
  ∧ st = 200%nat ∧ ok = true ∧ msg = "Lead updated successfully" ∧ errs = [].
Proof.
  unfold put. case_bool_decide as Hv; [|discriminate]. cbn [negb].
  destruct (put_precheck _ _ _ coll) as [r|] eqn:Hp.
  { unfold put_precheck in Hp. destruct (_ !! "email") as [e|]; [|done].
    case_bool_decide; [done|]. destruct (castObjectId id); [|by injection Hp as <-].
    destruct (select _ coll); [|done]. by injection Hp as <-. }
  destruct (findOneAndUpdate M now id uid _ coll) as [[[d|] c]|f] eqn:Hu.
  - by intros [= <- <- <- <- <- <-].
  - discriminate.
  - by destruct f.
Qed.

(** ** Casting an update *)

Lemma cast_update_absent M paths upd u k :
  cast_update M paths upd = Some u → upd !! k = None → u !! k = None.
Proof.
  revert u. induction paths as [|sp rest IH]; simpl; intros u Hu Hk.
  { by injection Hu as <-. }
  destruct (cast_update M rest upd) as [u0|]; simpl in Hu; [|done].
  specialize (IH u0 eq_refl Hk).
  destruct (upd !! sp_name sp) as [v|] eqn:Hv; [|by injection Hu as <-].
  destruct (cast M sp v); simpl in Hu; [|done]. injection Hu as <-.
  rewrite lookup_insert_ne; [done|]. congruence.
Qed.

Lemma cast_update_lookup M paths upd u sp v :
  cast_update M paths upd = Some u → NoDup (List.map sp_name paths) →
  sp ∈ paths → upd !! sp_name sp = Some v →
  ∃ v', cast M sp v = Some v' ∧ u !! sp_name sp = Some v'.
Proof.
  revert u. induction paths as [|sp0 rest IH]; intros u Hu Hnd Hsp Hv.
  { by apply elem_of_nil in Hsp. }
  simpl in Hu. destruct (cast_update M rest upd) as [u0|] eqn:Hrest; simpl in Hu; [|done].
  simpl in Hnd. apply NoDup_cons in Hnd as [Hnotin Hnd].
  apply elem_of_cons in Hsp as [->|Hsp].
  - rewrite Hv in Hu. destruct (cast M sp0 v) as [v'|]; simpl in Hu; [|done].
    injection Hu as <-. exists v'. by rewrite lookup_insert_eq.
  - destruct (IH u0 eq_refl Hnd Hsp Hv) as (v' & Hc & Hl).
    exists v'. split; [done|].
    assert (sp_name sp0 ≠ sp_name sp) as Hne.
    { intros Heq. apply Hnotin. rewrite Heq. apply list_elem_of_In, in_map.
      by apply list_elem_of_In. }
    destruct (upd !! sp_name sp0) as [v0|]; [|by injection Hu as <-].
    destruct (cast M sp0 v0); simpl in Hu; [|done]. injection Hu as <-.
    by rewrite lookup_insert_ne.
Qed.

Lemma cast_update_fails M paths upd sp v :
  sp ∈ paths → upd !! sp_name sp = Some v → cast M sp v = None →
  cast_update M paths upd = None.
Proof.
  induction paths as [|sp0 rest IH]; intros Hsp Hv Hc.
  { by apply elem_of_nil in Hsp. }
  simpl. apply elem_of_cons in Hsp as [->|Hsp].
  - destruct (cast_update M rest upd); simpl; [|done]. by rewrite Hv, Hc.
  - by rewrite (IH Hsp Hv Hc).
Qed.

Lemma build_fails M paths obj sp v :
  sp ∈ paths → obj !! sp_name sp = Some v → cast M sp v = None →
  build M paths obj = None.
Proof.
  induction paths as [|sp0 rest IH]; intros Hsp Hv Hc.
  { by apply elem_of_nil in Hsp. }
  simpl. apply elem_of_cons in Hsp as [->|Hsp].
  - destruct (build M rest obj); simpl; [|done]. by rewrite Hv, Hc.
  - by rewrite (IH Hsp Hv Hc).
Qed.

Lemma cast_update_outside M paths upd u k :
  cast_update M paths upd = Some u → k ∉ List.map sp_name paths → u !! k = None.
Proof.
  revert u. induction paths as [|sp rest IH]; simpl; intros u Hu Hk.
  { by injection Hu as <-. }
  destruct (cast_update M rest upd) as [u0|]; simpl in Hu; [|done].
  apply not_elem_of_cons in Hk as [Hne Hk]. specialize (IH u0 eq_refl Hk).
  destruct (upd !! sp_name sp) as [v|]; [|by injection Hu as <-].
  destruct (cast M sp v); simpl in Hu; [|done]. injection Hu as <-.
  by rewrite lookup_insert_ne.
Qed.

Lemma not_duplicate_answer st ok msg errs data :
  msg ∉ [ "Another lead with this email already exists";
          "A lead with this email already exists" ] →
  Json st ok msg errs data ∉ duplicate_answers.
Proof.
  intros Hmsg Hin. apply Hmsg. unfold duplicate_answers, refuse in Hin.
  apply elem_of_cons in Hin as [[= _ _ -> _ _]|Hin]; [pick_member|].
  apply elem_of_cons in Hin as [[= _ _ -> _ _]|Hin]; [pick_member|].
  by apply elem_of_nil in Hin.
Qed.

(** In a collection with distinct values of [p], a document is apart
    from all the others. *)
Lemma distinct_on_split p before doc after :
  distinct_on p (before ++ doc :: after) → Forall (apart p doc) (before ++ after).
Proof.
  rewrite distinct_on_app. simpl. intros (_ & [Ha _] & Hb).
  apply Forall_app. split; [|done].
  eapply Forall_impl; [exact Hb|]. intros d Hd. apply apart_sym. by inversion Hd.
Qed.

Lemma apart_field_is p doc d v :
  apart p doc d → doc !! p = Some v → same_key v v = true →
  (∀ a, same_key a v = true → a = v) → field_is d p v = false.
Proof.
  intros Hap Hdoc Hrefl Hinj. unfold field_is. destruct (d !! p) as [b|] eqn:Hb; [|done].
  destruct (same_key b v) eqn:Hk; [|done].
  apply Hinj in Hk as ->. by rewrite (Hap v v Hdoc Hb) in Hrefl.
Qed.

Lemma apart_id p doc d i :
  apart p doc d → doc !! p = Some (FId i) → field_is d p (FId i) = false.
Proof.
  intros Hap Hdoc. apply (apart_field_is p doc d (FId i) Hap Hdoc).
  - by apply same_key_id.
  - intros a. by apply same_key_id.
Qed.

Lemma apart_str p doc d s :
  apart p doc d → doc !! p = Some (FStr s) → field_is d p (FStr s) = false.
Proof.
  intros Hap Hdoc. apply (apart_field_is p doc d (FStr s) Hap Hdoc).
  - by apply same_key_str.
  - intros a. by apply same_key_str.
Qed.

(** ** Whose leads a request can touch *)

Section Writes.

Variable E : engine.
Variable V : validator_js.
Variable M : mapper.

Lemma post_collection now newId uid body coll :
  (post V M now newId uid body coll).2 = coll
  ∨ ∃ doc, (post V M now newId uid body coll).2 = (coll ++ [doc])%list.
Proof.
  unfold post. destruct (negb _); [by left|].
  destruct (select _ coll); [by left|].
  destruct (save M now newId _ coll) as [[doc coll']|[]] eqn:Hs; try by left.
  apply save_done in Hs as (doc0 & _ & _ & _ & _ & ->). right. by exists doc.
Qed.

Lemma put_collection now uid id body coll :
  (put V M now uid id body coll).2 = coll
  ∨ ∃ i before doc doc' after,
      coll = (before ++ doc :: after)%list ∧ by_id_owner i uid doc = true
      ∧ (put V M now uid id body coll).2 = (before ++ doc' :: after)%list.
Proof.
  unfold put. destruct (negb _); [by left|].
  destruct (put_precheck _ _ _ coll); [by left|].
  destruct (findOneAndUpdate M now id uid _ coll) as [[[doc'|] coll']|f] eqn:Hu;
    try by left.
  apply findOneAndUpdate_done in Hu
    as (i & u & before & doc0 & after & _ & _ & _ & Hsel & _ & _ & ->).
  apply select_split in Hsel as [-> Hx]. right. by exists i, before, doc0, doc', after.
Qed.

(** X6. No request deletes or alters a lead that its requester does
    not own: every such lead of the collection is in the collection
    after the request, as it was. *)
Theorem foreign_leads_untouched r coll d :
  d ∈ coll → owned_by (requester r) d = false → d ∈ (handle V M r coll).2.
Proof.
  intros Hd Ho. destruct r as [now newId uid body|now uid id body|uid id]; simpl in Ho.
  - change (d ∈ (post V M now newId uid body coll).2).
    destruct (post_collection now newId uid body coll) as [->|[doc ->]]; set_solver.
  - change (d ∈ (put V M now uid id body coll).2).
    destruct (put_collection now uid id body coll)
      as [->|(i & before & doc & doc' & after & -> & Hx & ->)]; [done|].
    apply by_id_owner_owned in Hx.
    rewrite !elem_of_app, !elem_of_cons in *.
    destruct Hd as [?|[->|?]]; [tauto|congruence|tauto].
  - change (d ∈ (delete_lead uid id coll).2).
    unfold delete_lead. destruct (castObjectId id) as [i|]; [|done].
    destruct (select _ coll) as [[[before doc] after]|] eqn:Hsel; [|done].
    apply select_split in Hsel as [-> Hx]. apply by_id_owner_owned in Hx.
    simpl. rewrite !elem_of_app, !elem_of_cons in *.
    destruct Hd as [?|[->|?]]; [tauto|congruence|tauto].
Qed.

(** Reads a member of a document through the stamps put on it. *)
Ltac stamps := repeat (rewrite lookup_insert_eq || (rewrite lookup_insert_ne by done)).

Lemma unique_paths_apart doc (others : list (gmap string fieldval)) :
  existsb (collides leadSchema doc) others = false →
  Forall (λ d, apart "email" doc d ∧ apart "_id" doc d) others.
Proof.
  intros Hno.
  pose proof (no_collision_apart doc others "email" Hno
                ltac:(change (unique_paths leadSchema) with ["_id"; "email"]; set_solver)) as He.
  pose proof (no_collision_apart doc others "_id" Hno
                ltac:(change (unique_paths leadSchema) with ["_id"; "email"]; set_solver)) as Hi.
  rewrite Forall_forall in *. intros d Hd. split; [by apply He|by apply Hi].
Qed.

(** X7. The lead a create request stores, when it is answered 201 and
    its body names nothing but paths of the schema (so no [_id],
    [created_at] or [updated_at] of its own): it is added at the end
    of the collection, under the identifier it was given and stamped
    with the time of the request; it belongs to the requester,
    whatever [user_id] the body carries; its address is the
    normalized address of the body, lower-cased and trimmed; the
    optional fields the body lacks take the defaults of the schema;
    and no lead stored before has its address or its identifier. *)
Theorem created_lead now newId uid body coll st ok msg errs doc coll' :
  post V M now newId uid body coll = (Json st ok msg errs (Some doc), coll') →
  Agreement.on_schema_paths body →
  st = 201%nat ∧ coll' = (coll ++ [doc])%list
  ∧ doc !! "_id" = Some (FId newId)
  ∧ doc !! "user_id" = Some (FId uid)
  ∧ doc !! "created_at" = Some (FDate now)
  ∧ doc !! "updated_at" = Some (FDate now)
  ∧ doc !! "email"
    = Some (FStr (trim (toLowerCase
              (normalizeEmail V (Validation.toString (body !! "email"))))))
  ∧ (body !! "status" = None → doc !! "status" = Some (FStr "new"))
  ∧ (body !! "score" = None → doc !! "score" = Some (FNum (Finite 0)))
  ∧ (body !! "lead_value" = None → doc !! "lead_value" = Some (FNum (Finite 0)))
  ∧ (body !! "is_qualified" = None → doc !! "is_qualified" = Some (FBool false))
  ∧ (body !! "last_activity_at" = None → doc !! "last_activity_at" = Some FNull)
  ∧ Forall (λ d, apart "email" doc d ∧ apart "_id" doc d) coll.
Proof.
  intros (Hv & _ & Hs & -> & _)%post_created _.
  apply save_done in Hs as (doc0 & Hb & _ & -> & Hno & ->).
  set (obj := <["user_id" := FId uid]> (FStr <$> sanitized (leadValidation V) body)) in *.
  assert (∀ name c sp,
            List.find (λ c, String.eqb (path c) name) (leadValidation V) = Some c →
            optional c = true →
            List.find (λ sp, String.eqb (sp_name sp) name) leadSchema = Some sp →
            name ≠ "user_id" → body !! name = None →
            doc0 !! name = sp_default sp) as Hdef.
  { intros name c sp [Hc Hcn%String.eqb_eq]%find_some Ho
           [Hsp Hspn%String.eqb_eq]%find_some Hne Hbody.
    apply list_elem_of_In in Hc, Hsp. rewrite <- Hspn.
    apply (build_default M leadSchema obj doc0 sp Hb leadSchema_names_NoDup Hsp).
    unfold obj. rewrite Hspn, lookup_insert_ne by done. rewrite lookup_fmap, <- Hcn.
    rewrite (sanitized_optional_absent V body c Hc Ho); [done|]. by rewrite Hcn. }
  split; [done|]. split; [done|]. split; [by stamps|]. split.
  { rewrite !lookup_insert_ne by done.
    destruct (build_lookup M leadSchema obj doc0
                (SchemaPath "user_id" TObjectId true false false false
                            None None None None None None) (FId uid) Hb
                leadSchema_names_NoDup ltac:(unfold leadSchema; pick_member)
                ltac:(apply lookup_insert_eq)) as (v' & Hc & Hl).
    by injection Hc as <-. }
  split; [by stamps|]. split; [by stamps|]. split.
  { rewrite !lookup_insert_ne by done.
    destruct (build_lookup M leadSchema obj doc0 email_path
                (FStr (normalizeEmail V (Validation.toString (body !! "email")))) Hb
                leadSchema_names_NoDup ltac:(unfold leadSchema; pick_member))
      as (v' & Hc & Hl).
    { unfold obj. rewrite lookup_insert_ne by done.
      by rewrite lookup_fmap, sanitized_email. }
    by injection Hc as <-. }
  repeat split.
  - intros Hbody. rewrite !lookup_insert_ne by done.
    by apply (Hdef "status" _ _ eq_refl eq_refl eq_refl).
  - intros Hbody. rewrite !lookup_insert_ne by done.
    by apply (Hdef "score" _ _ eq_refl eq_refl eq_refl).
  - intros Hbody. rewrite !lookup_insert_ne by done.
    by apply (Hdef "lead_value" _ _ eq_refl eq_refl eq_refl).
  - intros Hbody. rewrite !lookup_insert_ne by done.
    by apply (Hdef "is_qualified" _ _ eq_refl eq_refl eq_refl).
  - intros Hbody. rewrite !lookup_insert_ne by done.
    by apply (Hdef "last_activity_at" _ _ eq_refl eq_refl eq_refl).
  - by apply unique_paths_apart.
Qed.

(** X8. A lead that was just created is read back by its owner, under
    its identifier, as it was stored; the same request by any other
    user is answered 404 "Lead not found". *)
Theorem created_lead_is_read_back now newId uid body coll st ok msg errs doc coll' id :
  post V M now newId uid body coll = (Json st ok msg errs (Some doc), coll') →
  castObjectId id = Some newId →
  get_lead E uid id coll' = One (populate E doc)
  ∧ ∀ other, other ≠ uid → get_lead E other id coll' = Refused 404 "Lead not found" [].
Proof.
  intros (Hv & _ & Hs & -> & _)%post_created Hid.
  apply save_done in Hs as (doc0 & Hb & _ & Hdoc & Hno & ->).
  set (obj := <["user_id" := FId uid]> (FStr <$> sanitized (leadValidation V) body)) in *.
  assert (doc !! "_id" = Some (FId newId)) as Hi
    by (rewrite Hdoc; by rewrite !lookup_insert_ne, lookup_insert_eq by done).
  assert (doc !! "user_id" = Some (FId uid)) as Hu.
  { rewrite Hdoc, !lookup_insert_ne by done.
    destruct (build_lookup M leadSchema obj doc0
                (SchemaPath "user_id" TObjectId true false false false
                            None None None None None None) (FId uid) Hb
                leadSchema_names_NoDup ltac:(unfold leadSchema; pick_member)
                ltac:(apply lookup_insert_eq)) as (v' & Hc & Hl).
    by injection Hc as <-. }
  assert (∀ u, Forall (λ d, by_id_owner newId u d = false) coll) as Hcoll.
  { intros u. apply unique_paths_apart in Hno. rewrite Forall_forall in *.
    intros d Hd. destruct (Hno d Hd) as [_ Hap]. unfold by_id_owner.
    by rewrite (apart_id "_id" doc d newId Hap Hi). }
  unfold get_lead. rewrite Hid. split.
  - rewrite (select_first _ coll coll doc []); [done|apply Hcoll|].
    unfold by_id_owner. apply andb_true_iff. split; by apply field_is_id.
  - intros other Hne.
    rewrite (proj2 (select_None (by_id_owner newId other) (coll ++ [doc]))); [done|].
    apply Forall_app. split; [apply Hcoll|]. constructor; [|done].
    unfold by_id_owner. apply andb_false_iff. right.
    destruct (field_is doc "user_id" (FId other)) eqn:Hf; [|done].
    apply field_is_id in Hf. congruence.
Qed.

(** X9. A delete request answered 204 removed the one lead it
    addressed, a lead of the requester, and nothing else; in a
    collection with distinct identifiers the lead is gone: the same
    request again, and a request to read it, are answered 404. *)
Theorem deleted_lead_is_gone uid id coll st coll' :
  delete_lead uid id coll = (NoContent st, coll') →
  distinct_on "_id" coll →
  st = 204%nat
  ∧ (∃ i before doc after,
       castObjectId id = Some i ∧ coll = (before ++ doc :: after)%list
       ∧ coll' = (before ++ after)%list
       ∧ doc !! "_id" = Some (FId i) ∧ owned_by uid doc = true)
  ∧ delete_lead uid id coll' = (refuse 404 "Lead not found", coll')
  ∧ get_lead E uid id coll' = Refused 404 "Lead not found" [].
Proof.
  unfold delete_lead, get_lead. destruct (castObjectId id) as [i|]; [|done].
  destruct (select _ coll) as [[[before doc] after]|] eqn:Hsel; [|done].
  intros [= <- <-] Hdist.
  pose proof (select_before _ _ _ _ _ Hsel) as Hbefore.
  apply select_split in Hsel as [-> Hx].
  pose proof Hx as [Hid Hown]%andb_true_iff. apply field_is_id in Hid.
  assert (select (by_id_owner i uid) (before ++ after) = None) as Hnone.
  { apply select_None, Forall_app. split; [done|].
    apply distinct_on_split in Hdist. apply Forall_app in Hdist as [_ Hafter].
    eapply Forall_impl; [exact Hafter|]. intros d Hap. unfold by_id_owner.
    by rewrite (apart_id "_id" doc d i Hap Hid). }
  rewrite Hnone. repeat split. by exists i, before, doc, after.
Qed.

(** X10. An update answered 200 replaced the one lead it addressed, a
    lead of the requester, in its place in the collection; the new
    version is stamped with the time of the request and keeps, from
    the old one, every member the body does not name: the identifier,
    the creation time, the owner and the optional fields left out. *)
Theorem updated_lead_keeps_the_rest now uid id body coll st ok msg errs doc' coll' :
  put V M now uid id body coll = (Json st ok msg errs (Some doc'), coll') →
  st = 200%nat
  ∧ ∃ i before doc after,
      castObjectId id = Some i ∧ coll = (before ++ doc :: after)%list
      ∧ coll' = (before ++ doc' :: after)%list
      ∧ doc !! "_id" = Some (FId i) ∧ owned_by uid doc = true
      ∧ doc' !! "updated_at" = Some (FDate now)
      ∧ ∀ k, body !! k = None →
             k ∉ [ "first_name"; "last_name"; "email"; "phone"; "company"; "city";
                   "state"; "source"; "updated_at" ] →
             doc' !! k = doc !! k.
Proof.
  intros (Hv & _ & Hu & -> & _)%put_updated. split; [done|].
  apply findOneAndUpdate_done in Hu
    as (i & u & before & doc & after & Hid & Hcast & _ & Hsel & -> & _ & ->).
  apply select_split in Hsel as [-> Hx].
  pose proof Hx as [Hi Hown]%andb_true_iff. apply field_is_id in Hi.
  exists i, before, doc, after. repeat split; try done.
  { by rewrite lookup_insert_eq. }
  intros k Hbody Hk.
  assert ("updated_at" ≠ k) as Hstamp by (intros <-; apply Hk; pick_member).
  rewrite lookup_insert_ne by done.
  assert (sanitized (leadValidation V) body !! k = None) as Hsan.
  { rewrite <- Hbody. unfold sanitized. apply sanitized_frame.
    intros c Hc Hpath. unfold run_chain. rewrite Hpath, Hbody.
    assert (optional c = true) as ->; [|done].
    unfold leadValidation in Hc.
    repeat (apply elem_of_cons in Hc as [->|Hc];
            [first [reflexivity | simpl in Hpath; subst k; exfalso; apply Hk; pick_member]|]).
    by apply elem_of_nil in Hc. }
  apply lookup_union_r. apply (cast_update_absent M leadSchema _ u k Hcast).
  rewrite lookup_insert_ne by done. by rewrite lookup_fmap, Hsan.
Qed.

(** X11. The update route applies a [user_id] given in the body: after
    an update answered 200 the lead belongs to the user the body
    names, and when that is another user the requester has lost it, a
    request to read it being answered 404. *)
Theorem update_hands_the_lead_over now uid id body coll st ok msg errs doc' coll' s :
  put V M now uid id body coll = (Json st ok msg errs (Some doc'), coll') →
  body !! "user_id" = Some s →
  ∃ o, castObjectId s = Some o ∧ doc' !! "user_id" = Some (FId o)
       ∧ (o ≠ uid → distinct_on "_id" coll →
          get_lead E uid id coll' = Refused 404 "Lead not found" []).
Proof.
  intros (Hv & _ & Hu & -> & _)%put_updated Hbody.
  apply findOneAndUpdate_done in Hu
    as (i & u & before & doc & after & Hid & Hcast & _ & Hsel & -> & _ & ->).
  assert (sanitized (leadValidation V) body !! "user_id" = Some s) as Hsan.
  { rewrite sanitized_other; [done|]. rewrite leadValidation_paths.
    apply (bool_decide_eq_false_1 _). reflexivity. }
  destruct (cast_update_lookup M leadSchema _ u
              (SchemaPath "user_id" TObjectId true false false false
                          None None None None None None) (FStr s) Hcast
              leadSchema_names_NoDup ltac:(unfold leadSchema; pick_member))
    as (v' & Hc & Hl).
  { cbn [sp_name]. rewrite lookup_insert_ne by done. by rewrite lookup_fmap, Hsan. }
  unfold cast in Hc. cbn [sp_type sp_name] in Hc, Hl.
  destruct (castObjectId s) as [o|]; [|done]. injection Hc as <-.
  exists o. split; [done|].
  assert ((<["updated_at" := FDate now]> (u ∪ doc)) !! "user_id" = Some (FId o)) as Hnew.
  { rewrite lookup_insert_ne by done. by apply lookup_union_Some_l. }
  split; [done|]. intros Hne Hdist.
  pose proof (select_before _ _ _ _ _ Hsel) as Hbefore.
  apply select_split in Hsel as [-> Hx].
  pose proof Hx as [Hi Hown]%andb_true_iff. apply field_is_id in Hi.
  unfold get_lead. rewrite Hid.
  rewrite (proj2 (select_None (by_id_owner i uid) _)); [done|].
  apply Forall_app. split; [done|]. constructor.
  - unfold by_id_owner. apply andb_false_iff. right.
    destruct (field_is (<["updated_at" := FDate now]> (u ∪ doc)) "user_id" (FId uid))
      eqn:Hf; [|done].
    apply field_is_id in Hf. congruence.
  - apply distinct_on_split in Hdist. apply Forall_app in Hdist as [_ Hafter].
    eapply Forall_impl; [exact Hafter|]. intros d Hap. unfold by_id_owner.
    by rewrite (apart_id "_id" doc d i Hap Hi).
Qed.

(** X12. An update that keeps the address of the lead it addresses is
    never answered as a duplicate, by neither of the two messages,
    when the addresses and the identifiers of the collection are
    distinct: the pre-check leaves the lead itself out, and the unique
    index does not count the lead against itself. *)
Theorem update_keeping_the_address now uid id body coll i before doc after :
  distinct_on "email" coll → distinct_on "_id" coll →
  castObjectId id = Some i →
  select (by_id_owner i uid) coll = Some (before, doc, after) →
  doc !! "email"
  = Some (FStr (trim (toLowerCase
            (normalizeEmail V (Validation.toString (body !! "email")))))) →
  (put V M now uid id body coll).1 ∉ duplicate_answers.
Proof.
  intros Hde Hdi Hid Hsel Hmail.
  set (e := normalizeEmail V (Validation.toString (body !! "email"))) in *.
  pose proof Hsel as [Hcoll Hx]%select_split. subst coll.
  pose proof Hx as [Hi Hown]%andb_true_iff. apply field_is_id in Hi.
  apply distinct_on_split in Hde, Hdi.
  assert (put_precheck uid id (sanitized (leadValidation V) body) (before ++ doc :: after)
          = None) as Hpre.
  { unfold put_precheck. rewrite sanitized_email. fold e.
    case_bool_decide; [done|]. rewrite Hid.
    rewrite (proj2 (select_None _ _)); [done|].
    assert (∀ d, apart "email" doc d →
                 by_email_owner (Some e) uid (Some i) d = false) as Hother.
    { intros d Hap. unfold by_email_owner.
      change (setters email_path e) with (trim (toLowerCase e)).
      by rewrite (apart_str "email" doc d _ Hap Hmail). }
    apply Forall_app in Hde as [Hb Ha].
    apply Forall_app. split; [by eapply Forall_impl|].
    constructor; [|by eapply Forall_impl].
    unfold by_email_owner. rewrite (proj2 (field_is_id doc "_id" i) Hi).
    by rewrite andb_false_r. }
  unfold put. destruct (negb _).
  { apply not_duplicate_answer. apply (bool_decide_eq_false_1 _). reflexivity. }
  rewrite Hpre. unfold findOneAndUpdate. rewrite Hid.
  destruct (cast_update M leadSchema _) as [u|] eqn:Hcast.
  2:{ apply not_duplicate_answer. apply (bool_decide_eq_false_1 _). reflexivity. }
  destruct (validate_update leadSchema u).
  2:{ apply not_duplicate_answer. apply (bool_decide_eq_false_1 _). reflexivity. }
  rewrite Hsel.
  assert (existsb (collides leadSchema (<["updated_at" := FDate now]> (u ∪ doc)))
                  (before ++ after) = false) as ->.
  2:{ apply not_duplicate_answer. apply (bool_decide_eq_false_1 _). reflexivity. }
  apply not_true_iff_false. intros (d & Hd%list_elem_of_In & Hcol)%existsb_exists.
  rewrite Forall_forall in Hde, Hdi.
  specialize (Hde d Hd). specialize (Hdi d Hd).
  assert ((<["updated_at" := FDate now]> (u ∪ doc)) !! "_id" = Some (FId i)) as Hnewid.
  { rewrite lookup_insert_ne by done. rewrite lookup_union_r; [done|].
    apply (cast_update_outside M leadSchema _ u "_id" Hcast).
    apply (bool_decide_eq_false_1 _). reflexivity. }
  assert ((<["updated_at" := FDate now]> (u ∪ doc)) !! "email"
          = Some (FStr (trim (toLowerCase e)))) as Hnewmail.
  { rewrite lookup_insert_ne by done. apply lookup_union_Some_l.
    destruct (cast_update_lookup M leadSchema _ u email_path (FStr e) Hcast
                leadSchema_names_NoDup ltac:(unfold leadSchema; pick_member))
      as (v' & Hc & Hl).
    - cbn [sp_name email_path]. rewrite lookup_insert_ne by done.
      by rewrite lookup_fmap, sanitized_email.
    - by injection Hc as <-. }
  unfold collides in Hcol. change (unique_paths leadSchema) with ["_id"; "email"] in Hcol.
  cbn [existsb] in Hcol. rewrite Hnewid, Hnewmail in Hcol.
  destruct (d !! "_id") as [a|] eqn:Ha.
  { rewrite (Hdi _ _ Hi Ha) in Hcol.
    destruct (d !! "email") as [b|] eqn:Hb; [|done].
    by rewrite (Hde _ _ Hmail Hb) in Hcol. }
  destruct (d !! "email") as [b|] eqn:Hb; [|done].
  by rewrite (Hde _ _ Hmail Hb) in Hcol.
Qed.

(** X13. A value of the body that passes the validation chains but
    that the schema cannot cast to the type of its path: the create
    route answers 500 "Unable to create lead", and the update route
    answers 400 "Invalid lead ID format", whatever the identifier of
    the request is; neither changes the collection. *)
Theorem uncastable_value_answers now newId uid id body coll sp s :
  validationResult (leadValidation V) body = [] →
  sp ∈ leadSchema → sp_name sp ≠ "user_id" →
  sanitized (leadValidation V) body !! sp_name sp = Some s →
  cast M sp (FStr s) = None →
  (put_precheck uid id (sanitized (leadValidation V) body) coll = None →
   put V M now uid id body coll = (refuse 400 "Invalid lead ID format", coll))
  ∧ (select (by_email_owner (sanitized (leadValidation V) body !! "email") uid None) coll
     = None →
     post V M now newId uid body coll = (refuse 500 "Unable to create lead", coll)).
Proof.
  intros Hv Hsp Hne Hs Hc.
  assert (sp_name sp ≠ "updated_at") as Hstamp.
  { intros Heq. assert (sp_name sp ∈ List.map sp_name leadSchema) as Hin
      by (apply list_elem_of_In, in_map; by apply list_elem_of_In).
    rewrite Heq in Hin. revert Hin. apply (bool_decide_eq_false_1 _). reflexivity. }
  split.
  - intros Hpre.
    apply (put_update_failed V M now uid id body coll CastError Hv Hpre).
    unfold findOneAndUpdate.
    rewrite (cast_update_fails M leadSchema _ sp (FStr s) Hsp); [by destruct (castObjectId id)| |done].
    rewrite lookup_insert_ne by done. by rewrite lookup_fmap, Hs.
  - intros Hpre.
    apply (post_save_failed V M now newId uid body coll ValidationError Hv Hpre).
    unfold save.
    rewrite (build_fails M leadSchema _ sp (FStr s) Hsp); [done| |done].
    rewrite lookup_insert_ne by done. by rewrite lookup_fmap, Hs.
Qed.

End Writes.

(** ** A filter the compiler throws on *)

(** A bound on a field that holds a string: the member cannot be
    stored. *)
Lemma step_bound_on_string q f v op w :
  includes f "_" = false → v ≠ EmptyString →
  op ∈ ["gt"; "lt"; "before"; "after"] →
  q !! f = Some (Clause (BValue (QStr v)) ∅) →
  step q (f +:+ String "_" op) w = TypeError.
Proof.
  intros Hf Hv Hop Hq. unfold step.
  rewrite includes_app_sep, field_of_app by done.
  assert (includes op "_" = false ∧ ∃ o, operator_of op = Some o ∧ o ∈ [Gt; Lt; Before; After])
    as (Hi & o & Ho & Hin).
  { repeat (apply elem_of_cons in Hop as [->|Hop];
            [split; [reflexivity|eexists; split; [reflexivity|pick_member]]|]).
    by apply elem_of_nil in Hop. }
  rewrite operator_in_app, Ho by done.
  assert (ensure q f = q) as ->.
  { unfold ensure, get. rewrite Hq. unfold truthy. simpl. by destruct v. }
  repeat (apply elem_of_cons in Hin as [->|Hin];
          [unfold apply_operator, set_member, get; by rewrite Hq|]).
  by apply elem_of_nil in Hin.
Qed.

(** X4. A list request whose filters hold [<field>_equals] with a
    non-empty string and, next, a bound ([gt], [lt], [before] or
    [after]) on the same field is answered 500 "Unable to fetch leads":
    the compiler throws when it stores the bound on the string, whatever
    the filters before and after the two are. *)
Theorem bound_after_equals_fails_the_list E uid query pre post f v op w coll q0 :
  validationResult listValidation query = [] →
  forEach pre (owner_query uid) = Ok q0 →
  includes f "_" = false → v ≠ EmptyString →
  op ∈ ["gt"; "lt"; "before"; "after"] →
  list_leads E uid query
    (pre ++ (f +:+ "_equals", QStr v) :: (f +:+ String "_" op, w) :: post) coll
  = Refused 500 "Unable to fetch leads" [].
Proof.
  intros Hv Hpre Hf Hne Hop. apply list_leads_throws; [done|].
  unfold buildFilterQuery. rewrite forEach_app, Hpre. simpl.
  assert (step q0 (f +:+ "_equals") (QStr v)
          = Ok (<[f := Clause (BValue (QStr v)) ∅]> (ensure q0 f))) as ->.
  { unfold step. change "_equals" with (String "_" "equals").
    rewrite includes_app_sep, field_of_app, operator_in_app by done. done. }
  simpl. rewrite (step_bound_on_string _ f v op w Hf Hne Hop); [done|].
  apply lookup_insert_eq.
Qed.

(** ** The reading and writing routes on the sample collection *)

Import Samples MoreSamples.

Lemma put_in_place_length doc l : length (put_in_place doc l) = S (length l).
Proof.
  induction l as [|x l IH]; simpl; [done|].
  destruct (created x <? created doc)%Z; simpl; [done|]. by rewrite IH.
Qed.

Lemma newest_first_length l : length (newest_first l) = length l.
Proof.
  induction l as [|x l IH]; simpl; [done|].
  unfold newest_first in *. by rewrite put_in_place_length, IH.
Qed.

Lemma three_leads_distinct p : p ∈ unique_paths leadSchema → distinct_on p three_leads.
Proof.
  intros Hp.
  exact (serve_distinct validator mapper0 p Hp
           [ Create 1000 1%N alice (form "ann@corp.com");
             Create 1001 2%N bob (form "bo@corp.com");
             Create 1002 3%N alice (form "cy@corp.com") ] [] I).
Qed.

Lemma three_leads_length : length three_leads = 3%nat.
Proof. vm_compute. reflexivity. Qed.

Lemma id_is_unique_path : "_id" ∈ unique_paths leadSchema.
Proof. change (unique_paths leadSchema) with ["_id"; "email"]. pick_member. Qed.

Lemma email_is_unique_path : "email" ∈ unique_paths leadSchema.
Proof. change (unique_paths leadSchema) with ["_id"; "email"]. pick_member. Qed.

(** The first page of alice's two leads, two by page. *)
Lemma listed_page_size_witness :
  ∃ data pg,
    list_leads engine0 alice (page_of_two "1") [] three_leads = Many data pg
    ∧ (Z.of_nat (length data) ≤ limit pg ≤ 100)%Z.
Proof.
  assert (list_leads engine0 alice (page_of_two "1") [] three_leads
          = Many (populate engine0 <$>
                    find engine0 (λ doc, field_is doc "user_id" (FId alice))
                         (skip_of (page_of_two "1")) (limit_of (page_of_two "1")) three_leads)
                 (paginate (page_of_two "1")
                    (countDocuments (λ doc, field_is doc "user_id" (FId alice)) three_leads)))
    as Hpage.
  { apply (list_leads_selected engine0 alice _ [] three_leads (owner_query alice));
      [vm_compute; reflexivity|reflexivity|reflexivity]. }
  eexists _, _. split; [exact Hpage|].
  exact (proj1 (proj2 (listed_page_size engine0 alice _ [] three_leads _ _
                         newest_first_length Hpage))).
Defined.


(** [score_equals=7&score_gt=5] on the sample collection. *)
Lemma bound_after_equals_fails_the_list_witness :
  list_leads engine0 alice (page_of_two "1")
    [("score_equals", QStr "7"); ("score_gt", QStr "5")] three_leads
  = Refused 500 "Unable to fetch leads" [].
Proof.
  assert (validationResult listValidation (page_of_two "1") = []) as Hv
    by (vm_compute; reflexivity).
  exact (bound_after_equals_fails_the_list engine0 alice (page_of_two "1") [] []
           "score" "7" "gt" (QStr "5") three_leads (owner_query alice)
           Hv eq_refl eq_refl ltac:(discriminate) ltac:(pick_member)).
Defined.

Lemma lookup_default_elem {A} (l : list A) (i : nat) (d : A) :
  (i < length l)%nat → default d (l !! i) ∈ l.
Proof.
  intros [x Hx]%lookup_lt_is_Some. rewrite Hx. by eapply list_elem_of_lookup_2.
Qed.

(** Alice deletes the lead of bob: it stays. *)
Lemma foreign_leads_untouched_witness :
  bobs_lead ∈ (handle validator mapper0 (Delete alice id2) three_leads).2.
Proof.
  apply foreign_leads_untouched.
  - apply lookup_default_elem. rewrite three_leads_length. lia.
  - vm_compute. reflexivity.
Defined.

(** Bob creates a lead with a body that names alice as its owner. *)
Lemma form_on_schema_paths e : Agreement.on_schema_paths (form e).
Proof.
  unfold Agreement.on_schema_paths, form. apply map_Forall_to_list, Forall_forall.
  intros [k v] Hin. rewrite map_to_list_to_map in Hin.
  2:{ apply (bool_decide_unpack _). vm_compute. reflexivity. }
  repeat (apply elem_of_cons in Hin as [[= -> ->]|Hin]);
    try (by apply elem_of_nil in Hin); unfold leadSchema; simpl; pick_member.
Qed.

Lemma form_for_on_schema_paths e owner : Agreement.on_schema_paths (form_for e owner).
Proof.
  unfold form_for. apply map_Forall_insert_2; [|apply form_on_schema_paths].
  unfold leadSchema. simpl. pick_member.
Qed.

Lemma created_lead_witness :
  Agreement.on_schema_paths (form_for "dee@corp.com" id_of_alice)
  ∧ ∃ doc coll',
    post validator mapper0 3000 4%N bob (form_for "dee@corp.com" id_of_alice) three_leads
    = (Json 201 true "Lead created successfully" [] (Some doc), coll')
    ∧ doc !! "user_id" = Some (FId bob)
    ∧ doc !! "status" = Some (FStr "new").
Proof.
  split; [apply form_for_on_schema_paths|].
  destruct (post validator mapper0 3000 4%N bob (form_for "dee@corp.com" id_of_alice)
                 three_leads) as [r coll'] eqn:Hp.
  assert (carries_data r = true) as Hc.
  { change r with (r, coll').1. rewrite <- Hp. vm_compute. reflexivity. }
  destruct r as [st ok msg errs [doc|]|]; try discriminate Hc.
  pose proof (post_created _ _ _ _ _ _ _ _ _ _ _ _ _ Hp) as (_ & _ & _ & -> & -> & -> & ->).
  pose proof (created_lead validator mapper0 _ _ _ _ _ _ _ _ _ _ _ Hp
                (form_for_on_schema_paths _ _))
    as (_ & _ & _ & Hu & _ & _ & _ & Hs & _).
  exists doc, coll'. split; [reflexivity|]. split; [exact Hu|]. apply Hs. reflexivity.
Defined.

(** The lead bob created is read back by bob, and not by alice. *)
Lemma created_lead_is_read_back_witness :
  ∃ doc coll',
    post validator mapper0 3000 4%N bob (form "dee@corp.com") three_leads
    = (Json 201 true "Lead created successfully" [] (Some doc), coll')
    ∧ get_lead engine0 bob id4 coll' = One doc
    ∧ get_lead engine0 alice id4 coll' = Refused 404 "Lead not found" [].
Proof.
  destruct (post validator mapper0 3000 4%N bob (form "dee@corp.com") three_leads)
    as [r coll'] eqn:Hp.
  assert (carries_data r = true) as Hc.
  { change r with (r, coll').1. rewrite <- Hp. vm_compute. reflexivity. }
  destruct r as [st ok msg errs [doc|]|]; try discriminate Hc.
  pose proof (post_created _ _ _ _ _ _ _ _ _ _ _ _ _ Hp) as (_ & _ & _ & -> & -> & -> & ->).
  assert (castObjectId id4 = Some 4%N) as Hid by (vm_compute; reflexivity).
  pose proof (created_lead_is_read_back engine0 validator mapper0 _ _ _ _ _ _ _ _ _ _ _
                id4 Hp Hid) as [Hown Hother].
  exists doc, coll'. split; [reflexivity|]. split; [exact Hown|].
  apply Hother. discriminate.
Defined.

(** Alice deletes her first lead. *)
Lemma deleted_lead_is_gone_witness :
  ∃ coll',
    delete_lead alice id1 three_leads = (NoContent 204, coll')
    ∧ get_lead engine0 alice id1 coll' = Refused 404 "Lead not found" [].
Proof.
  destruct (delete_lead alice id1 three_leads) as [r coll'] eqn:Hd.
  assert (match r with NoContent _ => true | _ => false end = true) as Hc.
  { change r with (r, coll').1. rewrite <- Hd. vm_compute. reflexivity. }
  destruct r as [|st]; [discriminate Hc|].
  pose proof (deleted_lead_is_gone engine0 alice id1 three_leads st coll' Hd
                (three_leads_distinct "_id" id_is_unique_path)) as (-> & _ & _ & Hget).
  exists coll'. split; [reflexivity|exact Hget].
Defined.

(** Alice updates her first lead with the sample form, which names
    neither a status nor a score. *)
Lemma updated_lead_keeps_the_rest_witness :
  ∃ doc' coll',
    put validator mapper0 2000 alice id1 (form "ann@corp.com") three_leads
    = (Json 200 true "Lead updated successfully" [] (Some doc'), coll')
    ∧ ∃ doc, doc ∈ three_leads
             ∧ doc' !! "status" = doc !! "status"
             ∧ doc' !! "created_at" = doc !! "created_at"
             ∧ doc' !! "updated_at" = Some (FDate 2000).
Proof.
  destruct (put validator mapper0 2000 alice id1 (form "ann@corp.com") three_leads)
    as [r coll'] eqn:Hp.
  assert (carries_data r = true) as Hc.
  { change r with (r, coll').1. rewrite <- Hp. vm_compute. reflexivity. }
  destruct r as [st ok msg errs [doc'|]|]; try discriminate Hc.
  pose proof (put_updated _ _ _ _ _ _ _ _ _ _ _ _ _ Hp) as (_ & _ & _ & -> & -> & -> & ->).
  pose proof (updated_lead_keeps_the_rest validator mapper0 _ _ _ _ _ _ _ _ _ _ _ Hp)
    as (_ & i & before & doc & after & _ & Hcoll & _ & _ & _ & Hstamp & Hkeep).
  exists doc', coll'. split; [reflexivity|]. exists doc.
  split; [rewrite Hcoll; apply elem_of_app; right; apply list_elem_of_here|].
  split; [|split; [|exact Hstamp]];
    apply Hkeep; [reflexivity| |reflexivity|];
    apply (bool_decide_eq_false_1 _); reflexivity.
Defined.

(** Alice updates her first lead with a body that names bob as its
    owner. *)
Lemma update_hands_the_lead_over_witness :
  ∃ doc' coll',
    put validator mapper0 2000 alice id1 (form_for "ann@corp.com" id_of_bob) three_leads
    = (Json 200 true "Lead updated successfully" [] (Some doc'), coll')
    ∧ doc' !! "user_id" = Some (FId bob)
    ∧ get_lead engine0 alice id1 coll' = Refused 404 "Lead not found" [].
Proof.
  destruct (put validator mapper0 2000 alice id1 (form_for "ann@corp.com" id_of_bob)
                three_leads) as [r coll'] eqn:Hp.
  assert (carries_data r = true) as Hc.
  { change r with (r, coll').1. rewrite <- Hp. vm_compute. reflexivity. }
  destruct r as [st ok msg errs [doc'|]|]; try discriminate Hc.
  pose proof (put_updated _ _ _ _ _ _ _ _ _ _ _ _ _ Hp) as (_ & _ & _ & -> & -> & -> & ->).
  destruct (update_hands_the_lead_over engine0 validator mapper0 _ _ _ _ _ _ _ _ _ _ _
              id_of_bob Hp eq_refl) as (o & Ho & Hu & Hget).
  assert (castObjectId id_of_bob = Some bob) as Hb by (vm_compute; reflexivity).
  rewrite Hb in Ho. injection Ho as <-.
  exists doc', coll'. split; [reflexivity|]. split; [exact Hu|].
  apply Hget; [discriminate|]. exact (three_leads_distinct "_id" id_is_unique_path).
Defined.

(** Alice updates her first lead and keeps its address. *)
Lemma update_keeping_the_address_witness :
  (put validator mapper0 2000 alice id1 (form "ann@corp.com") three_leads).1
  ∉ duplicate_answers.
Proof.
  assert (castObjectId id1 = Some 1%N) as Hid by (vm_compute; reflexivity).
  destruct (select (by_id_owner 1%N alice) three_leads) as [[[before doc] after]|] eqn:Hsel.
  2:{ assert (is_Some (select (by_id_owner 1%N alice) three_leads)) as [x Hx]
        by (apply (bool_decide_unpack _); vm_compute; reflexivity).
      rewrite Hsel in Hx. discriminate Hx. }
  assert ((λ '(_, x, _), x !! "email") <$> select (by_id_owner 1%N alice) three_leads
          = Some (Some (FStr (trim (toLowerCase
                    (normalizeEmail validator
                       (Validation.toString (form "ann@corp.com" !! "email")))))))) as Hmail
    by (vm_compute; reflexivity).
  rewrite Hsel in Hmail. injection Hmail as Hmail.
  exact (update_keeping_the_address validator mapper0 2000 alice id1 _ three_leads
           1%N before doc after
           (three_leads_distinct "email" email_is_unique_path)
           (three_leads_distinct "_id" id_is_unique_path) Hid Hsel Hmail).
Defined.

(** A week date passes the sample validator and is not read by the
    sample mapper. *)
Lemma uncastable_value_answers_witness :
  put validator mapper0 2000 alice id1 form_with_week_date three_leads
  = (refuse 400 "Invalid lead ID format", three_leads)
  ∧ post validator mapper0 2000 4%N alice form_with_week_date three_leads
    = (refuse 500 "Unable to create lead", three_leads).
Proof.
  assert (validationResult (leadValidation validator) form_with_week_date = []) as Hv
    by (vm_compute; reflexivity).
  assert (sanitized (leadValidation validator) form_with_week_date !! "last_activity_at"
          = Some "2024-W05-2") as Hs by (vm_compute; reflexivity).
  destruct (uncastable_value_answers validator mapper0 2000 4%N alice id1
              form_with_week_date three_leads
              (SchemaPath "last_activity_at" TDate false false false false
                          None None None None None (Some FNull))
              "2024-W05-2" Hv ltac:(unfold leadSchema; pick_member) ltac:(discriminate)
              Hs eq_refl) as [Hput Hpost].
  split; [apply Hput|apply Hpost]; vm_compute; reflexivity.
Defined.

(** ** The dashboard's pagination controls *)

Import Dashboard.

Section Controls.

#[local] Open Scope Z_scope.

(** A page from 1 and a limit from 1 to 100, printed, pass the checks
    of the list route and are read back as they were. *)
Lemma printed_params_read n lim :
  1 ≤ n → 1 ≤ lim ≤ 100 →
  let query := <["page" := toString n]> {[ "limit" := toString lim ]} in
  validationResult listValidation query = []
  ∧ page_of query = n ∧ limit_of query = lim.
Proof.
  intros Hn Hlim query.
  assert (query !! "page" = Some (toString n)) as Hqp by apply lookup_insert_eq.
  assert (query !! "limit" = Some (toString lim)) as Hql
    by (unfold query; by rewrite lookup_insert_ne, lookup_singleton_eq).
  split; [|split].
  - unfold validationResult, listValidation, run_chain. simpl. rewrite Hqp, Hql. simpl.
    rewrite !toString_isInt; [done| | | |]; intros m [= <-]; lia.
  - unfold page_of, parse_or. rewrite Hqp. simpl. rewrite (proj2 (toString_read n)).
    destruct (Z.eqb_spec n 0); [lia|done].
  - unfold limit_of, parse_or. rewrite Hql. simpl. rewrite (proj2 (toString_read lim)).
    destruct (Z.eqb_spec lim 0); [lia|done].
Qed.

Lemma pageNum_shift page pages :
  ∃ first, (∀ i, pageNum page pages i = first + i)
           ∧ (5 < pages → 1 ≤ first ∧ first + 4 ≤ pages)
           ∧ (pages ≤ 5 → first = 1)
           ∧ (5 < pages → 1 ≤ page ≤ pages → first ≤ page ≤ first + 4).
Proof.
  unfold pageNum.
  destruct (Z.leb_spec pages 5); [exists 1; split; [intros; lia|lia]|].
  destruct (Z.leb_spec page 3); [exists 1; split; [intros; lia|lia]|].
  destruct (Z.leb_spec (pages - 2) page).
  - exists (pages - 4). split; [intros; lia|lia].
  - exists (page - 2). split; [intros; lia|lia].
Qed.

Lemma page_buttons_seqZ p :
  ∃ first, page_buttons p = seqZ first (Z.min 5 (totalPages p))
           ∧ (∀ i, pageNum (page p) (totalPages p) i = first + i)
           ∧ (5 < totalPages p → 1 ≤ first ∧ first + 4 ≤ totalPages p)
           ∧ (totalPages p ≤ 5 → first = 1)
           ∧ (5 < totalPages p → 1 ≤ page p ≤ totalPages p → first ≤ page p ≤ first + 4).
Proof.
  destruct (pageNum_shift (page p) (totalPages p)) as (first & Hshift & Hrest).
  exists first. split; [|by split].
  unfold page_buttons.
  rewrite (list_fmap_ext _ (Z.add first) (seqZ 0 (Z.min 5 (totalPages p)))).
  - rewrite fmap_add_seqZ. f_equal. lia.
  - intros i x _. apply Hshift.
Qed.

(** X14. The page buttons of the dashboard: there are as many as
    pages, five at most; their numbers are consecutive, each the
    number of a page that exists; and the current page, when it
    exists, is one of them. *)
Theorem page_buttons_window p :
  length (page_buttons p) = Z.to_nat (Z.min 5 (totalPages p))
  ∧ (∃ first, page_buttons p = seqZ first (Z.min 5 (totalPages p)))
  ∧ (∀ n, n ∈ page_buttons p → 1 ≤ n ≤ totalPages p)
  ∧ (1 ≤ page p ≤ totalPages p → page p ∈ page_buttons p).
Proof.
  destruct (page_buttons_seqZ p) as (first & Hb & _ & Hbig & Hsmall & Hin).
  rewrite Hb. split; [by rewrite length_seqZ|]. split; [by exists first|]. split.
  - intros n Hn%elem_of_seqZ.
    destruct (Z.le_gt_cases (totalPages p) 5) as [Hle|Hgt].
    + specialize (Hsmall Hle). lia.
    + specialize (Hbig Hgt). lia.
  - intros Hp. apply elem_of_seqZ.
    destruct (Z.le_gt_cases (totalPages p) 5) as [Hle|Hgt].
    + specialize (Hsmall Hle). lia.
    + specialize (Hin Hgt Hp). lia.
Qed.

Lemma paginate_facts query count :
  validationResult listValidation query = [] →
  let p := paginate query count in
  1 ≤ page p ∧ 1 ≤ limit p ≤ 100
  ∧ hasPrev p = (1 <? page p) ∧ hasNext p = (page p <? totalPages p)
  ∧ totalPages p = ceil_div count (limit p) ∧ total p = count.
Proof.
  intros Hv p. destruct (list_request_bounds query Hv) as [Hp Hl].
  unfold p, paginate. simpl. done.
Qed.

(** X15. Whatever control of the pagination bar is used on a state the
    server answered, with the page and the count at most a hundredth
    of [Number.MAX_SAFE_INTEGER], the request that follows passes the
    checks of the list route, and the server reads back the page and
    the limit the dashboard asks for; the page asked is at least 1 and
    within that bound, and it is a page that exists when the current
    one is and the limit is kept. *)
Theorem controls_ask_valid_pages query count c :
  validationResult listValidation query = [] → 0 ≤ count →
  page_of query * 100 ≤ MAX_SAFE_INTEGER → count * 100 ≤ MAX_SAFE_INTEGER →
  enabled (paginate query count) c = true →
  let p := paginate query count in
  let p' := click c p in
  validationResult listValidation (params p') = []
  ∧ page_of (params p') = page p' ∧ limit_of (params p') = limit p'
  ∧ 1 ≤ page p' ≤ MAX_SAFE_INTEGER
  ∧ (page p ≤ totalPages p → limit p' = limit p → page p' ≤ totalPages p).
Proof.
  intros Hv Hcount Hsafe Hsafe' Hen p p'.
  destruct (paginate_facts query count Hv) as (Hp & Hl & Hprev & Hnext & Htp & _).
  fold p in Hp, Hl, Hprev, Hnext, Htp, Hen.
  assert (page p * 100 ≤ MAX_SAFE_INTEGER) as Hpage by exact Hsafe.
  assert (totalPages p ≤ MAX_SAFE_INTEGER) as Hpages.
  { pose proof (ceil_div_bounds count (limit p) ltac:(lia)) as Hb.
    rewrite <- Htp in Hb. nia. }
  assert (1 ≤ page p' ≤ MAX_SAFE_INTEGER ∧ 1 ≤ limit p' ≤ 100
          ∧ (page p ≤ totalPages p → limit p' = limit p → page p' ≤ totalPages p))
    as (Hp' & Hl' & Hexists).
  { clearbody p. unfold p'.
    destruct c as [| |i|n]; unfold enabled in Hen;
      unfold click, handlePageChange, handleLimitChange; cbn [page limit].
    - rewrite Hprev in Hen. apply Z.ltb_lt in Hen. lia.
    - rewrite Hnext in Hen. apply Z.ltb_lt in Hen. lia.
    - apply bool_decide_eq_true in Hen.
      destruct (page_buttons_window p) as (_ & _ & Hrange & _).
      assert (pageNum (page p) (totalPages p) (Z.of_nat i) ∈ page_buttons p) as Hin.
      { unfold page_buttons. apply list_elem_of_fmap. exists (Z.of_nat i).
        split; [done|]. apply elem_of_seqZ.
        unfold page_buttons in Hen. rewrite length_fmap, length_seqZ in Hen. lia. }
      specialize (Hrange _ Hin). lia.
    - apply bool_decide_eq_true in Hen.
      assert (n = 10 ∨ n = 25 ∨ n = 50 ∨ n = 100) as Hn by set_solver.
      split; [lia|]. split; [lia|]. intros Hle Heq. lia. }
  destruct (printed_params_read (page p') (limit p') ltac:(lia) Hl') as (H1 & H2 & H3).
  done.
Qed.

End Controls.

Section Showing.

#[local] Open Scope Z_scope.

Variable E : engine.

(** X16. The line "Showing [from] to [to] of [total] entries" under a
    page the server answered: on a page that exists it names as many
    entries as the page has rows, from at least 1 and to at most
    [total]; on a page beyond the last one, and so whenever nothing is
    selected, [to] is below [from] (with no lead selected the line
    reads 1 to 0 of 0 on page 1). *)
Theorem showing_line uid query filters coll data pg :
  (∀ l, length (sort E l) = length l) →
  list_leads E uid query filters coll = Many data pg →
  (page pg ≤ totalPages pg →
     showing_to pg - showing_from pg + 1 = Z.of_nat (length data)
     ∧ 1 ≤ showing_from pg ≤ showing_to pg ∧ showing_to pg ≤ total pg)
  ∧ (totalPages pg < page pg → showing_to pg < showing_from pg)
  ∧ (total pg = 0 → page pg = 1 → showing_from pg = 1 ∧ showing_to pg = 0).
Proof.
  intros Hs (Hv & q & p & Hq & Hp & -> & ->)%list_leads_many.
  destruct (list_request_bounds query Hv) as [Hpage Hlimit].
  pose proof (find_length E p (skip_of query) (limit_of query) coll Hs) as Hlen.
  unfold skip_of in *. rewrite length_fmap.
  unfold showing_from, showing_to. simpl.
  fold (page_of query) (limit_of query).
  specialize (Hlen ltac:(nia) ltac:(lia)).
  assert (0 ≤ countDocuments p coll) as Hc by (unfold countDocuments; lia).
  pose proof (ceil_div_bounds (countDocuments p coll) (limit_of query) ltac:(lia)) as Hb.
  split; [|split].
  - intros Hle. nia.
  - intros Hgt. nia.
  - intros H0 H1. rewrite H0, H1. lia.
Qed.

End Showing.

(** ** The filter panel, and what the server compiles from it *)

Section Objects.

Context {A : Type}.

Lemma assign_keys key value (o : list (string * A)) k :
  k ∈ (assign key value o).*1 ↔ k = key ∨ k ∈ o.*1.
Proof.
  induction o as [|[k0 v0] o IH]; simpl.
  - set_solver.
  - destruct (String.eqb_spec k0 key) as [->|Hne]; simpl; rewrite ?elem_of_cons, ?IH;
      naive_solver.
Qed.

Lemma assign_NoDup key value (o : list (string * A)) :
  NoDup o.*1 → NoDup (assign key value o).*1.
Proof.
  induction o as [|[k0 v0] o IH]; simpl; intros Hnd.
  - apply NoDup_singleton.
  - apply NoDup_cons in Hnd as [Hnotin Hnd].
    destruct (String.eqb_spec k0 key) as [->|Hne]; simpl.
    + by apply NoDup_cons.
    + apply NoDup_cons. split; [|by apply IH].
      rewrite assign_keys. naive_solver.
Qed.

Lemma remove_keys key (o : list (string * A)) k :
  k ∈ (remove key o).*1 ↔ k ≠ key ∧ k ∈ o.*1.
Proof.
  induction o as [|[k0 v0] o IH]; simpl.
  - set_solver.
  - destruct (String.eqb_spec k0 key) as [->|Hne]; simpl; rewrite ?elem_of_cons, ?IH;
      naive_solver.
Qed.

Lemma remove_NoDup key (o : list (string * A)) :
  NoDup o.*1 → NoDup (remove key o).*1.
Proof.
  induction o as [|[k0 v0] o IH]; simpl; intros Hnd; [done|].
  apply NoDup_cons in Hnd as [Hnotin Hnd].
  destruct (String.eqb_spec k0 key) as [->|Hne]; simpl; [by apply IH|].
  apply NoDup_cons. split; [|by apply IH]. rewrite remove_keys. naive_solver.
Qed.

Lemma read_assign key value (o : list (string * A)) :
  read key (assign key value o) = Some value.
Proof.
  induction o as [|[k0 v0] o IH]; simpl; [by rewrite String.eqb_refl|].
  destruct (String.eqb_spec k0 key) as [->|Hne]; simpl.
  - by rewrite String.eqb_refl.
  - by destruct (String.eqb_spec k0 key).
Qed.

Lemma read_remove key (o : list (string * A)) : read key (remove key o) = None.
Proof.
  induction o as [|[k0 v0] o IH]; simpl; [done|].
  destruct (String.eqb_spec k0 key) as [->|Hne]; simpl; [done|].
  by destruct (String.eqb_spec k0 key).
Qed.

Lemma read_None key (o : list (string * A)) : key ∉ o.*1 → read key o = None.
Proof.
  induction o as [|[k0 v0] o IH]; simpl; [done|].
  intros [Hne Hnotin]%not_elem_of_cons.
  destruct (String.eqb_spec k0 key); [congruence|]. by apply IH.
Qed.

End Objects.

(** The keys of the panel. *)
Lemma panel_keys changes :
  NoDup (panel changes).*1
  ∧ ∀ k, k ∈ (panel changes).*1 →
         k ∈ ["status"; "source"; "is_qualified"; "company_contains"].
Proof.
  unfold panel.
  assert (∀ o : list (string * pval),
            NoDup o.*1 →
            (∀ k, k ∈ o.*1 → k ∈ ["status"; "source"; "is_qualified"; "company_contains"]) →
            NoDup (fold_left (λ o c, onChange c o) changes o).*1
            ∧ ∀ k, k ∈ (fold_left (λ o c, onChange c o) changes o).*1 →
                   k ∈ ["status"; "source"; "is_qualified"; "company_contains"]) as Hgen.
  { induction changes as [|c changes IH]; intros o Hnd Hk; [done|].
    simpl. apply IH.
    - destruct c as [v|v|v|v]; simpl; unfold handleFilterChange;
        repeat case_match; by (apply remove_NoDup || apply assign_NoDup).
    - intros k. destruct c as [v|v|v|v]; simpl; unfold handleFilterChange;
        repeat case_match; rewrite ?remove_keys, ?assign_keys; intros Hin;
        first [ destruct Hin as [-> | Hin]; [pick_member | by apply Hk]
              | destruct Hin as [_ Hin]; by apply Hk ]. }
  apply Hgen; [constructor|]. intros k Hk. by apply elem_of_nil in Hk.
Qed.

Lemma sent_keys (o : list (string * pval)) k : k ∈ (sent o).*1 → k ∈ o.*1.
Proof.
  induction o as [|[k0 v0] o IH]; simpl; [done|].
  unfold sent. simpl. fold (sent o).
  destruct v0; simpl; rewrite ?elem_of_cons; naive_solver.
Qed.

Lemma sent_NoDup (o : list (string * pval)) : NoDup o.*1 → NoDup (sent o).*1.
Proof.
  induction o as [|[k0 v0] o IH]; simpl; intros Hnd; [constructor|].
  apply NoDup_cons in Hnd as [Hnotin Hnd].
  unfold sent. simpl. fold (sent o).
  destruct v0; simpl; try (by apply IH);
    (apply NoDup_cons; split; [|by apply IH]); intros Hin%sent_keys; done.
Qed.

(** Decides the comparisons of string literals in the goal. *)
Ltac eqb_literals :=
  repeat match goal with
         | |- context [String.eqb ?a ?b] => destruct (String.eqb_spec a b); try discriminate
         end.

(** The compilation of filters whose keys are distinct keys of the
    panel, from any query. *)
Lemma panel_keys_compile (fs : list (string * qval)) (q : gmap string clause) :
  NoDup fs.*1 →
  (∀ k, k ∈ fs.*1 → k ∈ ["status"; "source"; "is_qualified"; "company_contains"]) →
  ∃ q', forEach fs q = Ok q'
        ∧ (∀ k, k ∉ ["status"; "source"; "company"; "is"] → q' !! k = q !! k)
        ∧ q' !! "status"
          = match read "status" fs with
            | Some v => Some (Clause (BValue v) ∅)
            | None => q !! "status"
            end
        ∧ q' !! "source"
          = match read "source" fs with
            | Some v => Some (Clause (BValue v) ∅)
            | None => q !! "source"
            end
        ∧ q' !! "company"
          = match read "company_contains" fs with
            | Some v => Some (contains_clause v)
            | None => q !! "company"
            end.
Proof.
  revert q. induction fs as [|[key v] fs IH]; intros q Hnd Hkeys.
  { exists q. by repeat split. }
  simpl in Hnd. apply NoDup_cons in Hnd as [Hnotin Hnd].
  assert (∀ k, k ∈ fs.*1 → k ∈ ["status"; "source"; "is_qualified"; "company_contains"])
    as Hrest by (intros k Hk; apply Hkeys; by right).
  assert (key ∈ ["status"; "source"; "is_qualified"; "company_contains"]) as Hkey
    by (apply Hkeys; by left).
  assert (∃ q1, step q key v = Ok q1
                ∧ (∀ k, k ∉ ["status"; "source"; "company"; "is"] → q1 !! k = q !! k)
                ∧ q1 !! "status" = (if String.eqb key "status" then Some (Clause (BValue v) ∅)
                                    else q !! "status")
                ∧ q1 !! "source" = (if String.eqb key "source" then Some (Clause (BValue v) ∅)
                                    else q !! "source")
                ∧ q1 !! "company" = (if String.eqb key "company_contains"
                                     then Some (contains_clause v) else q !! "company"))
    as (q1 & Hstep & Hframe & Hst & Hso & Hco).
  { repeat (apply elem_of_cons in Hkey as [->|Hkey]).
    - eexists. split; [reflexivity|].
      repeat split; eqb_literals;
        rewrite ?lookup_insert_eq, ?lookup_insert_ne by done; try done.
      intros k Hk. rewrite lookup_insert_ne; [done|]. intros <-. apply Hk. pick_member.
    - eexists. split; [reflexivity|].
      repeat split; eqb_literals;
        rewrite ?lookup_insert_eq, ?lookup_insert_ne by done; try done.
      intros k Hk. rewrite lookup_insert_ne; [done|]. intros <-. apply Hk. pick_member.
    - exists (ensure q "is"). split; [reflexivity|].
      repeat split; eqb_literals; try (by apply ensure_lookup_ne).
      intros k Hk. apply ensure_lookup_ne. intros ->. apply Hk. pick_member.
    - exists (<["company" := contains_clause v]> (ensure q "company")).
      split; [reflexivity|].
      repeat split; eqb_literals;
        rewrite ?lookup_insert_eq, ?lookup_insert_ne by done;
        try done; try (by apply ensure_lookup_ne).
      intros k Hk. rewrite lookup_insert_ne by (intros <-; apply Hk; pick_member).
      apply ensure_lookup_ne. intros ->. apply Hk. pick_member.
    - by apply elem_of_nil in Hkey. }
  destruct (IH q1 Hnd Hrest) as (q' & Hq' & Hframe' & Hst' & Hso' & Hco').
  exists q'. simpl. rewrite Hstep. simpl. split; [done|]. split; [|split; [|split]].
  - intros k Hk. by rewrite Hframe', Hframe.
  - rewrite Hst', Hst. destruct (String.eqb_spec key "status") as [->|_]; [|done].
    by rewrite (read_None "status" fs Hnotin).
  - rewrite Hso', Hso. destruct (String.eqb_spec key "source") as [->|_]; [|done].
    by rewrite (read_None "source" fs Hnotin).
  - rewrite Hco', Hco. destruct (String.eqb_spec key "company_contains") as [->|_]; [|done].
    by rewrite (read_None "company_contains" fs Hnotin).
Qed.

(** X17. Whatever is chosen in the filter panel of the dashboard, in any
    order, the server compiles the filters it receives without
    throwing.  The predicate compares [status] and [source] with the
    values chosen and matches [company] against the text typed, without
    regard to case; it has no clause on [is_qualified], whatever is
    chosen under "Qualified", and none on a field other than these, the
    owner's and [is].  Choosing "All" under "Qualified" leaves the key in the
    filters, with no value, where choosing "All Statuses" removes the
    key. *)
Theorem panel_filters_compile changes uid :
  (∃ q, buildFilterQuery (sent (panel changes)) uid = Ok q
        ∧ q !! "user_id" = Some (Clause (BOwner uid) ∅)
        ∧ q !! "is_qualified" = None
        ∧ q !! "status"
          = (λ v, Clause (BValue v) ∅) <$> read "status" (sent (panel changes))
        ∧ q !! "source"
          = (λ v, Clause (BValue v) ∅) <$> read "source" (sent (panel changes))
        ∧ q !! "company" = contains_clause <$> read "company_contains" (sent (panel changes))
        ∧ ∀ k, k ∉ ["user_id"; "status"; "source"; "company"; "is"] → q !! k = None)
  ∧ read "is_qualified" (onChange (Qualified "") (panel changes)) = Some PUndefined
  ∧ read "status" (onChange (Status "") (panel changes)) = None.
Proof.
  split; [|split; [apply read_assign|apply read_remove]].
  destruct (panel_keys changes) as [Hnd Hkeys].
  destruct (panel_keys_compile (sent (panel changes)) (owner_query uid)
              (sent_NoDup _ Hnd) (λ k Hk, Hkeys k (sent_keys _ k Hk)))
    as (q & Hq & Hframe & Hst & Hso & Hco).
  exists q. split; [exact Hq|]. split; [|split; [|split; [|split; [|split]]]].
  - exact (buildFilterQuery_owner _ _ _ Hq).
  - rewrite Hframe; [done|]. apply (bool_decide_eq_false_1 _). reflexivity.
  - rewrite Hst. by destruct (read "status" _).
  - rewrite Hso. by destruct (read "source" _).
  - rewrite Hco. by destruct (read "company_contains" _).
  - intros k Hk. rewrite Hframe.
    + apply owner_query_ne. intros ->. apply Hk. pick_member.
    + intros Hin. apply Hk. by right.
Qed.

(** ** The form that creates a lead, against the rules of the server *)

Lemma trim_start_length l : (length (trim_start l) ≤ length l)%nat.
Proof.
  induction l as [|a l IH]; simpl; [done|]. destruct (is_space a); simpl; lia.
Qed.

Lemma string_of_list_length l : String.length (string_of_list_ascii l) = length l.
Proof. induction l as [|a l IH]; simpl; [done|]. by rewrite IH. Qed.

(** Trimming does not make a string longer. *)
Lemma trim_length s : (String.length (trim s) ≤ String.length s)%nat.
Proof.
  unfold trim, trim_list. rewrite string_of_list_length, length_rev.
  etransitivity; [apply trim_start_length|]. rewrite length_rev.
  etransitivity; [apply trim_start_length|].
  rewrite <- (string_of_list_ascii_of_string s) at 2. by rewrite string_of_list_length.
Qed.

(** The errors of a chain are errors of its path. *)
Lemma run_links_paths p ls value e :
  e ∈ (run_links p ls value).2 → error_path e = p.
Proof.
  revert value. induction ls as [|[f|check message] ls IH]; simpl; intros value.
  - by intros ?%elem_of_nil.
  - apply IH.
  - destruct (run_links p ls value) as [v errs] eqn:Hr. simpl.
    specialize (IH value). rewrite Hr in IH. simpl in IH.
    destruct (check _); [done|]. intros [->|?]%elem_of_cons; [done|]. by apply IH.
Qed.

Lemma run_chain_paths c body e : e ∈ (run_chain c body).2 → error_path e = path c.
Proof.
  unfold run_chain. destruct (body !! path c); [apply run_links_paths|].
  destruct (optional c); [by intros ?%elem_of_nil|apply run_links_paths].
Qed.

Lemma validationResult_inv chains body e :
  e ∈ validationResult chains body → ∃ c, c ∈ chains ∧ e ∈ (run_chain c body).2.
Proof.
  unfold validationResult. intros Hin%list_elem_of_In.
  apply in_concat in Hin as (errs & Herrs & He).
  apply in_map_iff in Herrs as (c & <- & Hc).
  exists c. split; by apply list_elem_of_In.
Qed.

(** A text field the form accepts passes its chain on the server. *)
Lemma required_text_accepts p required_msg max max_msg body value :
  body !! p = Some value →
  CreateLead.is_empty (trim value) = false → (max <? String.length value)%nat = false →
  (run_chain (required_text p required_msg max max_msg) body).2 = [].
Proof.
  intros Hb Hne Hlen. unfold run_chain, required_text. simpl. rewrite Hb. simpl.
  unfold notEmpty, isLength_max. unfold CreateLead.is_empty in Hne. rewrite Hne. simpl.
  apply Nat.ltb_ge in Hlen. pose proof (trim_length value).
  by rewrite (proj2 (Nat.leb_le _ _)) by lia.
Qed.

Section FormChecks.

Import CreateLead.

Variable formData : LeadFormData.

Lemma check_text_inv name value required_msg max max_msg (newErrors : gmap string string) :
  (if is_empty (trim value) then <[name := required_msg]> newErrors
   else if (max <? String.length value)%nat then <[name := max_msg]> newErrors
   else newErrors) = ∅ →
  newErrors = ∅ ∧ is_empty (trim value) = false ∧ (max <? String.length value)%nat = false.
Proof.
  destruct (is_empty (trim value)); [by intros ?%insert_non_empty|].
  destruct (max <? String.length value)%nat; [by intros ?%insert_non_empty|]. done.
Qed.

(** What a form that [validateForm] accepts satisfies. *)
Lemma validateForm_true :
  validateForm formData = true →
  (is_empty (trim (first_name formData)) = false
   ∧ (50 <? String.length (first_name formData))%nat = false)
  ∧ (is_empty (trim (last_name formData)) = false
     ∧ (50 <? String.length (last_name formData))%nat = false)
  ∧ (is_empty (email formData) = false ∧ search email_shape (email formData) = true)
  ∧ (is_empty (phone formData) = false
     ∧ Regex.test phone_pattern (phone formData) = true)
  ∧ (is_empty (trim (company formData)) = false
     ∧ (100 <? String.length (company formData))%nat = false)
  ∧ (is_empty (trim (city formData)) = false
     ∧ (50 <? String.length (city formData))%nat = false)
  ∧ (is_empty (trim (state formData)) = false
     ∧ (50 <? String.length (state formData))%nat = false)
  ∧ (lt (score formData) (Finite 0) = false
     ∧ lt (Finite (100 # 1)) (score formData) = false)
  ∧ lt (lead_value formData) (Finite 0) = false.
Proof.
  unfold validateForm, form_errors. intros H%bool_decide_eq_true.
  unfold check_lead_value in H.
  destruct (lt (lead_value formData) (Finite 0)) eqn:Hlv; [by apply insert_non_empty in H|].
  unfold check_score in H.
  destruct (lt (score formData) (Finite 0) || lt (Finite (100 # 1)) (score formData))
    eqn:Hsc; [by apply insert_non_empty in H|].
  apply orb_false_iff in Hsc.
  unfold check_state in H. apply check_text_inv in H as (H & Hstate).
  unfold check_city in H. apply check_text_inv in H as (H & Hcity).
  unfold check_company in H. apply check_text_inv in H as (H & Hcompany).
  unfold check_phone in H.
  destruct (is_empty (phone formData)) eqn:Hp1; [by apply insert_non_empty in H|].
  destruct (Regex.test phone_pattern (phone formData)) eqn:Hp2;
    [|by apply insert_non_empty in H]. cbn [negb] in H.
  unfold check_email in H.
  destruct (is_empty (email formData)) eqn:He1; [by apply insert_non_empty in H|].
  destruct (search email_shape (email formData)) eqn:He2;
    [|by apply insert_non_empty in H]. cbn [negb] in H.
  unfold check_last_name in H. apply check_text_inv in H as (H & Hlast).
  unfold check_first_name in H. apply check_text_inv in H as (H & Hfirst).
  done.
Qed.

Lemma received_lookup show name v :
  name ≠ "last_activity_at" →
  (list_to_map
     [ ("first_name", JStr (first_name formData)); ("last_name", JStr (last_name formData));
       ("email", JStr (email formData)); ("phone", JStr (phone formData));
       ("company", JStr (company formData)); ("city", JStr (city formData));
       ("state", JStr (state formData)); ("source", JStr (source formData));
       ("status", JStr (status formData)); ("score", JNum (score formData));
       ("lead_value", JNum (lead_value formData));
       ("is_qualified", JBool (is_qualified formData)) ] : gmap string jval) !! name = Some v →
  received show (submitData formData) !! name = Some (as_text show v).
Proof.
  intros Hne Hv. unfold received, submitData. rewrite lookup_fmap.
  destruct (is_empty (last_activity_at formData)).
  - by rewrite Hv.
  - rewrite lookup_insert_ne by done. by rewrite Hv.
Qed.

(** X18. A form that [validateForm] accepts is sent, and the rules of
    the server find nothing to say about its names, its phone number,
    its company, its city, its state or its qualification: whatever
    errors the server reports are on the address, the source, the
    status, the score, the value or the date of last activity, and
    not on that date when it was left empty. *)
Theorem accepted_form_passes_the_text_rules V show e :
  validateForm formData = true →
  e ∈ validationResult (leadValidation V) (received show (submitData formData)) →
  error_path e ∈ ["email"; "source"; "status"; "score"; "lead_value"; "last_activity_at"]
  ∧ (last_activity_at formData = EmptyString → error_path e ≠ "last_activity_at").
Proof.
  intros (Hfirst & Hlast & _ & [_ Hphone] & Hcompany & Hcity & Hstate & _)%validateForm_true
         (c & Hc & He)%validationResult_inv.
  pose proof (run_chain_paths _ _ _ He) as Hpath.
  unfold leadValidation in Hc.
  assert (∀ p required_msg max max_msg value,
            c = required_text p required_msg max max_msg →
            p ≠ "last_activity_at" →
            received show (submitData formData) !! p = Some value →
            is_empty (trim value) = false ∧ (max <? String.length value)%nat = false →
            False) as Htext.
  { intros p rm mx mm value -> Hne Hb [H1 H2].
    rewrite (required_text_accepts p rm mx mm _ value Hb H1 H2) in He.
    by apply elem_of_nil in He. }
  repeat (apply elem_of_cons in Hc as [Hc|Hc]).
  - exfalso. eapply (Htext _ _ _ _ _ Hc); [|by apply received_lookup|exact Hfirst]. done.
  - exfalso. eapply (Htext _ _ _ _ _ Hc); [|by apply received_lookup|exact Hlast]. done.
  - subst c. rewrite Hpath. split; [pick_member|done].
  - exfalso. subst c. unfold run_chain in He. cbn [path optional links] in He.
    rewrite (received_lookup show "phone" (JStr (phone formData))) in He by done.
    simpl in He. rewrite Hphone in He. by apply elem_of_nil in He.
  - exfalso. eapply (Htext _ _ _ _ _ Hc); [|by apply received_lookup|exact Hcompany]. done.
  - exfalso. eapply (Htext _ _ _ _ _ Hc); [|by apply received_lookup|exact Hcity]. done.
  - exfalso. eapply (Htext _ _ _ _ _ Hc); [|by apply received_lookup|exact Hstate]. done.
  - subst c. rewrite Hpath. split; [pick_member|done].
  - subst c. rewrite Hpath. split; [pick_member|done].
  - subst c. rewrite Hpath. split; [pick_member|done].
  - subst c. rewrite Hpath. split; [pick_member|done].
  - exfalso. subst c. unfold run_chain in He. cbn [path optional links] in He.
    rewrite (received_lookup show "is_qualified" (JBool (is_qualified formData))) in He
      by done.
    simpl in He. destruct (is_qualified formData); by apply elem_of_nil in He.
  - subst c. rewrite Hpath. split; [pick_member|].
    intros Hempty _. unfold run_chain in He. cbn [path optional links] in He.
    unfold received, submitData in He. rewrite lookup_fmap in He.
    unfold is_empty in He. rewrite bool_decide_eq_true_2 in He by done.
    simpl in He. by apply elem_of_nil in He.
  - by apply elem_of_nil in Hc.
Qed.

End FormChecks.

(** ** When the compiler cannot throw, and bounds on one field *)


(** ** When the compiler cannot throw, and bounds on one field *)


Lemma ensure_writable q f : no_string q → no_string (ensure q f) ∧ writable (ensure q f) f.
Proof.
  intros Hq. unfold ensure, get.
  destruct (q !! f) as [[b m]|] eqn:Hf.
  - destruct (truthy (Clause b m)) eqn:Ht.
    + split; [done|]. right. exists b, m. unfold ensure, get. split; [done|].
      intros s ->. rewrite (Hq f _ m s Hf eq_refl) in Ht. discriminate Ht.
    + split.
      * intros k b' m' s. rewrite lookup_insert_Some.
        intros [[_ [= <- _]]|[_ Hk]]; [done|]. by eapply Hq.
      * right. exists BObject, ∅. by rewrite lookup_insert_eq.
  - case_bool_decide.
    + split; [done|]. left. unfold get. rewrite Hf. by rewrite bool_decide_eq_true_2.
    + split.
      * intros k b' m' s. rewrite lookup_insert_Some.
        intros [[_ [= <- _]]|[_ Hk]]; [done|]. by eapply Hq.
      * right. exists BObject, ∅. by rewrite lookup_insert_eq.
Qed.

Lemma set_member_writable q f name o :
  no_string q → writable q f →
  ∃ q', set_member q f name o = Ok q' ∧ no_string q' ∧ writable q' f.
Proof.
  intros Hq [Hinh|(b & m & Hf & Hb)]; unfold set_member.
  - rewrite Hinh. exists q. repeat split; [done|by left].
  - unfold get. rewrite Hf.
    exists (<[f := Clause b (<[name := o]> m)]> q).
    split; [destruct b as [| |[]]; try done; by destruct (Hb s)|]. split.
    + intros k b' m' s. rewrite lookup_insert_Some.
      intros [[_ [= <- _]]|[_ Hk]]; [intros ->; by destruct (Hb s)|]. by eapply Hq.
    + right. eexists _, _. by rewrite lookup_insert_eq.
Qed.

Lemma insert_no_string q f b m :
  no_string q → (∀ s, b = BValue (QStr s) → s = EmptyString) →
  no_string (<[f := Clause b m]> q).
Proof.
  intros Hq Hb k b' m' s. rewrite lookup_insert_Some.
  intros [[_ [= <- _]]|[_ Hk]]; [apply Hb|]. by eapply Hq.
Qed.

Lemma step_no_string q key v :
  no_string q → (stores_value key = true → ∀ s, v = QStr s → s = EmptyString) →
  ∃ q', step q key v = Ok q' ∧ no_string q'.
Proof.
  intros Hq Hv. unfold step. unfold stores_value in Hv.
  destruct (includes key "_").
  - destruct (ensure_writable q (field_of key) Hq) as [Hq1 Hw].
    destruct (operator_in key) as [[]|]; simpl.
    + eexists. split; [done|]. apply insert_no_string; [done|].
      intros s [= ->]. by apply Hv.
    + eexists. split; [done|]. by apply insert_no_string.
    + eexists. split; [done|]. by apply insert_no_string.
    + destruct (set_member_writable _ _ "$gt" (ONum (Number v)) Hq1 Hw) as (q' & -> & ? & _).
      by exists q'.
    + destruct (set_member_writable _ _ "$lt" (ONum (Number v)) Hq1 Hw) as (q' & -> & ? & _).
      by exists q'.
    + destruct v as [|[|v0 [|v1 [|]]]|]; try (by eexists).
      destruct (set_member_writable _ _ "$gte" (ONum (Number v0)) Hq1 Hw)
        as (q1 & -> & Hq2 & Hw2). simpl.
      destruct (set_member_writable _ _ "$lte" (ONum (Number v1)) Hq2 Hw2)
        as (q' & -> & ? & _).
      by exists q'.
    + destruct (set_member_writable _ _ "$lt" (ODate (NewDate v)) Hq1 Hw) as (q' & -> & ? & _).
      by exists q'.
    + destruct (set_member_writable _ _ "$gt" (ODate (NewDate v)) Hq1 Hw) as (q' & -> & ? & _).
      by exists q'.
    + eexists. split; [done|]. by apply insert_no_string.
    + by exists (ensure q (field_of key)).
  - case_bool_decide.
    + eexists. split; [done|]. apply insert_no_string; [done|].
      intros s [= ->]. by apply Hv.
    + by exists q.
Qed.

(** X19. The compiler throws only on filters in which a bare key or a
    key with the operator [equals] carries a non-empty string: when no
    key does, whatever the other keys and values are, a predicate is
    produced. *)
Theorem compile_never_throws filters uid :
  Forall (λ kv, stores_value kv.1 = true → ∀ s, kv.2 = QStr s → s = EmptyString) filters →
  ∃ q, buildFilterQuery filters uid = Ok q.
Proof.
  unfold buildFilterQuery.
  assert (no_string (owner_query uid)) as Hq.
  { intros k b m s [_ [= -> ->]]%owner_query_Some. discriminate. }
  revert Hq. generalize (owner_query uid).
  induction filters as [|[key v] filters IH]; intros q Hq Hall; [by exists q|].
  apply Forall_cons in Hall as [Hkv Hall]. simpl in *.
  destruct (step_no_string q key v Hq Hkv) as (q1 & -> & Hq1). simpl. by apply IH.
Qed.

(** X20. A lower and an upper bound on one field make one clause with
    both bounds, in whichever order the two keys come; [between] with
    two values stores the inclusive bounds, and with anything else than
    two values leaves an empty clause on the field. *)
Theorem range_bounds_combine f a b uid :
  includes f "_" = false → f ∉ Object_prototype →
  buildFilterQuery [(f +:+ "_gt", a); (f +:+ "_lt", b)] uid
  = Ok (<[f := Clause BObject (<["$lt" := ONum (Number b)]> {[ "$gt" := ONum (Number a) ]})]>
          (owner_query uid))
  ∧ buildFilterQuery [(f +:+ "_lt", b); (f +:+ "_gt", a)] uid
    = buildFilterQuery [(f +:+ "_gt", a); (f +:+ "_lt", b)] uid
  ∧ buildFilterQuery [(f +:+ "_between", QArr [a; b])] uid
    = Ok (<[f := Clause BObject (<["$lte" := ONum (Number b)]> {[ "$gte" := ONum (Number a) ]})]>
            (owner_query uid))
  ∧ (∀ v, (∀ x y, v ≠ QArr [x; y]) →
          buildFilterQuery [(f +:+ "_between", v)] uid
          = Ok (<[f := empty_clause]> (owner_query uid))).
Proof.
  intros Hf Hp.
  assert (∀ name o (m : gmap string operand) (q : gmap string clause),
            q !! f = Some (Clause BObject m) →
            set_member (ensure q f) f name o
            = Ok (<[f := Clause BObject (<[name := o]> m)]> q)) as Hset.
  { intros name o m q Hq. unfold ensure, set_member, get. rewrite Hq. simpl. by rewrite Hq. }
  assert (∀ name o (m : gmap string operand) (q : gmap string clause),
            set_member (<[f := Clause BObject m]> q) f name o
            = Ok (<[f := Clause BObject (<[name := o]> m)]> q)) as Hnext.
  { intros name o m q. unfold set_member, get. rewrite lookup_insert_eq.
    by rewrite insert_insert_eq. }
  assert (∀ name o,
            set_member (ensure (owner_query uid) f) f name o
            = Ok (<[f := Clause BObject {[ name := o ]}]> (owner_query uid))) as Hfirst.
  { intros name o. rewrite ensure_fresh_field by done. apply set_member_fresh. }
  assert (∀ op v q, includes op "_" = false →
            step q (f +:+ String "_" op) v
            = apply_operator (ensure q f) f (operator_of op) v) as Hstep.
  { intros op v q Ho. unfold step.
    by rewrite includes_app_sep, field_of_app, operator_in_app by done. }
  unfold buildFilterQuery, forEach.
  change (f +:+ "_gt") with (f +:+ String "_" "gt").
  change (f +:+ "_lt") with (f +:+ String "_" "lt").
  change (f +:+ "_between") with (f +:+ String "_" "between").
  rewrite !Hstep by reflexivity.
  change (operator_of "gt") with (Some Gt). change (operator_of "lt") with (Some Lt).
  change (operator_of "between") with (Some Between).
  cbn [apply_operator]. rewrite !Hfirst. cbn [bind].
  rewrite !Hstep by reflexivity.
  change (operator_of "gt") with (Some Gt). change (operator_of "lt") with (Some Lt).
  cbn [apply_operator].
  erewrite !Hset by apply lookup_insert_eq. cbn [bind].
  rewrite !insert_insert_eq.
  split; [done|]. split; [|split].
  - do 3 f_equal; try (apply insert_insert_ne; done).
  - by rewrite Hnext.
  - intros v Hv. rewrite Hstep by reflexivity.
    change (operator_of "between") with (Some Between). cbn [apply_operator].
    rewrite ensure_fresh_field by done.
    destruct v as [|[|v0 [|v1 [|]]]|]; try done. by destruct (Hv v0 v1).
Qed.

(** ** The dashboard and the form on sample states *)

(** Previous, from page 3 of 25 leads by 10. *)
Lemma controls_ask_valid_pages_witness :
  validationResult listValidation
    (params (click Previous (paginate (<["page" := "3"]> {[ "limit" := "10" ]}) 25))) = []
  ∧ page_of (params (click Previous (paginate (<["page" := "3"]> {[ "limit" := "10" ]}) 25)))
    = 2%Z.
Proof.
  assert (validationResult listValidation (<["page" := "3"]> {[ "limit" := "10" ]}) = [])
    as Hv by (vm_compute; reflexivity).
  assert (enabled (paginate (<["page" := "3"]> {[ "limit" := "10" ]}) 25) Previous = true)
    as Hen by (vm_compute; reflexivity).
  destruct (controls_ask_valid_pages _ 25 Previous Hv
              ltac:(intros H; discriminate H)
              ltac:(vm_compute; intros H; discriminate H)
              ltac:(intros H; discriminate H) Hen) as (H1 & H2 & _).
  split; [exact H1|]. rewrite H2. vm_compute. reflexivity.
Defined.

(** The line under the first page of alice's leads, two by page. *)
Lemma showing_line_witness :
  ∃ data pg,
    list_leads engine0 alice (page_of_two "1") [] three_leads = Many data pg
    ∧ (totalPages pg < page pg → showing_to pg < showing_from pg)%Z.
Proof.
  assert (list_leads engine0 alice (page_of_two "1") [] three_leads
          = Many (populate engine0 <$>
                    find engine0 (λ doc, field_is doc "user_id" (FId alice))
                         (skip_of (page_of_two "1")) (limit_of (page_of_two "1")) three_leads)
                 (paginate (page_of_two "1")
                    (countDocuments (λ doc, field_is doc "user_id" (FId alice)) three_leads)))
    as Hpage.
  { apply (list_leads_selected engine0 alice _ [] three_leads (owner_query alice));
      [vm_compute; reflexivity|reflexivity|reflexivity]. }
  eexists _, _. split; [exact Hpage|].
  exact (proj1 (proj2 (showing_line engine0 alice _ [] three_leads _ _
                         newest_first_length Hpage))).
Defined.

(** The sample form, which [validateForm] accepts, before a validator
    that accepts no address: the one error is on the address. *)
Lemma accepted_form_passes_the_text_rules_witness :
  CreateLead.validateForm filled_form = true
  ∧ Error "email" "Please enter a valid email"
    ∈ validationResult (leadValidation no_address)
        (CreateLead.received show_zero (CreateLead.submitData filled_form))
  ∧ error_path (Error "email" "Please enter a valid email")
    ∈ ["email"; "source"; "status"; "score"; "lead_value"; "last_activity_at"].
Proof.
  assert (CreateLead.validateForm filled_form = true) as Hform by (vm_compute; reflexivity).
  assert (validationResult (leadValidation no_address)
            (CreateLead.received show_zero (CreateLead.submitData filled_form))
          = [Error "email" "Please enter a valid email"]) as Herrors
    by (vm_compute; reflexivity).
  assert (Error "email" "Please enter a valid email"
          ∈ validationResult (leadValidation no_address)
              (CreateLead.received show_zero (CreateLead.submitData filled_form))) as Hin
    by (rewrite Herrors; apply list_elem_of_here).
  split; [exact Hform|]. split; [exact Hin|].
  exact (proj1 (accepted_form_passes_the_text_rules filled_form no_address show_zero _
                  Hform Hin)).
Defined.

(** A bound, and a bare key with an empty value. *)
Lemma compile_never_throws_witness :
  ∃ q, buildFilterQuery [("score_gt", QStr "5"); ("status", QStr "")] 7%N = Ok q.
Proof.
  apply compile_never_throws.
  repeat constructor; simpl; [discriminate|]. by intros _ s [= <-].
Defined.

(** [score_gt=5&score_lt=9]. *)
Lemma range_bounds_combine_witness :
  buildFilterQuery [("score_gt", QStr "5"); ("score_lt", QStr "9")] 7%N
  = Ok (<["score" := Clause BObject (<["$lt" := ONum (Number (QStr "9"))]>
                                       {[ "$gt" := ONum (Number (QStr "5")) ]})]>
          (owner_query 7%N)).
Proof.
  exact (proj1 (range_bounds_combine "score" (QStr "5") (QStr "9") 7%N eq_refl
                  score_is_no_builtin)).
Defined.

(** ** What the pages show when a request fails *)

Import Api.

(** The answers of the writing routes: a success with its status, or a
    failure with one of seven messages. *)
Lemma handle_answers V M r coll :
  (handle V M r coll).1 = NoContent 204
  ∨ (∃ msg doc, (handle V M r coll).1 = Json 201 true msg [] (Some doc))
  ∨ (∃ msg doc, (handle V M r coll).1 = Json 200 true msg [] (Some doc))
  ∨ (∃ st msg errs, (handle V M r coll).1 = Json st false msg errs None
                    ∧ st ∈ [400; 404; 500]%nat ∧ msg ∈ failure_messages
                    ∧ (errs ≠ [] → msg = "Validation failed")).
Proof.
  assert (∀ st msg, st ∈ [400; 404; 500]%nat → msg ∈ failure_messages →
            ∃ st' msg' errs, refuse st msg = Json st' false msg' errs None
                             ∧ st' ∈ [400; 404; 500]%nat ∧ msg' ∈ failure_messages
                             ∧ (errs ≠ [] → msg' = "Validation failed")) as Hrefuse.
  { intros st msg Hst Hmsg. by exists st, msg, []. }
  destruct r as [now newId uid body|now uid id body|uid id]; simpl.
  - unfold post. destruct (negb _).
    { right. right. right. eexists _, _, _. repeat split; [pick_member|pick_member]. }
    destruct (select _ coll).
    { right. right. right. apply Hrefuse; pick_member. }
    destruct (save M now newId _ coll) as [[doc coll']|[]]; simpl.
    + right. left. by eexists _, _.
    + right. right. right. apply Hrefuse; pick_member.
    + right. right. right. apply Hrefuse; pick_member.
    + right. right. right. apply Hrefuse; pick_member.
  - unfold put. destruct (negb _).
    { right. right. right. eexists _, _, _. repeat split; [pick_member|pick_member]. }
    destruct (put_precheck _ _ _ coll) as [r|] eqn:Hp.
    { right. right. right. unfold put_precheck in Hp.
      destruct (_ !! "email") as [e|]; [|done]. case_bool_decide; [done|].
      destruct (castObjectId id).
      - destruct (select _ coll); [|done]. injection Hp as <-. apply Hrefuse; pick_member.
      - injection Hp as <-. apply Hrefuse; pick_member. }
    destruct (findOneAndUpdate M now id uid _ coll) as [[[doc|] coll']|[]]; simpl.
    + right. right. left. by eexists _, _.
    + right. right. right. apply Hrefuse; pick_member.
    + right. right. right. apply Hrefuse; pick_member.
    + right. right. right. apply Hrefuse; pick_member.
    + right. right. right. apply Hrefuse; pick_member.
  - unfold delete_lead. destruct (castObjectId id).
    + destruct (select _ coll) as [[[before doc] after]|]; simpl; [by left|].
      right. right. right. apply Hrefuse; pick_member.
    + right. right. right. apply Hrefuse; pick_member.
Qed.

(** X21. When a request to a writing route fails, the page shows the
    message of the server, never its own fallback text: for a request
    refused by validation that is "Validation failed", with none of the
    errors of the fields; and a request that gets no response at all
    shows "An error occurred".  A request that succeeds shows no
    error. *)
Theorem failed_request_shows_the_server_message V M r coll fallback :
  (∀ o, ∃ shown, toast_error fallback (intercept o) = shown
                 ∧ (∀ m, intercept o = Rejected m → m ≠ EmptyString ∧ shown = Some m))
  ∧ toast_error fallback (intercept NoAnswer) = Some "An error occurred"
  ∧ match (handle V M r coll).1 with
    | Json status success message errors _ =>
        toast_error fallback (intercept (of_response (handle V M r coll).1))
        = (if success then None else Some message)
        ∧ (errors ≠ [] → message = "Validation failed")
    | NoContent _ => toast_error fallback (intercept (of_response (handle V M r coll).1)) = None
    end.
Proof.
  assert (∀ o, message_of o ≠ EmptyString) as Hmsg.
  { intros [st [m|]|]; simpl; try done. by case_bool_decide. }
  split; [|split; [done|]].
  - intros o. eexists. split; [done|]. intros m Hm.
    assert (m = message_of o) as ->.
    { destruct o as [st msg|]; simpl in Hm; [|by injection Hm].
      destruct (_ && _); [done|by injection Hm]. }
    split; [done|]. rewrite Hm. simpl. by rewrite bool_decide_eq_false_2.
  - destruct (handle_answers V M r coll)
      as [->|[(msg & doc & ->)|[(msg & doc & ->)|(st & msg & errs & -> & Hst & Hm & He)]]];
      try done.
    split; [|done].
    assert (msg ≠ EmptyString) as Hne.
    { intros ->. revert Hm. apply (bool_decide_eq_false_1 _). reflexivity. }
    assert (toast_error fallback (Rejected (message_of (Answer st (Some msg)))) = Some msg)
      as Hshown.
    { simpl. by rewrite !(bool_decide_eq_false_2 (msg = EmptyString)) by done. }
    repeat (apply elem_of_cons in Hst as [->|Hst]; [exact Hshown|]).
    by apply elem_of_nil in Hst.
Qed.

(** ** Patterns: the matcher decides the language *)

Import Language.

Lemma string_app_cons a s t : String a s +:+ t = String a (s +:+ t).
Proof. reflexivity. Qed.

Lemma string_app_nil_l t : EmptyString +:+ t = t.
Proof. reflexivity. Qed.

Lemma string_app_nil_r s : s +:+ EmptyString = s.
Proof. induction s as [|a s IH]; [done|]. by rewrite string_app_cons, IH. Qed.

Lemma string_app_assoc s1 s2 s3 : (s1 +:+ s2) +:+ s3 = s1 +:+ (s2 +:+ s3).
Proof. induction s1 as [|a s1 IH]; [done|]. by rewrite !string_app_cons, IH. Qed.

Lemma string_app_nil s1 s2 : s1 +:+ s2 = EmptyString → s1 = EmptyString ∧ s2 = EmptyString.
Proof. destruct s1; [done|]. rewrite string_app_cons. discriminate. Qed.

Lemma accepts_Void s : ¬ accepts Regex.Void s.
Proof. intros H. inversion H. Qed.

Lemma accepts_Eps s : accepts Regex.Eps s ↔ s = EmptyString.
Proof. split; [intros H; by inversion H|intros ->; constructor]. Qed.

Lemma accepts_Seq r1 r2 s :
  accepts (Regex.Seq r1 r2) s ↔ ∃ s1 s2, s = s1 +:+ s2 ∧ accepts r1 s1 ∧ accepts r2 s2.
Proof.
  split.
  - intros H. inversion H; subst. by eexists _, _.
  - intros (s1 & s2 & -> & H1 & H2). by constructor.
Qed.

Lemma accepts_Alt r1 r2 s : accepts (Regex.Alt r1 r2) s ↔ accepts r1 s ∨ accepts r2 s.
Proof.
  split.
  - intros H. inversion H; subst; [by left|by right].
  - intros [H|H]; [by apply accepts_alt_l|by apply accepts_alt_r].
Qed.

Lemma accepts_nullable r : accepts r EmptyString ↔ Regex.nullable r = true.
Proof.
  induction r as [| |p|r1 IH1 r2 IH2|r1 IH1 r2 IH2|r IH]; simpl.
  - split; [by intros ?%accepts_Void|done].
  - split; [done|constructor].
  - split; [intros H; inversion H|done].
  - rewrite andb_true_iff, <- IH1, <- IH2, accepts_Seq. split.
    + intros (s1 & s2 & [-> ->]%eq_sym%string_app_nil & H1 & H2). done.
    + intros [H1 H2]. by exists EmptyString, EmptyString.
  - by rewrite orb_true_iff, <- IH1, <- IH2, accepts_Alt.
  - split; [done|constructor].
Qed.

Lemma accepts_smart_seq r1 r2 s : accepts (Regex.seq r1 r2) s ↔ accepts (Regex.Seq r1 r2) s.
Proof.
  rewrite accepts_Seq.
  assert (accepts r2 s ↔ ∃ s1 s2, s = s1 +:+ s2 ∧ accepts Regex.Eps s1 ∧ accepts r2 s2) as Hl.
  { split.
    - intros H. exists EmptyString, s. repeat split; [constructor|done].
    - intros (s1 & s2 & -> & ->%accepts_Eps & H). done. }
  assert (accepts r1 s ↔ ∃ s1 s2, s = s1 +:+ s2 ∧ accepts r1 s1 ∧ accepts Regex.Eps s2) as Hr.
  { split.
    - intros H. exists s, EmptyString. rewrite string_app_nil_r. repeat split; [done|constructor].
    - intros (s1 & s2 & -> & H & ->%accepts_Eps). by rewrite string_app_nil_r. }
  assert (∀ r, accepts Regex.Void s ↔ ∃ s1 s2, s = s1 +:+ s2 ∧ accepts Regex.Void s1 ∧ accepts r s2)
    as Hvl.
  { intros r. split; [by intros ?%accepts_Void|].
    by intros (s1 & s2 & _ & ?%accepts_Void & _). }
  assert (∀ r, accepts Regex.Void s ↔ ∃ s1 s2, s = s1 +:+ s2 ∧ accepts r s1 ∧ accepts Regex.Void s2)
    as Hvr.
  { intros r. split; [by intros ?%accepts_Void|].
    by intros (s1 & s2 & _ & _ & ?%accepts_Void). }
  destruct r1, r2; simpl; try apply Hvl; try apply Hvr; try apply Hl; try apply Hr;
    apply accepts_Seq.
Qed.

Lemma accepts_smart_alt r1 r2 s : accepts (Regex.alt r1 r2) s ↔ accepts (Regex.Alt r1 r2) s.
Proof.
  rewrite accepts_Alt.
  destruct r1, r2; simpl; rewrite ?accepts_Alt;
    split; try tauto; intros H; try (destruct H as [H|H]); try (by apply accepts_Void in H);
    tauto.
Qed.

Lemma deriv_sound a r s : accepts (Regex.deriv a r) s → accepts r (String a s).
Proof.
  revert s. induction r as [| |p|r1 IH1 r2 IH2|r1 IH1 r2 IH2|r IH]; simpl; intros s.
  - by intros ?%accepts_Void.
  - by intros ?%accepts_Void.
  - destruct (p a) eqn:Hp; [|by intros ?%accepts_Void].
    intros ->%accepts_Eps. by constructor.
  - assert (accepts (Regex.seq (Regex.deriv a r1) r2) s → accepts (Regex.Seq r1 r2) (String a s))
      as Hleft.
    { intros (s1 & s2 & -> & H1 & H2)%accepts_smart_seq%accepts_Seq.
      apply (accepts_seq r1 r2 (String a s1) s2); [by apply IH1|done]. }
    destruct (Regex.nullable r1) eqn:Hn; [|done].
    intros [H|H]%accepts_smart_alt%accepts_Alt; [by apply Hleft|].
    apply (accepts_seq r1 r2 EmptyString (String a s)); [by apply accepts_nullable|by apply IH2].
  - intros [H|H]%accepts_smart_alt%accepts_Alt;
      [apply accepts_alt_l; by apply IH1|apply accepts_alt_r; by apply IH2].
  - intros (s1 & s2 & -> & H1 & H2)%accepts_smart_seq%accepts_Seq.
    apply (accepts_star_more r (String a s1) s2); [by apply IH|done].
Qed.

Lemma deriv_complete a r s : accepts r (String a s) → accepts (Regex.deriv a r) s.
Proof.
  intros H. remember (String a s) as t eqn:Ht. revert a s Ht.
  induction H as [|p b Hp|r1 r2 s1 s2 H1 IH1 H2 IH2|r1 r2 t H IH|r1 r2 t H IH|r
                  |r s1 s2 H1 IH1 H2 IH2]; intros a s Ht; simpl.
  - discriminate.
  - injection Ht as -> <-. rewrite Hp. constructor.
  - destruct s1 as [|b s1]; rewrite ?string_app_nil_l, ?string_app_cons in Ht.
    + subst s2. apply accepts_nullable in H1. rewrite H1.
      apply accepts_smart_alt, accepts_alt_r. by apply IH2.
    + injection Ht as -> <-.
      assert (accepts (Regex.seq (Regex.deriv a r1) r2) (s1 +:+ s2)) as Hs.
      { apply accepts_smart_seq. constructor; [by apply IH1|done]. }
      destruct (Regex.nullable r1); [|done]. by apply accepts_smart_alt, accepts_alt_l.
  - apply accepts_smart_alt, accepts_alt_l. by apply IH.
  - apply accepts_smart_alt, accepts_alt_r. by apply IH.
  - discriminate.
  - destruct s1 as [|b s1]; rewrite ?string_app_nil_l, ?string_app_cons in Ht.
    + by apply IH2.
    + injection Ht as -> <-. apply accepts_smart_seq. constructor; [by apply IH1|done].
Qed.

(** The matcher accepts a string exactly when the pattern denotes it. *)
Lemma test_accepts r s : Regex.test r s = true ↔ accepts r s.
Proof.
  revert r. induction s as [|a s IH]; intros r; simpl.
  - by rewrite accepts_nullable.
  - rewrite IH. split; [apply deriv_sound|apply deriv_complete].
Qed.

Lemma all_chars_app p s1 s2 : all_chars p (s1 +:+ s2) = all_chars p s1 && all_chars p s2.
Proof.
  induction s1 as [|a s1 IH]; [done|]. rewrite string_app_cons. simpl.
  by rewrite IH, andb_assoc.
Qed.

(** The characters of a match are characters of the classes of the
    pattern. *)
Lemma accepts_all_chars p r s : classes_within p r → accepts r s → all_chars p s = true.
Proof.
  intros Hr H. induction H; simpl in *; rewrite ?all_chars_app; try done.
  - by rewrite (Hr a).
  - destruct Hr. by rewrite IHaccepts1, IHaccepts2.
  - destruct Hr. by apply IHaccepts.
  - destruct Hr. by apply IHaccepts.
  - by rewrite IHaccepts1, IHaccepts2.
Qed.

(** One or more characters of a class. *)
Lemma accepts_plus_cls p s :
  s ≠ EmptyString → all_chars p s = true → accepts (Regex.plus (Regex.Cls p)) s.
Proof.
  assert (∀ s, all_chars p s = true → accepts (Regex.Star (Regex.Cls p)) s) as Hstar.
  { clear s. induction s as [|a s IH]; simpl; [constructor|].
    intros [Ha Hs]%andb_true_iff.
    apply (accepts_star_more _ (String a EmptyString) s); [by constructor|by apply IH]. }
  destruct s as [|a s]; [done|]. intros _ [Ha Hs]%andb_true_iff.
  apply (accepts_seq _ _ (String a EmptyString) s); [by constructor|by apply Hstar].
Qed.

(** ** The address: the schema's pattern and the form's *)

Lemma not_space_by_code a :
  (33 ≤ nat_of_ascii a ≤ 126)%nat → negb (is_space a) = true.
Proof.
  intros Hb. apply negb_true_iff. unfold is_space.
  apply bool_decide_eq_false. set_unfold. lia.
Qed.

Lemma eqb_class c a : Ascii.eqb c a = true → a = c.
Proof. intros H. symmetry. by apply Ascii.eqb_eq. Qed.

Lemma word_not_space a :
  (Regex.between 48 57 a || Regex.between 65 90 a || Regex.between 97 122 a
   || Ascii.eqb a "_") = true →
  negb (is_space a) = true.
Proof.
  rewrite !orb_true_iff. unfold Regex.between. rewrite !andb_true_iff, !Nat.leb_le.
  intros [[[H|H]|H]|H]; try (apply not_space_by_code; lia).
  apply Ascii.eqb_eq in H as ->. reflexivity.
Qed.

(** The characters of an address the schema's pattern accepts. *)
Lemma email_classes :
  let dotted := Regex.Star (Regex.Seq (Regex.opt (Regex.Alt (Regex.chr ".") (Regex.chr "-")))
                                      (Regex.plus Regex.word)) in
  let part := Regex.Seq (Regex.chr ".")
                        (Regex.Seq Regex.word (Regex.Seq Regex.word (Regex.opt Regex.word))) in
  classes_within (λ a, negb (is_space a)) (Regex.Seq (Regex.plus Regex.word) dotted)
  ∧ classes_within (λ a, negb (is_space a)) (Regex.Star part)
  ∧ classes_within (λ a, negb (is_space a)) Regex.word.
Proof.
  simpl. repeat split; try (apply word_not_space);
    by intros a ->%eqb_class.
Qed.

Lemma accepts_cls_inv p s : accepts (Regex.Cls p) s → ∃ a, s = String a EmptyString ∧ p a = true.
Proof. intros H. inversion H; subst. by eexists. Qed.

(** X22. An address that the pattern of the schema accepts is accepted
    by the form that creates a lead: [validateForm] reports neither
    "Email is required" nor "Please enter a valid email" on it. *)
Theorem schema_address_passes_the_form formData newErrors :
  Regex.test email_pattern (CreateLead.email formData) = true →
  CreateLead.search CreateLead.email_shape (CreateLead.email formData) = true
  ∧ CreateLead.check_email formData newErrors = newErrors.
Proof.
  intros Ht.
  assert (CreateLead.search CreateLead.email_shape (CreateLead.email formData) = true) as Hs.
  2:{ split; [done|]. unfold CreateLead.check_email. rewrite Hs.
      unfold CreateLead.is_empty. rewrite bool_decide_eq_false_2; [done|].
      intros E. rewrite E in Ht. discriminate Ht. }
  generalize dependent (CreateLead.email formData). intros s Ht.
  apply test_accepts in Ht. unfold email_pattern in Ht.
  destruct email_classes as (Hlocal & Htail & Hword).
  apply accepts_Seq in Ht as (w1 & r1 & -> & Hw1 & Ht).
  apply accepts_Seq in Ht as (d1 & r2 & -> & Hd1 & Ht).
  apply accepts_Seq in Ht as (at_ & r3 & -> & Hat & Ht).
  apply accepts_Seq in Ht as (w2 & r4 & -> & Hw2 & Ht).
  apply accepts_Seq in Ht as (d2 & tl & -> & Hd2 & Htl).
  apply accepts_Seq in Htl as (t1 & rest & -> & Ht1 & Hrest).
  apply accepts_Seq in Ht1 as (dot & x & -> & Hdot & Hx).
  apply accepts_cls_inv in Hat as (a1 & -> & ->%eqb_class).
  apply accepts_cls_inv in Hdot as (a2 & -> & ->%eqb_class).
  apply accepts_Seq in Hx as (x1 & x2 & -> & Hx1 & Hx2).
  pose proof Hx1 as (c1 & -> & Hc1)%accepts_cls_inv.
  assert (∀ w, accepts (Regex.plus Regex.word) w → w ≠ EmptyString) as Hne.
  { intros w (h & t & -> & (c & -> & _)%accepts_cls_inv & _)%accepts_Seq.
    rewrite string_app_cons. discriminate. }
  set (ns := λ a, negb (is_space a)).
  assert (accepts (Regex.plus (Regex.Cls ns)) (w1 +:+ d1)) as Hu.
  { apply accepts_plus_cls.
    - intros [E _]%string_app_nil. by apply (Hne w1).
    - apply (accepts_all_chars ns _ _ Hlocal). by constructor. }
  assert (accepts (Regex.plus (Regex.Cls ns)) (w2 +:+ d2)) as Hv.
  { apply accepts_plus_cls.
    - intros [E _]%string_app_nil. by apply (Hne w2).
    - apply (accepts_all_chars ns _ _ Hlocal). by constructor. }
  assert (accepts (Regex.plus (Regex.Cls ns)) ((String c1 EmptyString +:+ x2) +:+ rest)) as Htld.
  { apply accepts_plus_cls.
    - rewrite !string_app_cons. discriminate.
    - rewrite all_chars_app, !string_app_cons. simpl.
      apply andb_true_iff; split;
        [apply andb_true_iff; split; [exact (Hword c1 Hc1)|]
        |exact (accepts_all_chars ns _ _ Htail Hrest)].
      assert (classes_within ns (Regex.Seq Regex.word (Regex.opt Regex.word))) as Hc
        by (simpl; repeat split; apply word_not_space).
      apply (accepts_all_chars ns _ _ Hc Hx2). }
  unfold CreateLead.search. apply test_accepts.
  apply (accepts_seq _ _ EmptyString); [constructor|].
  rewrite <- (string_app_nil_r (_ +:+ _)).
  apply accepts_seq; [|constructor].
  unfold CreateLead.email_shape. fold ns.
  replace (w1 +:+ d1 +:+ String "@" EmptyString +:+ w2 +:+ d2
             +:+ (String "." EmptyString +:+ String c1 EmptyString +:+ x2) +:+ rest)
    with ((w1 +:+ d1) +:+ (String "@" EmptyString +:+ ((w2 +:+ d2)
             +:+ (String "." EmptyString +:+ ((String c1 EmptyString +:+ x2) +:+ rest)))))
    by (by rewrite !string_app_assoc).
  apply accepts_seq; [exact Hu|].
  apply accepts_seq; [by constructor|].
  apply accepts_seq; [exact Hv|].
  apply accepts_seq; [by constructor|exact Htld].
Qed.

(** ** What the rules of the routes let through, the schema accepts *)

Import Agreement.

Lemma trim_start_cases l :
  trim_start l = [] ∨ ∃ a r, trim_start l = a :: r ∧ is_space a = false.
Proof.
  induction l as [|a l IH]; simpl; [by left|].
  destruct (is_space a) eqn:Ha; [done|]. right. by exists a, l.
Qed.

Lemma trim_start_spaces l : trim_start l = [] → ∀ x, x ∈ l → is_space x = true.
Proof.
  induction l as [|a l IH]; simpl; [by intros _ x ?%elem_of_nil|].
  destruct (is_space a) eqn:Ha; [|done].
  intros H x [->|Hx]%elem_of_cons; [done|by apply IH].
Qed.

Lemma trim_start_suffix l : ∃ k, l = (k ++ trim_start l)%list.
Proof.
  induction l as [|a l [k IH]]; simpl; [by exists []|].
  destruct (is_space a); [|by exists []]. exists (a :: k). simpl. by f_equal.
Qed.

(** What [trim] leaves is empty, or starts and ends outside white
    space. *)
Lemma trim_list_cases l :
  trim_list l = []
  ∨ ∃ a r b, trim_list l = a :: r ∧ is_space a = false ∧ is_space b = false
             ∧ last (a :: r) = Some b.
Proof.
  unfold trim_list.
  destruct (trim_start_cases l) as [->|(a & r & -> & Hsa)]; [by left|].
  destruct (trim_start_cases (rev (a :: r))) as [Hm|(b & r' & Hm & Hsb)].
  - pose proof (trim_start_spaces _ Hm a) as Hsp.
    rewrite Hsp in Hsa; [done|]. apply list_elem_of_In, in_rev. rewrite rev_involutive.
    by left.
  - right. destruct (trim_start_suffix (rev (a :: r))) as [k Hk]. rewrite Hm in *.
    apply (f_equal (@rev ascii)) in Hk. rewrite rev_involutive, rev_app_distr in Hk.
    destruct (rev (b :: r')) as [|a0 r0] eqn:Hr.
    { simpl in Hr. by destruct (rev r'). }
    simpl in Hk. injection Hk as -> _. exists a0, r0, b.
    split; [done|]. split; [done|]. split; [done|].
    rewrite <- Hr. simpl. apply last_snoc.
Qed.

Lemma trim_idem s : trim (trim s) = trim s.
Proof.
  unfold trim. rewrite list_ascii_of_string_of_list_ascii. f_equal.
  destruct (trim_list_cases (list_ascii_of_string s))
    as [->|(a & r & b & -> & Ha & Hb & Hl)]; [done|].
  by apply (trim_list_id a r b).
Qed.

Lemma all_chars_elem p s x :
  all_chars p s = true → x ∈ list_ascii_of_string s → p x = true.
Proof.
  induction s as [|a s IH]; simpl; [by intros _ ?%elem_of_nil|].
  intros [Ha Hs]%andb_true_iff [->|Hx]%elem_of_cons; [done|by apply IH].
Qed.

(** A string without white space is left by [trim] as it is. *)
Lemma trim_no_space s : all_chars (λ a, negb (is_space a)) s = true → trim s = s.
Proof.
  intros Hall. destruct s as [|a s]; [done|].
  unfold trim. simpl list_ascii_of_string.
  destruct (last (a :: list_ascii_of_string s)) as [b|] eqn:Hl.
  2:{ apply last_None in Hl. discriminate Hl. }
  rewrite (trim_list_id a _ b).
  - simpl. by rewrite string_of_list_ascii_of_string.
  - apply negb_true_iff. simpl in Hall. by apply andb_true_iff in Hall as [? _].
  - apply negb_true_iff.
    apply (all_chars_elem (λ a, negb (is_space a)) (String a s)); [done|].
    apply last_Some in Hl as [l' Hl']. simpl. rewrite Hl'. set_solver.
  - done.
Qed.

Lemma classes_within_upto p n r : classes_within p r → classes_within p (Regex.upto n r).
Proof. intros Hr. induction n as [|n IH]; simpl; [done|]. by repeat split. Qed.

(** A telephone number the pattern accepts has no white space and at
    least one character. *)
Lemma phone_shape s : Regex.test phone_pattern s = true → s ≠ EmptyString ∧ trim s = s.
Proof.
  intros Ht. split; [by intros ->|].
  apply trim_no_space. apply test_accepts in Ht.
  apply (accepts_all_chars _ phone_pattern); [|done].
  unfold phone_pattern. simpl. split; [split; [done|]|split].
  - by intros a ->%eqb_class.
  - intros a Ha. apply not_space_by_code. unfold Regex.between in Ha.
    apply andb_true_iff in Ha as [?%Nat.leb_le ?%Nat.leb_le]. lia.
  - apply (classes_within_upto _ 15 Regex.digit). simpl. intros a Ha.
    apply not_space_by_code. unfold Regex.between in Ha.
    apply andb_true_iff in Ha as [?%Nat.leb_le ?%Nat.leb_le]. lia.
Qed.

Lemma validationResult_nil chains body c :
  validationResult chains body = [] → c ∈ chains → (run_chain c body).2 = [].
Proof.
  unfold validationResult. induction chains as [|c0 chains IH]; simpl.
  - by intros _ ?%elem_of_nil.
  - intros [H0 H]%app_nil [->|Hc]%elem_of_cons; [done|by apply IH].
Qed.

Lemma build_outside M paths obj doc k :
  build M paths obj = Some doc → k ∉ List.map sp_name paths → doc !! k = None.
Proof.
  revert doc. induction paths as [|s rest IH]; simpl; intros doc Hb Hk.
  - by injection Hb as <-.
  - destruct (build M rest obj) as [d|]; simpl in Hb; [|done].
    apply not_elem_of_cons in Hk as [Hne Hk]. specialize (IH d eq_refl Hk).
    destruct (obj !! sp_name s) as [v|].
    + destruct (cast M s v); simpl in Hb; [|done]. injection Hb as <-.
      by rewrite lookup_insert_ne.
    + injection Hb as <-. destruct (sp_default s); by rewrite ?lookup_insert_ne.
Qed.

Lemma validate_insert_fresh paths doc k v :
  k ∉ List.map sp_name paths → validate paths (<[k := v]> doc) = validate paths doc.
Proof.
  unfold validate. induction paths as [|sp rest IH]; simpl; [done|].
  intros [Hne Hk]%not_elem_of_cons. by rewrite lookup_insert_ne, IH.
Qed.

(** A document whose members are each cast and accepted by their path,
    and whose defaults are accepted where a member lacks, is built and
    validated. *)
Lemma build_validates M paths obj :
  NoDup (List.map sp_name paths) →
  (∀ sp, sp ∈ paths →
     match obj !! sp_name sp with
     | Some v => ∃ v', cast M sp v = Some v' ∧ valid sp v' = true
     | None => valid sp (default FNull (sp_default sp)) = true
     end) →
  ∃ doc, build M paths obj = Some doc ∧ validate paths doc = true.
Proof.
  induction paths as [|sp rest IH]; intros Hnd Hall; [by exists ∅|].
  simpl in Hnd. apply NoDup_cons in Hnd as [Hnotin Hnd].
  destruct (IH Hnd) as (doc & Hb & Hv); [intros sp' Hsp'; apply Hall; by right|].
  specialize (Hall sp ltac:(left)). simpl. rewrite Hb. simpl.
  pose proof (build_outside _ _ _ _ _ Hb Hnotin) as Hout.
  destruct (obj !! sp_name sp) as [v|].
  - destruct Hall as (v' & -> & Hvalid). simpl. eexists. split; [done|].
    change (valid sp (default FNull (<[sp_name sp := v']> doc !! sp_name sp))
            && validate rest (<[sp_name sp := v']> doc) = true).
    by rewrite lookup_insert_eq, validate_insert_fresh, Hv, andb_true_r.
  - eexists. split; [done|]. destruct (sp_default sp) as [d|]; simpl in Hall.
    + change (valid sp (default FNull (<[sp_name sp := d]> doc !! sp_name sp))
              && validate rest (<[sp_name sp := d]> doc) = true).
      by rewrite lookup_insert_eq, validate_insert_fresh, Hv, andb_true_r.
    + change (valid sp (default FNull (doc !! sp_name sp)) && validate rest doc = true).
      by rewrite Hout, Hv, andb_true_r.
Qed.

Lemma path_of_name sp name sp0 :
  sp ∈ leadSchema → sp_name sp = name → path_named name = Some sp0 → sp = sp0.
Proof.
  unfold leadSchema. intros Hin <-.
  repeat (apply elem_of_cons in Hin as [->|Hin]); try (by apply elem_of_nil in Hin);
    by intros [= <-].
Qed.

Section Agreed.

Variable V : validator_js.
Variable M : mapper.
Variable body : gmap string string.

Hypothesis passed : validationResult (leadValidation V) body = [].
Hypothesis accepted :
  ∀ name s, name ∈ library_checked →
            sanitized (leadValidation V) body !! name = Some s → schema_accepts M name s.

Lemma text_rule p required_msg max max_msg :
  required_text p required_msg max max_msg ∈ leadValidation V →
  ∃ t, sanitized (leadValidation V) body !! p = Some t
       ∧ trim t = t ∧ t ≠ EmptyString ∧ (String.length t ≤ max)%nat.
Proof.
  intros Hc. pose proof (validationResult_nil _ _ _ passed Hc) as He.
  exists (trim (Validation.toString (body !! p))).
  unfold sanitized.
  rewrite (sanitized_written body _ _ _ (leadValidation_NoDup V) Hc).
  unfold run_chain, required_text in *. simpl in *.
  assert (notEmpty (trim (Validation.toString (body !! p))) = true
          ∧ isLength_max max (trim (Validation.toString (body !! p))) = true) as [Hne Hlen].
  { destruct (body !! p); simpl in He;
      (destruct (notEmpty _); [|done]); by destruct (isLength_max _ _). }
  split; [by destruct (body !! p)|]. split; [apply trim_idem|].
  split.
  - unfold notEmpty in Hne. apply negb_true_iff in Hne. by apply bool_decide_eq_false in Hne.
  - by apply Nat.leb_le.
Qed.

Lemma single_rule p o check msg :
  Chain p o [Validator check msg] ∈ leadValidation V →
  sanitized (leadValidation V) body !! p = body !! p
  ∧ (∀ v, body !! p = Some v → check v = true)
  ∧ (o = false → check (Validation.toString (body !! p)) = true).
Proof.
  intros Hc. pose proof (validationResult_nil _ _ _ passed Hc) as He.
  unfold sanitized.
  rewrite (sanitized_written body _ _ _ (leadValidation_NoDup V) Hc).
  unfold run_chain in *. simpl in *.
  destruct (body !! p) as [v|]; simpl in *.
  - destruct (check v) eqn:Hcheck; [|done].
    split; [done|]. split; [by intros ? [= <-]|done].
  - destruct o; simpl in *.
    + by repeat split.
    + destruct (check EmptyString); [|done]. by repeat split.
Qed.

Lemma email_rule :
  ∃ e, sanitized (leadValidation V) body !! "email" = Some e ∧ schema_accepts M "email" e.
Proof.
  eexists. split; [apply sanitized_email|].
  apply accepted; [unfold library_checked; pick_member|apply sanitized_email].
Qed.

Ltac member_of_rules := unfold leadValidation, required_text; pick_member.

Ltac listed H :=
  apply bool_decide_eq_true in H;
  repeat (apply elem_of_cons in H as [->|H]); [..|by apply elem_of_nil in H].

(** A member that reached the handler is cast and accepted by its
    path. *)
Lemma rules_agree sp s :
  sp ∈ leadSchema → sp_name sp ≠ "user_id" →
  sanitized (leadValidation V) body !! sp_name sp = Some s →
  ∃ v, cast M sp (FStr s) = Some v ∧ valid sp v = true.
Proof.
  unfold leadSchema. intros Hin Hne Hs.
  repeat (apply elem_of_cons in Hin as [->|Hin]); try (by apply elem_of_nil in Hin);
    cbn [sp_name text email_path] in Hs, Hne; try done.
  1,2,5,6,7:
    match type of Hs with
    | _ !! ?p = _ =>
        match goal with
        | |- context [text p ?max] =>
            destruct (text_rule p _ max _ ltac:(member_of_rules))
              as (t & Ht & Htr & Hfull & Hlen)
        end
    end;
    rewrite Ht in Hs; injection Hs as <-; exists (FStr t);
    (split; [unfold cast, setters; cbn [sp_type sp_lowercase sp_trim text];
             by rewrite Htr|]);
    unfold valid; cbn [sp_required sp_maxlength sp_match sp_enum text];
    rewrite bool_decide_eq_false_2 by done;
    cbn [andb negb]; rewrite !andb_true_r; by apply Nat.leb_le.
  - destruct email_rule as (e & He & sp & v & Hp & Hc & Hv).
    rewrite He in Hs. injection Hs as <-. injection Hp as <-. by exists v.
  - destruct (single_rule "phone" false (Regex.test phone_pattern) _ ltac:(member_of_rules))
      as (Hsan & Hcheck & _).
    rewrite Hsan in Hs. apply Hcheck in Hs. destruct (phone_shape _ Hs) as [Hfull Htr].
    exists (FStr s).
    split; [unfold cast, setters; cbn [sp_type sp_lowercase sp_trim]; by rewrite Htr|].
    unfold valid. cbn [sp_required sp_maxlength sp_match sp_enum].
    by rewrite Hs, bool_decide_eq_false_2, orb_true_r by done.
  - destruct (single_rule "source" false (isIn sources) _ ltac:(member_of_rules))
      as (Hsan & Hcheck & _).
    rewrite Hsan in Hs. apply Hcheck in Hs. unfold isIn, sources in Hs.
    listed Hs; (eexists; split; [reflexivity|vm_compute; reflexivity]).
  - destruct (single_rule "status" true (isIn statuses) _ ltac:(member_of_rules))
      as (Hsan & Hcheck & _).
    rewrite Hsan in Hs. apply Hcheck in Hs. unfold isIn, statuses in Hs.
    listed Hs; (eexists; split; [reflexivity|vm_compute; reflexivity]).
  - destruct (single_rule "score" true (isInt (Some 0%Z) (Some 100%Z)) _
                ltac:(member_of_rules)) as (Hsan & Hcheck & _).
    rewrite Hsan in Hs. apply Hcheck in Hs. unfold isInt in Hs.
    apply andb_true_iff in Hs as [[_ Hlo]%andb_true_iff Hhi].
    unfold cast. cbn [sp_type]. case_bool_decide; [by exists FNull|].
    destruct (StringToNumber s) as [| |] eqn:Hn; try discriminate Hlo;
      (eexists; split; [reflexivity|]); unfold valid; cbn [sp_min sp_max];
      by rewrite Hlo, Hhi.
  - destruct (accepted "lead_value" s ltac:(unfold library_checked; pick_member) Hs)
      as (sp & v & Hp & Hc & Hv).
    injection Hp as <-. by exists v.
  - destruct (accepted "last_activity_at" s ltac:(unfold library_checked; pick_member) Hs)
      as (sp & v & Hp & Hc & Hv).
    injection Hp as <-. by exists v.
  - destruct (single_rule "is_qualified" true isBoolean _ ltac:(member_of_rules))
      as (Hsan & Hcheck & _).
    rewrite Hsan in Hs. apply Hcheck in Hs. unfold isBoolean in Hs.
    listed Hs; (eexists; split; [reflexivity|reflexivity]).
Qed.

(** A member that did not reach the handler is one the schema has a
    default for, or does not require. *)
Lemma rules_require sp :
  sp ∈ leadSchema → sp_name sp ≠ "user_id" →
  sanitized (leadValidation V) body !! sp_name sp = None →
  valid sp (default FNull (sp_default sp)) = true.
Proof.
  unfold leadSchema. intros Hin Hne Hs.
  repeat (apply elem_of_cons in Hin as [->|Hin]); try (by apply elem_of_nil in Hin);
    cbn [sp_name text email_path] in Hs, Hne; try done; try reflexivity.
  1,2,5,6,7:
    match type of Hs with
    | _ !! ?p = _ =>
        match goal with
        | |- context [text p ?max] =>
            destruct (text_rule p _ max _ ltac:(member_of_rules)) as (t & Ht & _)
        end
    end; by rewrite Ht in Hs.
  - destruct email_rule as (e & He & _). by rewrite He in Hs.
  - destruct (single_rule "phone" false (Regex.test phone_pattern) _ ltac:(member_of_rules))
      as (Hsan & _ & Hcheck).
    rewrite Hsan in Hs. rewrite Hs in Hcheck. by specialize (Hcheck eq_refl).
  - destruct (single_rule "source" false (isIn sources) _ ltac:(member_of_rules))
      as (Hsan & _ & Hcheck).
    rewrite Hsan in Hs. rewrite Hs in Hcheck. by specialize (Hcheck eq_refl).
Qed.

End Agreed.

Lemma cast_update_validates M paths upd u :
  NoDup (List.map sp_name paths) →
  cast_update M paths upd = Some u →
  (∀ sp v v', sp ∈ paths → upd !! sp_name sp = Some v → cast M sp v = Some v' →
              valid sp v' = true) →
  validate_update paths u = true.
Proof.
  intros Hnd Hu Hall. unfold validate_update. apply forallb_forall.
  intros sp Hsp%list_elem_of_In.
  destruct (upd !! sp_name sp) as [v|] eqn:Hv.
  - destruct (cast_update_lookup _ _ _ _ _ _ Hu Hnd Hsp Hv) as (v' & Hc & ->).
    by apply (Hall sp v v').
  - by rewrite (cast_update_absent _ _ _ _ _ Hu Hv).
Qed.

Lemma schema_accepts_dec M name s : schema_accepts M name s ∨ ¬ schema_accepts M name s.
Proof.
  unfold schema_accepts. destruct (path_named name) as [sp|]; [|right; by intros (? & ? & [=] & _)].
  destruct (cast M sp (FStr s)) as [v|] eqn:Hc.
  - destruct (valid sp v) eqn:Hv; [left; by exists sp, v|].
    right. intros (sp' & v' & [= <-] & Hc' & Hv'). congruence.
  - right. intros (sp' & v' & [= <-] & Hc' & _). congruence.
Qed.

Lemma rejected_dec M body name :
  rejected M body name ∨ ∀ s, body !! name = Some s → schema_accepts M name s.
Proof.
  destruct (body !! name) as [s|] eqn:Hs; [|by right].
  destruct (schema_accepts_dec M name s) as [Ha|Hr].
  - right. by intros ? [= <-].
  - left. by exists s.
Qed.

(** Either one of the three fields holds a string the schema does not
    accept, or the schema accepts all three. *)
Lemma library_checked_dec M body :
  (∃ name, name ∈ library_checked ∧ rejected M body name)
  ∨ ∀ name s, name ∈ library_checked → body !! name = Some s → schema_accepts M name s.
Proof.
  destruct (rejected_dec M body "email") as [H1|H1];
    [left; exists "email"; split; [unfold library_checked; pick_member|done]|].
  destruct (rejected_dec M body "lead_value") as [H2|H2];
    [left; exists "lead_value"; split; [unfold library_checked; pick_member|done]|].
  destruct (rejected_dec M body "last_activity_at") as [H3|H3];
    [left; exists "last_activity_at"; split; [unfold library_checked; pick_member|done]|].
  right. intros name s Hin. unfold library_checked in Hin.
  repeat (apply elem_of_cons in Hin as [->|Hin]); [by apply H1|by apply H2|by apply H3|].
  by apply elem_of_nil in Hin.
Qed.



Lemma schema_address_passes_the_form_witness :
  Regex.test email_pattern (CreateLead.email filled_form) = true
  ∧ CreateLead.search CreateLead.email_shape (CreateLead.email filled_form) = true
  ∧ CreateLead.check_email filled_form ∅ = ∅.
Proof.
  split; [vm_compute; reflexivity|].
  apply schema_address_passes_the_form. vm_compute. reflexivity.
Defined.



Lemma validate_fails paths doc sp :
  sp ∈ paths → valid sp (default FNull (doc !! sp_name sp)) = false →
  validate paths doc = false.
Proof.
  intros Hsp Hvalid. unfold validate. apply not_true_is_false. intros Hall.
  rewrite forallb_forall in Hall. specialize (Hall sp). rewrite Hvalid in Hall.
  discriminate Hall. by apply list_elem_of_In.
Qed.

(** X25. When the rules of the route let an address through that the
    schema does not accept, and the user has no lead with that address,
    the request to create the lead is answered 500 "Unable to create
    lead" and nothing is stored. *)
Theorem rejected_address_is_a_server_error V M now newId uid body coll :
  validationResult (leadValidation V) body = [] →
  ¬ schema_accepts M "email" (normalizeEmail V (Validation.toString (body !! "email"))) →
  select (by_email_owner (Some (normalizeEmail V (Validation.toString (body !! "email"))))
                         uid None) coll = None →
  post V M now newId uid body coll = (refuse 500 "Unable to create lead", coll).
Proof.
  intros Hv Hno Hsel. unfold post. rewrite Hv, bool_decide_eq_true_2 by done. cbn [negb].
  rewrite sanitized_email, Hsel. unfold save.
  destruct (build M leadSchema _) as [doc|] eqn:Hb; [|done].
  assert ((<["user_id" := FId uid]> (FStr <$> sanitized (leadValidation V) body)) !! "email"
          = Some (FStr (normalizeEmail V (Validation.toString (body !! "email"))))) as Hobj.
  { rewrite lookup_insert_ne by done. by rewrite lookup_fmap, sanitized_email. }
  destruct (build_lookup M leadSchema _ doc email_path _ Hb leadSchema_names_NoDup
              ltac:(unfold leadSchema; pick_member) Hobj) as (v' & Hc & Hl).
  rewrite (validate_fails _ _ email_path); [done|unfold leadSchema; pick_member|].
  rewrite Hl. cbn [default from_option].
  apply not_true_is_false. intros Hvalid. apply Hno.
  exists email_path, v'. split; [reflexivity|]. by split.
Qed.

Lemma rejected_address_is_a_server_error_witness :
  validationResult (leadValidation lenient) (form "ann@corp.info") = []
  ∧ post lenient mapper0 3000 4%N bob (form "ann@corp.info") three_leads
    = (refuse 500 "Unable to create lead", three_leads).
Proof.
  assert (validationResult (leadValidation lenient) (form "ann@corp.info") = []) as Hv
    by (vm_compute; reflexivity).
  split; [exact Hv|].
  apply rejected_address_is_a_server_error; [exact Hv| |vm_compute; reflexivity].
  intros (sp & v & Hp & Hc & Hvalid). injection Hp as <-.
  change (Some (FStr (setters email_path "ann@corp.info")) = Some v) in Hc.
  injection Hc as <-. vm_compute in Hvalid. discriminate Hvalid.
Defined.
